(** * A growable contiguous container over raw storage: [RawMemory] and [Vector]

    Shallow embedding of [src/src/vector.h].

    - [size_t] values are integers in [[0, 2^64)]; every [size_t] operation of
      the source is written with its wrap-around ([wrap]).
    - The free store is a finite map from block identifiers to blocks of
      slots; a slot is either raw (uninitialised) memory or holds a live
      object.  Pointers are a block and a slot offset.
    - Exceptions and undefined behaviour are outcomes of a computation:
      [Throw] keeps the state reached at the [throw], [Fault] stands for a
      failed [assert], for undefined behaviour (reading raw memory, leaving a
      block, comparing pointers into different blocks) and for a statement
      that does not compile for the element type ([ill_formed]).
    - The element type [T] is a parameter described by [ElemOps]: each special
      member function either produces its result or throws; [sizeof(T)] is
      part of it. *)

From stdpp Require Import base gmap list.
From Stdlib Require Import ZArith Lia.

Local Open Scope Z_scope.

(** ** size_t *)

Definition SIZE_MODULUS : Z := 2 ^ 64.

(** Conversion to [size_t], and the result of [size_t] arithmetic. *)
Definition wrap (x : Z) : Z := x mod SIZE_MODULUS.

(** ** Pointers *)

(** [p_blk = None] is the family of pointers obtained from [nullptr]. *)
Record ptr := Ptr { p_blk : option nat; p_off : Z }.

Global Instance ptr_eq_dec : EqDecision ptr.
Proof. solve_decision. Defined.

Definition nullptr : ptr := Ptr None 0.

Definition ptr_add (p : ptr) (k : Z) : ptr := Ptr (p_blk p) (p_off p + k).

(** [std::distance(first, last)] on raw pointers, that is [last - first];
    defined only inside one block. *)
Definition ptr_distance (first last : ptr) : option Z :=
  if decide (p_blk first = p_blk last) then Some (p_off last - p_off first)
  else None.

(** [p < q] on raw pointers. *)
Definition ptr_lt (p q : ptr) : option bool :=
  if decide (p_blk p = p_blk q) then Some (p_off p <? p_off q) else None.

(** ** Outcomes and the computation monad *)

Inductive exn := bad_alloc | element_exception.

Inductive Res (S A : Type) :=
  | Ok (a : A) (s : S)
  | Throw (e : exn) (s : S)
  | Fault.
Arguments Ok {S A} a s.
Arguments Throw {S A} e s.
Arguments Fault {S A}.

Definition Comp (S A : Type) : Type := S → Res S A.

Definition ret {S A} (a : A) : Comp S A := λ s, Ok a s.

Definition bind {S A B} (m : Comp S A) (k : A → Comp S B) : Comp S B :=
  λ s, match m s with
       | Ok a s' => k a s'
       | Throw e s' => Throw e s'
       | Fault => Fault
       end.

Definition throw {S A} (e : exn) : Comp S A := λ s, Throw e s.

Definition fault {S A} : Comp S A := λ _, Fault.

(** A statement that does not compile for the element type at hand.  No
    program contains it, so a call that selects it has no behaviour. *)
Definition ill_formed {S A} : Comp S A := λ _, Fault.

(** [assert(b)] *)
Definition assert {S} (b : bool) : Comp S unit :=
  if b then ret tt else fault.

(** [try { m } catch (...) { h; throw; }], also the unwinding of a scope
    whose locals have the destructors [h]. *)
Definition on_exception {S A} (m : Comp S A) (h : Comp S unit) : Comp S A :=
  λ s, match m s with
       | Ok a s' => Ok a s'
       | Throw e s' =>
           match h s' with
           | Ok _ s'' => Throw e s''
           | Throw e' s'' => Throw e' s''
           | Fault => Fault
           end
       | Fault => Fault
       end.

Definition get {S} : Comp S S := λ s, Ok s s.
Definition put {S} (s : S) : Comp S unit := λ _, Ok tt s.

Definition of_option {S A} (o : option A) : Comp S A :=
  match o with Some a => ret a | None => fault end.

Declare Scope comp_scope.
Delimit Scope comp_scope with comp.
Notation "x <- m ;; k" := (bind m (λ x, k))
  (at level 100, m at next level, right associativity) : comp_scope.
Notation "m ;;; k" := (bind m (λ _, k))
  (at level 100, right associativity) : comp_scope.
Local Open Scope comp_scope.

(** ** The element type *)

(** The special member functions of [T].  [None] is a thrown exception; a
    throwing operation leaves its operands as they were.  A move also yields
    the state it leaves in its source. *)
Class ElemOps (T : Type) := {
  value_init : option T;                       (* T() *)
  copy_construct : T → option T;               (* T(const T&) *)
  move_construct : T → option (T * T);         (* T(T&&) : new object, source *)
  copy_assign : T → T → option T;              (* dst = src : dst *)
  move_assign : T → T → option (T * T);        (* dst = move(src) : dst, src *)
  is_nothrow_move_constructible : bool;
  is_copy_constructible : bool;
  size_of : Z;                                 (* sizeof(T) *)
  size_of_range : 0 < size_of < SIZE_MODULUS
}.

(** ** The free store *)

Section FreeStore.

Context {T : Type} {ops : ElemOps T}.

(** [destroyed] is the record of the destructor calls on objects of the
    store: the values of the objects destroyed, the latest first.  The
    source keeps no such record; it is what tells an object that was
    destroyed from one whose memory was released with the object in it. *)
Record Store := MkStore {
  blocks : gmap nat (list (option T));
  next_block : nat;
  destroyed : list T
}.

(** The allocator is an external collaborator: whether a request for [n]
    objects is granted in a given store is its decision. *)
Variable grants : Store → Z → bool.

Definition Mem := Comp Store.

Definition elem {S A} (o : option A) : Comp S A :=
  match o with Some a => ret a | None => throw element_exception end.

(** The number of whole slots of [T] in the block that
    [operator new(n * sizeof(T))] returns: the byte count is a [size_t]
    product and wraps around. *)
Definition allocated_slots (n : Z) : nat :=
  Z.to_nat (wrap (n * size_of) / size_of).

(** [operator new(n * sizeof(T))] *)
Definition operator_new (n : Z) : Mem ptr :=
  λ s, if grants s n
       then Ok (Ptr (Some (next_block s)) 0)
               (MkStore (<[next_block s := replicate (allocated_slots n) None]>
                           (blocks s))
                        (S (next_block s)) (destroyed s))
       else Throw bad_alloc s.

(** [operator delete(buf)] *)
Definition operator_delete (buf : ptr) : Mem unit :=
  λ s, match p_blk buf with
       | None => if decide (p_off buf = 0) then Ok tt s else Fault
       | Some b =>
           match blocks s !! b with
           | Some _ =>
               if decide (p_off buf = 0)
               then Ok tt (MkStore (delete b (blocks s)) (next_block s)
                                   (destroyed s))
               else Fault
           | None => Fault
           end
       end.

Definition slot_at (s : Store) (p : ptr) : option (option T) :=
  match p_blk p with
  | Some b =>
      match blocks s !! b with
      | Some blk => if decide (0 ≤ p_off p) then blk !! Z.to_nat (p_off p) else None
      | None => None
      end
  | None => None
  end.

Definition set_slot (p : ptr) (o : option T) : Mem unit :=
  λ s, match p_blk p with
       | Some b =>
           match blocks s !! b with
           | Some blk =>
               if decide (0 ≤ p_off p < Z.of_nat (length blk))
               then Ok tt (MkStore (<[b := <[Z.to_nat (p_off p) := o]> blk]> (blocks s))
                                   (next_block s) (destroyed s))
               else Fault
           | None => Fault
           end
       | None => Fault
       end.

(** Reading the object a pointer refers to: the slot must hold a live one. *)
Definition load (p : ptr) : Mem T :=
  λ s, match slot_at s p with
       | Some (Some v) => Ok v s
       | _ => Fault
       end.

(** Placing a constructed object into a slot ([new (buf) T(...)]). *)
Definition place (p : ptr) (v : T) : Mem unit := set_slot p (Some v).

(** Overwriting a live object. *)
Definition update (p : ptr) (v : T) : Mem unit := load p ;;; set_slot p (Some v).

(** *** Construction and destruction of single objects *)

(** The arguments a constructor call forwards: a [const T&], a [T&&], or any
    other argument pack, whose constructor does not look at the store. *)
Inductive CtorArgs :=
  | ByCopy (src : ptr)
  | ByMove (src : ptr)
  | ByValue (r : option T).

(** [T(std::forward<Args>(args)...)] *)
Definition construct_from (args : CtorArgs) : Mem T :=
  match args with
  | ByCopy src => v <- load src ;; elem (copy_construct v)
  | ByMove src =>
      v <- load src ;;
      r <- elem (move_construct v) ;;
      set_slot src (Some r.2) ;;;
      ret r.1
  | ByValue r => elem r
  end.

(** [new (buf) T(std::forward<T_forward>(elem)...)] *)
Definition ConstructElement (buf : ptr) (args : CtorArgs) : Mem unit :=
  v <- construct_from args ;; place buf v.

(** The destructor of the object [v] has run. *)
Definition record_destroyed (v : T) : Mem unit :=
  λ s, Ok tt (MkStore (blocks s) (next_block s) (v :: destroyed s)).

(** [buf->~T()] *)
Definition Destroy (buf : ptr) : Mem unit :=
  v <- load buf ;; record_destroyed v ;;; set_slot buf None.

(** Copy assignment between two objects of the store: [dst = src]. *)
Definition assign_copy (dst src : ptr) : Mem unit :=
  s <- load src ;;
  d <- load dst ;;
  d' <- elem (copy_assign d s) ;;
  set_slot dst (Some d').

(** Move assignment between two objects of the store: [dst = move(src)]. *)
Definition assign_move (dst src : ptr) : Mem unit :=
  s <- load src ;;
  d <- load dst ;;
  r <- elem (move_assign d s) ;;
  set_slot src (Some r.2) ;;;
  set_slot dst (Some r.1).

(** Move assignment from a local object: [dst = move(buff)]. *)
Definition assign_move_local (dst : ptr) (buff : T) : Mem unit :=
  d <- load dst ;;
  r <- elem (move_assign d buff) ;;
  set_slot dst (Some r.1).

(** *** The algorithms of <memory> and <algorithm> the source calls *)

(** [std::destroy_n(first, n)] *)
Fixpoint destroy_loop (first : ptr) (n : nat) : Mem unit :=
  match n with
  | O => ret tt
  | S n' => Destroy first ;;; destroy_loop (ptr_add first 1) n'
  end.

Definition destroy_n (first : ptr) (n : Z) : Mem unit :=
  destroy_loop first (Z.to_nat n).

(** The common shape of [std::uninitialized_*_n]: construct [n] objects
    from [d_first + done] on; when a constructor throws, destroy the
    objects constructed so far and rethrow. *)
Fixpoint uninitialized_loop (args : Z → CtorArgs) (d_first : ptr)
    (done : Z) (n : nat) : Mem unit :=
  match n with
  | O => ret tt
  | S n' =>
      on_exception (ConstructElement (ptr_add d_first done) (args done))
                   (destroy_n d_first done) ;;;
      uninitialized_loop args d_first (done + 1) n'
  end.

(** [std::uninitialized_value_construct_n(first, n)] *)
Definition uninitialized_value_construct_n (first : ptr) (n : Z) : Mem unit :=
  uninitialized_loop (λ _, ByValue value_init) first 0 (Z.to_nat n).

(** [std::uninitialized_copy_n(first, count, d_first)] *)
Definition uninitialized_copy_n (first : ptr) (count : Z) (d_first : ptr) : Mem unit :=
  uninitialized_loop (λ i, ByCopy (ptr_add first i)) d_first 0 (Z.to_nat count).

(** [std::uninitialized_move_n(first, count, d_first)] *)
Definition uninitialized_move_n (first : ptr) (count : Z) (d_first : ptr) : Mem unit :=
  uninitialized_loop (λ i, ByMove (ptr_add first i)) d_first 0 (Z.to_nat count).

(** [std::copy_n(first, count, result)]; nothing happens for [count <= 0]. *)
Fixpoint copy_loop (first result : ptr) (n : nat) : Mem unit :=
  match n with
  | O => ret tt
  | S n' =>
      assign_copy result first ;;;
      copy_loop (ptr_add first 1) (ptr_add result 1) n'
  end.

Definition copy_n (first : ptr) (count : Z) (result : ptr) : Mem unit :=
  copy_loop first result (Z.to_nat count).

(** [std::move(first, last, d_first)]; [[first, last)] must be a range. *)
Fixpoint move_loop (first d_first : ptr) (n : nat) : Mem unit :=
  match n with
  | O => ret tt
  | S n' =>
      assign_move d_first first ;;;
      move_loop (ptr_add first 1) (ptr_add d_first 1) n'
  end.

Definition std_move (first last d_first : ptr) : Mem unit :=
  n <- of_option (ptr_distance first last) ;;
  assert (0 <=? n) ;;;
  move_loop first d_first (Z.to_nat n).

(** [std::move_backward(first, last, d_last)]: while [first != last],
    step [last] and [d_last] back and move-assign the one to the other. *)
Fixpoint move_backward_loop (last d_last : ptr) (n : nat) : Mem unit :=
  match n with
  | O => ret tt
  | S n' =>
      assign_move (ptr_add d_last (-1)) (ptr_add last (-1)) ;;;
      move_backward_loop (ptr_add last (-1)) (ptr_add d_last (-1)) n'
  end.

Definition move_backward (first last d_last : ptr) : Mem unit :=
  n <- of_option (ptr_distance first last) ;;
  assert (0 <=? n) ;;;
  move_backward_loop last d_last (Z.to_nat n).

End FreeStore.

Arguments Store T : clear implicits.
Arguments Mem T : clear implicits.
Arguments CtorArgs T : clear implicits.

(** ** RawMemory *)

Record RawMemory := MkRawMemory { buffer_ : ptr; capacity_ : Z }.

Module RawMemory.
Section Methods.

Context {T : Type} {ops : ElemOps T}.
Variable grants : Store T → Z → bool.

(** [RawMemory() = default]: [buffer_ = nullptr], [capacity_ = 0]. *)
Definition default : RawMemory := MkRawMemory nullptr 0.

Definition Allocate (n : Z) : Mem T ptr :=
  if n =? 0 then ret nullptr else operator_new grants n.

Definition Deallocate (buf : ptr) : Mem T unit := operator_delete buf.

(** [explicit RawMemory(size_t capacity)] *)
Definition sized (capacity : Z) : Mem T RawMemory :=
  buf <- Allocate capacity ;;
  ret (MkRawMemory buf capacity).

(** [~RawMemory()] *)
Definition destructor (this : RawMemory) : Mem T unit :=
  Deallocate (buffer_ this).

(** [void Swap(RawMemory& other)]: the pair is [( *this, other )] afterwards. *)
Definition Swap (this other : RawMemory) : RawMemory * RawMemory :=
  (MkRawMemory (buffer_ other) (capacity_ other),
   MkRawMemory (buffer_ this) (capacity_ this)).

(** [RawMemory(RawMemory&& other)]: the new object starts from its default
    member initialisers and swaps. *)
Definition move_constructor (other : RawMemory) : RawMemory * RawMemory :=
  Swap default other.

(** [RawMemory& operator=(RawMemory&& rhs)] *)
Definition move_assignment (this rhs : RawMemory) : RawMemory * RawMemory :=
  Swap this rhs.

(** [T* operator+(size_t offset)] *)
Definition plus {S} (this : RawMemory) (offset : Z) : Comp S ptr :=
  assert (offset <=? capacity_ this) ;;;
  ret (ptr_add (buffer_ this) offset).

(** [T& operator[](size_t index)], as the address of the element. *)
Definition subscript {S} (this : RawMemory) (index : Z) : Comp S ptr :=
  assert (index <? capacity_ this) ;;;
  ret (ptr_add (buffer_ this) index).

Definition GetAddress (this : RawMemory) : ptr := buffer_ this.

Definition Capacity (this : RawMemory) : Z := capacity_ this.

End Methods.
End RawMemory.

(** ** Vector *)

Record Vector := MkVector { data_ : RawMemory; size_ : Z }.

(** The argument of a member function taking a [Vector&]: the object the
    function is called on, or another object. *)
Inductive VectorRef := Self | Other (v : Vector).

Module Vector.
Section Methods.

Context {T : Type} {ops : ElemOps T}.
Variable grants : Store T → Z → bool.

(** A member function runs on the object [*this] and the free store. *)
Definition Meth := Comp (Vector * Store T).

Definition mem {A} (m : Mem T A) : Meth A :=
  λ st, match m st.2 with
        | Ok a s' => Ok a (st.1, s')
        | Throw e s' => Throw e (st.1, s')
        | Fault => Fault
        end.

Definition this : Meth Vector := λ st, Ok st.1 st.
Definition set_data (d : RawMemory) : Meth unit :=
  λ st, Ok tt (MkVector d (size_ st.1), st.2).
Definition set_size (n : Z) : Meth unit :=
  λ st, Ok tt (MkVector (data_ st.1) n, st.2).

(** [Vector() = default] *)
Definition default : Vector := MkVector RawMemory.default 0.

(** [explicit Vector(size_t size)]: when the body throws, the member
    [data_] is destroyed. *)
Definition sized (size : Z) : Mem T Vector :=
  data <- RawMemory.sized grants size ;;
  on_exception
    (uninitialized_value_construct_n (RawMemory.GetAddress data) size)
    (RawMemory.destructor data) ;;;
  ret (MkVector data size).

Definition Size (v : Vector) : Z := size_ v.
Definition Capacity (v : Vector) : Z := RawMemory.Capacity (data_ v).

(** [Vector(const Vector& other)] *)
Definition copy_constructor (other : Vector) : Mem T Vector :=
  data <- RawMemory.sized grants (size_ other) ;;
  on_exception
    (uninitialized_copy_n (RawMemory.GetAddress (data_ other)) (Size other)
                          (RawMemory.GetAddress data))
    (RawMemory.destructor data) ;;;
  ret (MkVector data (size_ other)).

(** [~Vector()], followed by the destructor of the member [data_]. *)
Definition destructor (v : Vector) : Mem T unit :=
  destroy_n (RawMemory.GetAddress (data_ v)) (size_ v) ;;;
  RawMemory.destructor (data_ v).

(** [void Swap(Vector& other)]: the pair is [( *this, other )] afterwards. *)
Definition Swap_objects (v other : Vector) : Vector * Vector :=
  let d := RawMemory.Swap (data_ v) (data_ other) in
  (MkVector d.1 (size_ other), MkVector d.2 (size_ v)).

(** [Swap] as a member function; it returns the new state of [other].
    Swapping an object with itself changes nothing. *)
Definition Swap (other : VectorRef) : Meth VectorRef :=
  match other with
  | Self => ret Self
  | Other o =>
      λ st, let r := Swap_objects st.1 o in Ok (Other r.2) (r.1, st.2)
  end.

(** [Vector(Vector&& other)]: the new object starts from its default member
    initialisers and swaps; the result is the new object and [other]. *)
Definition move_constructor (other : Vector) : Vector * Vector :=
  Swap_objects default other.

(** [begin()], [cbegin()] *)
Definition begin (v : Vector) : ptr := RawMemory.GetAddress (data_ v).

(** [end()], [cend()]: [data_ + size_] *)
Definition end_ {S} (v : Vector) : Comp S ptr := RawMemory.plus (data_ v) (size_ v).

(** [UninitCopyOrMove(from, count, to)] *)
Definition UninitCopyOrMove (from : ptr) (count : Z) (to : ptr) : Mem T unit :=
  if is_nothrow_move_constructible || negb is_copy_constructible
  then uninitialized_move_n from count to
  else uninitialized_copy_n from count to.

(** [static void DestroyN(T* buf, size_t n)] *)
Fixpoint DestroyN_loop (buf : ptr) (i : Z) (n : nat) : Mem T unit :=
  match n with
  | O => ret tt
  | S n' => Destroy (ptr_add buf i) ;;; DestroyN_loop buf (i + 1) n'
  end.

Definition DestroyN (buf : ptr) (n : Z) : Mem T unit :=
  DestroyN_loop buf 0 (Z.to_nat n).

(** [void Reserve(size_t new_capacity)] *)
Definition Reserve (new_capacity : Z) : Meth unit :=
  v <- this ;;
  if new_capacity <=? RawMemory.Capacity (data_ v) then ret tt
  else
    new_data <- mem (RawMemory.sized grants new_capacity) ;;
    on_exception
      (mem (UninitCopyOrMove (RawMemory.GetAddress (data_ v)) (size_ v)
                             (RawMemory.GetAddress new_data)) ;;;
       mem (destroy_n (RawMemory.GetAddress (data_ v)) (size_ v)))
      (mem (RawMemory.destructor new_data)) ;;;
    let d := RawMemory.Swap (data_ v) new_data in
    set_data d.1 ;;;
    mem (RawMemory.destructor d.2).

(** [void Resize(size_t new_size)] *)
Definition Resize (new_size : Z) : Meth unit :=
  v <- this ;;
  if RawMemory.Capacity (data_ v) <? new_size then
    Reserve new_size ;;;
    v <- this ;;
    p <- RawMemory.plus (data_ v) (size_ v) ;;
    mem (uninitialized_value_construct_n p (wrap (new_size - size_ v))) ;;;
    set_size new_size
  else
    (if new_size <? size_ v then
       p <- RawMemory.plus (data_ v) new_size ;;
       mem (destroy_n p (wrap (size_ v - new_size)))
     else ret tt) ;;;
    set_size new_size.

(** [void PopBack()] *)
Definition PopBack : Meth unit :=
  v <- this ;;
  assert (0 <? size_ v) ;;;
  p <- RawMemory.plus (data_ v) (wrap (size_ v - 1)) ;;
  mem (Destroy p) ;;;
  set_size (wrap (size_ v - 1)).

(** [iterator Emplace(const_iterator pos, Args&&... args)] *)
Definition Emplace (pos : ptr) (args : CtorArgs T) : Meth ptr :=
  v <- this ;;
  place_emplace_indent <- of_option (ptr_distance (begin v) pos) ;;
  (if (RawMemory.Capacity (data_ v) <? wrap (size_ v + 1))
      || (RawMemory.Capacity (data_ v) =? size_ v)
   then
     let new_capacity := if size_ v =? 0 then 1 else wrap (size_ v * 2) in
     mem_buff <- mem (RawMemory.sized grants new_capacity) ;;
     on_exception
       (place_emplace <- RawMemory.plus mem_buff (wrap place_emplace_indent) ;;
        prefix <- of_option (ptr_distance (begin v) pos) ;;
        mem (UninitCopyOrMove (RawMemory.GetAddress (data_ v)) (wrap prefix)
                              (RawMemory.GetAddress mem_buff)) ;;;
        mem (ConstructElement place_emplace args) ;;;
        e <- end_ v ;;
        suffix <- of_option (ptr_distance pos e) ;;
        to <- RawMemory.plus mem_buff (wrap (prefix + 1)) ;;
        mem (UninitCopyOrMove pos (wrap suffix) to) ;;;
        mem (destroy_n (RawMemory.GetAddress (data_ v)) (size_ v)))
       (mem (RawMemory.destructor mem_buff)) ;;;
     let d := RawMemory.Swap (data_ v) mem_buff in
     set_data d.1 ;;;
     set_size (wrap (size_ v + 1)) ;;;
     mem (RawMemory.destructor d.2)
   else
     place_emplace <- RawMemory.plus (data_ v) (wrap place_emplace_indent) ;;
     e <- end_ v ;;
     before_end <- of_option (ptr_lt pos e) ;;
     (if before_end : bool then
        buff <- mem (construct_from args) ;;
        slot <- RawMemory.plus (data_ v) (size_ v) ;;
        mem (ConstructElement slot (ByMove (ptr_add e (-1)))) ;;;
        mem (move_backward place_emplace (ptr_add e (-1)) e) ;;;
        mem (assign_move_local place_emplace buff)
      else
        mem (ConstructElement place_emplace args)) ;;;
     set_size (wrap (size_ v + 1))) ;;;
  v' <- this ;;
  ret (ptr_add (RawMemory.GetAddress (data_ v')) place_emplace_indent).

(** [T& EmplaceBack(Args&&... args)], as the address of the element. *)
Definition EmplaceBack (args : CtorArgs T) : Meth ptr :=
  v <- this ;;
  e <- end_ v ;;
  Emplace e args.

(** [void PushBack(const T& value)] *)
Definition PushBack (value : ptr) : Meth unit :=
  EmplaceBack (ByCopy value) ;;; ret tt.

(** [void PushBack(T&& value)] *)
Definition PushBack_move (value : ptr) : Meth unit :=
  EmplaceBack (ByMove value) ;;; ret tt.

(** [iterator Insert(const_iterator pos, const T& value)] *)
Definition Insert (pos : ptr) (value : ptr) : Meth ptr :=
  Emplace pos (ByCopy value).

(** [iterator Insert(const_iterator pos, T&& value)] *)
Definition Insert_move (pos : ptr) (value : ptr) : Meth ptr :=
  Emplace pos (ByMove value).

(** [iterator Erase(const_iterator pos)].  The [else] branch of the
    [if constexpr] is
    [std::copy_n(place_erase + 1, std::distance(pos + 1, end()), place_erase)]:
    [pos + 1] is a [const T*] and [end()], called on a non-const object, a
    [T*], and [std::distance] takes two iterators of one type, so the call
    does not compile.  A discarded branch is not instantiated, so [Erase]
    exists for the element types that select the first branch, and for no
    other. *)
Definition Erase (pos : ptr) : Meth ptr :=
  v <- this ;;
  d <- of_option (ptr_distance (begin v) pos) ;;
  let place_erase := ptr_add (begin v) d in
  (if is_nothrow_move_constructible || negb is_copy_constructible then
     e <- end_ v ;;
     mem (std_move (ptr_add place_erase 1) e place_erase)
   else
     ill_formed) ;;;
  PopBack ;;;
  ret place_erase.

(** [T& operator[](size_t index)], as the address of the element. *)
Definition subscript (index : Z) : Meth ptr :=
  v <- this ;;
  assert (index <? size_ v) ;;;
  RawMemory.subscript (data_ v) index.

(** [Vector& operator=(const Vector& rhs)] *)
Definition copy_assignment (rhs : VectorRef) : Meth unit :=
  match rhs with
  | Self => ret tt
  | Other rhs =>
      v <- this ;;
      if size_ rhs <=? Capacity v then
        mem (copy_n (begin rhs) (Z.min (size_ rhs) (size_ v)) (begin v)) ;;;
        (if size_ rhs <? size_ v then
           p <- RawMemory.plus (data_ v) (size_ rhs) ;;
           mem (destroy_n p (wrap (size_ v - size_ rhs)))
         else
           from <- RawMemory.plus (data_ rhs) (size_ v) ;;
           to <- RawMemory.plus (data_ v) (size_ v) ;;
           mem (uninitialized_copy_n from (wrap (size_ rhs - size_ v)) to)) ;;;
        set_size (size_ rhs)
      else
        rhs_copy <- mem (copy_constructor rhs) ;;
        old <- Swap (Other rhs_copy) ;;
        match old with
        | Other rhs_copy' => mem (destructor rhs_copy')
        | Self => ret tt
        end
  end.

(** [Vector& operator=(Vector&& rhs)]; it returns the new state of [rhs]. *)
Definition move_assignment (rhs : VectorRef) : Meth VectorRef :=
  Swap rhs.

End Methods.
End Vector.

(** ** Specification vocabulary *)

(** The element type has value semantics: a copy or a move that returns
    produces an object equal to its source. *)
Class LawfulElem (T : Type) {ops : ElemOps T} : Prop := {
  copy_construct_value : ∀ x y, copy_construct x = Some y → y = x;
  move_construct_value : ∀ x y r, move_construct x = Some (y, r) → y = x;
  copy_assign_value : ∀ d x d', copy_assign d x = Some d' → d' = x;
  move_assign_value : ∀ d x d' r, move_assign d x = Some (d', r) → d' = x;
  nothrow_move : is_nothrow_move_constructible = true →
                 ∀ x, is_Some (move_construct x)
}.

(** What a computation leaves behind, by outcome; undefined behaviour
    satisfies no specification. *)
Definition outcome {S A} (r : Res S A)
    (Qok : A → S → Prop) (Qthrow : exn → S → Prop) : Prop :=
  match r with
  | Ok a s => Qok a s
  | Throw e s => Qthrow e s
  | Fault => False
  end.

(** The state a computation leaves, whether it returns or throws. *)
Definition after {S A} (r : Res S A) (Q : S → Prop) : Prop :=
  match r with
  | Ok _ s | Throw _ s => Q s
  | Fault => True
  end.

Definition final_state {S A} (r : Res S A) : option S :=
  match r with
  | Ok _ s | Throw _ s => Some s
  | Fault => None
  end.

Section Vocabulary.

Context {T : Type} {ops : ElemOps T}.

Definition block_len (s : Store T) (b : nat) : option nat :=
  length <$> blocks s !! b.

(** Every allocated block was handed out by [operator_new]. *)
Definition store_ok (s : Store T) : Prop :=
  ∀ b, is_Some (blocks s !! b) → (b < next_block s)%nat.

(** [q] is one of the [n] slots starting at [p]. *)
Definition in_range (p : ptr) (n : Z) (q : ptr) : Prop :=
  p_blk q = p_blk p ∧ p_off p ≤ p_off q < p_off p + n.

Global Instance in_range_dec p n q : Decision (in_range p n q).
Proof. unfold in_range. apply _. Defined.

(** [s'] has the blocks of [s], of the same lengths. *)
Definition same_shape (s s' : Store T) : Prop :=
  next_block s' = next_block s ∧ ∀ b, block_len s' b = block_len s b.

(** [s'] differs from [s] at most in the slots that satisfy [P]. *)
Definition modifies (P : ptr → Prop) (s s' : Store T) : Prop :=
  same_shape s s' ∧ ∀ q, ¬ P q → slot_at s' q = slot_at s q.

(** [s'] is [s] with the slot at [p] set to [o]. *)
Definition updated (s : Store T) (p : ptr) (o : option T) (s' : Store T) : Prop :=
  same_shape s s' ∧
  ∀ q, slot_at s' q = if decide (q = p) then Some o else slot_at s q.

(** The slot at [q] holds a live object. *)
Definition live (s : Store T) (q : ptr) : Prop :=
  ∃ x, slot_at s q = Some (Some x).

(** [s'] has the blocks of [s], of the same lengths, and every object that
    is live in [s] is live in [s'], with whatever value. *)
Definition keeps_live (s s' : Store T) : Prop :=
  same_shape s s' ∧ ∀ q, live s q → live s' q.

(** The slots from [p] on hold live objects with the values [xs]. *)
Definition array_at (s : Store T) (p : ptr) (xs : list T) : Prop :=
  ∀ (i : nat) x, xs !! i = Some x →
    slot_at s (ptr_add p (Z.of_nat i)) = Some (Some x).

(** The values of the [n] objects from [p] on, when all of them are live. *)
Definition read_range (s : Store T) (p : ptr) (n : nat) : option (list T) :=
  mapM (λ i : nat, slot_at s (ptr_add p (Z.of_nat i)) ≫= id) (seq 0 n).

(** A [RawMemory] owns its block: the empty state, or the start of an
    allocated block of [capacity_] slots. *)
Definition owns (s : Store T) (m : RawMemory) : Prop :=
  (buffer_ m = nullptr ∧ capacity_ m = 0) ∨
  (∃ b, buffer_ m = Ptr (Some b) 0 ∧ 0 ≤ capacity_ m ∧
        block_len s b = Some (Z.to_nat (capacity_ m))).

(** The block of a [RawMemory] is there to be freed. *)
Definition freeable (s : Store T) (m : RawMemory) : Prop :=
  buffer_ m = nullptr ∨
  ∃ b, buffer_ m = Ptr (Some b) 0 ∧ is_Some (blocks s !! b).

(** The data-model invariant on the fields alone. *)
Definition size_invariant (v : Vector) : Prop :=
  0 ≤ size_ v ≤ capacity_ (data_ v) ∧ capacity_ (data_ v) < SIZE_MODULUS.

(** [v] is a well-formed container in [s] whose live elements are [xs]. *)
Record represents (s : Store T) (v : Vector) (xs : list T) : Prop := {
  rep_size : size_ v = Z.of_nat (length xs);
  rep_invariant : size_invariant v;
  rep_owns : owns s (data_ v);
  rep_elements : array_at s (buffer_ (data_ v)) xs;
  rep_store : store_ok s
}.

(** [v] is a well-formed container in [s], whatever its elements are:
    what [represents] says without the values. *)
Definition well_formed (s : Store T) (v : Vector) : Prop :=
  size_invariant v ∧ owns s (data_ v) ∧ store_ok s ∧
  ∀ k, 0 ≤ k < size_ v → live s (ptr_add (buffer_ (data_ v)) k).

(** [s'] still has every block of [s], unchanged. *)
Definition preserved (s s' : Store T) : Prop :=
  store_ok s' ∧ ∀ b, is_Some (blocks s !! b) → blocks s' !! b = blocks s !! b.

(** The content of a container, read off the store. *)
Definition contents (s : Store T) (v : Vector) : option (list T) :=
  read_range s (Vector.begin v) (Z.to_nat (size_ v)).

(** [m] changes at most the slots in [P], and neither allocates nor frees. *)
Definition writes {A} (P : ptr → Prop) (m : Mem T A) : Prop :=
  ∀ s, after (m s) (modifies P s).

(** The arguments with which [UninitCopyOrMove] constructs the [i]-th
    object: by move or by copy from the [i]-th source. *)
Definition reloc_args (by_move : bool) (src : ptr) (i : Z) : CtorArgs T :=
  if by_move then ByMove (ptr_add src i) else ByCopy (ptr_add src i).

(** The slot a constructor call moves from, when there is one. *)
Definition moved_from (args : CtorArgs T) (q : ptr) : Prop :=
  match args with ByMove p => q = p | _ => False end.

(** The object a constructor call reads, when it reads one. *)
Definition refers_to (args : CtorArgs T) (q : ptr) : Prop :=
  match args with ByCopy p | ByMove p => q = p | ByValue _ => False end.

(** The value the arguments of a constructor call denote in [s]. *)
Definition arg_value (s : Store T) (args : CtorArgs T) (x : T) : Prop :=
  match args with
  | ByCopy p | ByMove p => slot_at s p = Some (Some x)
  | ByValue r => r = Some x
  end.

(** The object the constructor call reads, if it reads one, is live. *)
Definition ready (s : Store T) (args : CtorArgs T) : Prop :=
  ∀ q, refers_to args q → live s q.

(** The arguments refer to no object, or to an object of the caller:
    allocated, and not in the block of [v]. *)
Definition outside (s : Store T) (v : Vector) (args : CtorArgs T) : Prop :=
  ∀ q, refers_to args q →
       is_Some (slot_at s q) ∧ p_blk q ≠ p_blk (buffer_ (data_ v)).

(** The call does not move from an element of [v]. *)
Definition keeps_elements (s : Store T) (v : Vector) (args : CtorArgs T) : Prop :=
  ∀ q, moved_from args q →
       is_Some (slot_at s q) ∧ p_blk q ≠ p_blk (buffer_ (data_ v)).

(** Move-if-safe-else-copy: whether elements are relocated by move. *)
Definition relocates_by_move : bool :=
  is_nothrow_move_constructible || negb is_copy_constructible.

(** *** The public operations, as data *)

Variable grants : Store T → Z → bool.

Inductive Call :=
  | CallCopyAssign (rhs : VectorRef)
  | CallMoveAssign (rhs : VectorRef)
  | CallSwap (other : VectorRef)
  | CallReserve (new_capacity : Z)
  | CallResize (new_size : Z)
  | CallEmplace (pos : ptr) (args : CtorArgs T)
  | CallEmplaceBack (args : CtorArgs T)
  | CallPushBack (value : ptr)
  | CallPushBackMove (value : ptr)
  | CallInsert (pos value : ptr)
  | CallInsertMove (pos value : ptr)
  | CallErase (pos : ptr)
  | CallPopBack.

Definition run_call (c : Call) : Vector.Meth unit :=
  match c with
  | CallCopyAssign rhs => Vector.copy_assignment grants rhs
  | CallMoveAssign rhs => Vector.move_assignment rhs ;;; ret tt
  | CallSwap other => Vector.Swap other ;;; ret tt
  | CallReserve n => Vector.Reserve grants n
  | CallResize n => Vector.Resize grants n
  | CallEmplace pos args => Vector.Emplace grants pos args ;;; ret tt
  | CallEmplaceBack args => Vector.EmplaceBack grants args ;;; ret tt
  | CallPushBack value => Vector.PushBack grants value
  | CallPushBackMove value => Vector.PushBack_move grants value
  | CallInsert pos value => Vector.Insert grants pos value ;;; ret tt
  | CallInsertMove pos value => Vector.Insert_move grants pos value ;;; ret tt
  | CallErase pos => Vector.Erase pos ;;; ret tt
  | CallPopBack => Vector.PopBack
  end.

Fixpoint run_calls (cs : list Call) : Vector.Meth unit :=
  match cs with
  | [] => ret tt
  | c :: cs' => run_call c ;;; run_calls cs'
  end.

(** A [size_t] argument is a [size_t]. *)
Definition is_size_t (n : Z) : Prop := 0 ≤ n < SIZE_MODULUS.

(** The containers the public operations produce: the results of the
    constructors, and the state any member function leaves its object and
    its [Vector&] argument in, whether it returns or throws. *)
Inductive produced : Vector → Prop :=
  | produced_default : produced Vector.default
  | produced_sized n s v s' :
      is_size_t n → Vector.sized grants n s = Ok v s' → produced v
  | produced_copy other s v s' :
      produced other → Vector.copy_constructor grants other s = Ok v s' →
      produced v
  | produced_move other :
      produced other → produced (Vector.move_constructor other).1
  | produced_moved_from other :
      produced other → produced (Vector.move_constructor other).2
  | produced_call c v s v' s' :
      produced v → call_args_produced c →
      final_state (run_call c (v, s)) = Some (v', s') → produced v'
  | produced_swapped other v s other' (st' : Vector * Store T) :
      produced v → produced other →
      Vector.Swap (Other other) (v, s) = Ok (Other other') st' →
      produced other'
with call_args_produced : Call → Prop :=
  | args_copy_assign_self : call_args_produced (CallCopyAssign Self)
  | args_copy_assign rhs : produced rhs → call_args_produced (CallCopyAssign (Other rhs))
  | args_move_assign_self : call_args_produced (CallMoveAssign Self)
  | args_move_assign rhs : produced rhs → call_args_produced (CallMoveAssign (Other rhs))
  | args_swap_self : call_args_produced (CallSwap Self)
  | args_swap other : produced other → call_args_produced (CallSwap (Other other))
  | args_reserve n : is_size_t n → call_args_produced (CallReserve n)
  | args_resize n : is_size_t n → call_args_produced (CallResize n)
  | args_emplace pos args : call_args_produced (CallEmplace pos args)
  | args_emplace_back args : call_args_produced (CallEmplaceBack args)
  | args_push_back value : call_args_produced (CallPushBack value)
  | args_push_back_move value : call_args_produced (CallPushBackMove value)
  | args_insert pos value : call_args_produced (CallInsert pos value)
  | args_insert_move pos value : call_args_produced (CallInsertMove pos value)
  | args_erase pos : call_args_produced (CallErase pos)
  | args_pop_back : call_args_produced CallPopBack.

Scheme produced_mutual := Minimality for produced Sort Prop
  with call_args_produced_mutual := Minimality for call_args_produced Sort Prop.

(** [c] is a [PushBack] of the object at [p]. *)
Definition pushes_object (c : Call) (p : ptr) : Prop :=
  c = CallPushBack p ∨ c = CallPushBackMove p.

(** [cs] is a sequence of [PushBack] calls on objects of the caller which,
    in [s], hold the values [xs]; an object that a call moves from is not
    pushed again. *)
Inductive pushes (s : Store T) : list Call → list T → Prop :=
  | pushes_nil : pushes s [] []
  | pushes_copy p x cs xs :
      slot_at s p = Some (Some x) → pushes s cs xs →
      pushes s (CallPushBack p :: cs) (x :: xs)
  | pushes_move p x cs xs :
      slot_at s p = Some (Some x) →
      Forall (λ c, ¬ pushes_object c p) cs →
      pushes s cs xs →
      pushes s (CallPushBackMove p :: cs) (x :: xs).

(** What the invariant needs of the arguments of a call. *)
Definition call_args_invariant (c : Call) : Prop :=
  match c with
  | CallCopyAssign (Other o) | CallMoveAssign (Other o) | CallSwap (Other o) =>
      size_invariant o
  | CallReserve n | CallResize n => is_size_t n
  | _ => True
  end.

(** The calls that only add elements or capacity. *)
Definition growing (c : Call) : Prop :=
  match c with
  | CallPushBack _ | CallPushBackMove _ => True
  | CallReserve n | CallResize n => is_size_t n
  | _ => False
  end.

(** The calls that append one element. *)
Definition is_push (c : Call) : Prop :=
  match c with
  | CallPushBack _ | CallPushBackMove _ => True
  | _ => False
  end.

(** Geometric growth: the capacity is zero with no element, or a power of
    two that is less than twice the size. *)
Definition geometric (v : Vector) : Prop :=
  (size_ v = 0 ∧ capacity_ (data_ v) = 0) ∨
  (∃ k : nat, capacity_ (data_ v) = 2 ^ Z.of_nat k ∧
              size_ v ≤ capacity_ (data_ v) < 2 * size_ v).

End Vocabulary.

Arguments Call T : clear implicits.

(** ** Concrete element types and allocators *)

(** [int]-like elements: nothing throws, a move leaves its source as it
    was. *)
Definition int_ops : ElemOps Z := {|
  value_init := Some 0;
  copy_construct x := Some x;
  move_construct x := Some (x, x);
  copy_assign _ x := Some x;
  move_assign _ x := Some (x, x);
  is_nothrow_move_constructible := true;
  is_copy_constructible := true;
  size_of := 4;
  size_of_range := conj eq_refl eq_refl
|}.

(** Elements whose copy (and move) constructor throws on the value 13;
    the move constructor is not [noexcept]. *)
Definition fragile_ops : ElemOps Z := {|
  value_init := Some 0;
  copy_construct x := if x =? 13 then None else Some x;
  move_construct x := if x =? 13 then None else Some (x, x);
  copy_assign _ x := Some x;
  move_assign _ x := Some (x, x);
  is_nothrow_move_constructible := false;
  is_copy_constructible := true;
  size_of := 4;
  size_of_range := conj eq_refl eq_refl
|}.

(** [std::string]-like elements: nothing throws, and a move leaves its
    source empty (here 0). *)
Definition string_like_ops : ElemOps Z := {|
  value_init := Some 0;
  copy_construct x := Some x;
  move_construct x := Some (x, 0);
  copy_assign _ x := Some x;
  move_assign _ x := Some (x, 0);
  is_nothrow_move_constructible := true;
  is_copy_constructible := true;
  size_of := 32;
  size_of_range := conj eq_refl eq_refl
|}.

(** An allocator that grants every request. *)
Definition always_grants {T} : Store T → Z → bool := λ _ _, true.

(** An allocator that refuses every request. *)
Definition never_grants {T} : Store T → Z → bool := λ _ _, false.

(** A store whose only block holds the caller's objects [xs]. *)
Definition caller_store {T} (xs : list T) : Store T :=
  MkStore {[ 0%nat := Some <$> xs ]} 1 [].

(** The caller's [i]-th object. *)
Definition caller_object (i : Z) : ptr := Ptr (Some 0%nat) i.

(** *** Containers and runs used as examples *)

(** The container [[1; 2; 3]] of capacity 4 in block 1, next to the
    caller's object 99 in block 0. *)
Definition example_vector : Vector :=
  MkVector (MkRawMemory (Ptr (Some 1%nat) 0) 4) 3.

Definition example_store : Store Z :=
  MkStore {[ 0%nat := [Some 99]; 1%nat := [Some 1; Some 2; Some 3; None] ]} 2 [].

(** The container [[99]] of capacity 4. *)
Definition vector_99 : Vector :=
  MkVector (MkRawMemory (Ptr (Some 1%nat) 0) 4) 1.

Definition store_99 : Store Z :=
  MkStore {[ 1%nat := [Some 99; None; None; None] ]} 2 [].

(** A second container, [[7; 8]] of capacity 2 in block 2, next to the
    container [[1; 2; 3]] of block 1 and the caller's object 99. *)
Definition other_vector : Vector :=
  MkVector (MkRawMemory (Ptr (Some 2%nat) 0) 2) 2.

Definition two_vectors_store : Store Z :=
  MkStore {[ 0%nat := [Some 99];
             1%nat := [Some 1; Some 2; Some 3; None];
             2%nat := [Some 7; Some 8] ]} 3 [].

(** A full container [[1; 13]] whose second element cannot be copied, and
    the caller's objects 5 and 13. *)
Definition fragile_vector : Vector :=
  MkVector (MkRawMemory (Ptr (Some 1%nat) 0) 2) 2.

Definition fragile_store : Store Z :=
  MkStore {[ 0%nat := [Some 5; Some 13]; 1%nat := [Some 1; Some 13] ]} 2 [].

(** Steps 1 to 5 of the scenario on integers: [PushBack] of 1, 2 and 3,
    [Reserve(10)], [Insert] of 99 before the second element, [Erase] of the
    first element, [Resize(1)].  The caller's objects are the four slots of
    block 0. *)
Definition scenario_steps_1_to_5 : Vector.Meth unit :=
  let _ : ElemOps Z := int_ops in
  (Vector.PushBack always_grants (caller_object 0) ;;;
   Vector.PushBack always_grants (caller_object 1) ;;;
   Vector.PushBack always_grants (caller_object 2) ;;;
   Vector.Reserve always_grants 10 ;;;
   v <- Vector.this ;;
   Vector.Insert always_grants (ptr_add (Vector.begin v) 1) (caller_object 3) ;;;
   v <- Vector.this ;;
   Vector.Erase (Vector.begin v) ;;;
   Vector.Resize always_grants 1)%comp.

(** * Proofs *)

(** ** size_t arithmetic *)

Lemma SIZE_MODULUS_eq : SIZE_MODULUS = 18446744073709551616.
Proof. reflexivity. Qed.

Lemma wrap_small x : 0 ≤ x < SIZE_MODULUS → wrap x = x.
Proof. intros Hx. unfold wrap. apply Z.mod_small. exact Hx. Qed.

Lemma wrap_range x : 0 ≤ wrap x < SIZE_MODULUS.
Proof. unfold wrap. apply Z.mod_pos_bound. reflexivity. Qed.

Lemma wrap_eq x : ∃ k, wrap x = x - k * SIZE_MODULUS.
Proof.
  exists (x / SIZE_MODULUS). unfold wrap.
  pose proof (Z.div_mod x SIZE_MODULUS) as Hd.
  rewrite SIZE_MODULUS_eq in *. lia.
Qed.

Global Opaque SIZE_MODULUS.

(** ** Running computations *)

Section Monad.

Context {S : Type}.

Lemma bind_Ok {A B} (m : Comp S A) (k : A → Comp S B) s b s' :
  bind m k s = Ok b s' ↔ ∃ a s1, m s = Ok a s1 ∧ k a s1 = Ok b s'.
Proof.
  unfold bind. split.
  - destruct (m s) as [a s1| |]; [eauto | discriminate..].
  - intros (a & s1 & -> & Hk). exact Hk.
Qed.

Lemma bind_Throw {A B} (m : Comp S A) (k : A → Comp S B) s e s' :
  bind m k s = Throw e s' ↔
  m s = Throw e s' ∨ ∃ a s1, m s = Ok a s1 ∧ k a s1 = Throw e s'.
Proof.
  unfold bind. split.
  - destruct (m s) as [a s1|e1 s1|]; [eauto | | discriminate].
    intros [= -> ->]. by left.
  - intros [-> | (a & s1 & -> & Hk)]; done.
Qed.

Lemma on_exception_Ok {A} (m : Comp S A) h s a s' :
  on_exception m h s = Ok a s' ↔ m s = Ok a s'.
Proof.
  unfold on_exception. destruct (m s) as [a1 s1|e1 s1|]; [done | | done].
  destruct (h s1); split; discriminate.
Qed.

Lemma on_exception_Throw {A} (m : Comp S A) h s e s' :
  on_exception m h s = Throw e s' ↔
  ∃ e1 s1, m s = Throw e1 s1 ∧
    (h s1 = Ok tt s' ∧ e = e1 ∨ h s1 = Throw e s').
Proof.
  unfold on_exception. split.
  - destruct (m s) as [a1 s1|e1 s1|]; [discriminate | | discriminate].
    destruct (h s1) as [[] s2|e2 s2|] eqn:Hh; [| | discriminate].
    + intros [= -> ->]. eauto 6.
    + intros [= -> ->]. eauto 6.
  - intros (e1 & s1 & -> & [[-> ->] | ->]); done.
Qed.

Lemma assert_Ok (b : bool) (s s' : S) u :
  assert b s = Ok u s' ↔ b = true ∧ s' = s.
Proof.
  unfold assert, ret, fault. destruct b, u; split;
    [intros [= <-]; done | intros [_ ->]; done | discriminate | intros [? _]; done].
Qed.

Lemma assert_Throw (b : bool) (s s' : S) e : assert b s = Throw e s' → False.
Proof. unfold assert, ret, fault. by destruct b. Qed.

Lemma of_option_Ok {A} (o : option A) (s s' : S) a :
  of_option o s = Ok a s' ↔ o = Some a ∧ s' = s.
Proof.
  unfold of_option, ret, fault. destruct o; split;
    [intros [= <- <-]; done | intros [[= ->] ->]; done | discriminate | intros [? _]; done].
Qed.

Lemma of_option_Throw {A} (o : option A) (s s' : S) e :
  of_option o s = Throw e s' → False.
Proof. unfold of_option, ret, fault. by destruct o. Qed.

Lemma ret_Ok {A} (a a' : A) (s s' : S) : ret a s = Ok a' s' ↔ a' = a ∧ s' = s.
Proof. unfold ret. split; [intros [= <- <-]; done | intros [-> ->]; done]. Qed.

Lemma ret_Throw {A} (a : A) (s s' : S) e : ret a s = Throw e s' → False.
Proof. discriminate. Qed.

Lemma elem_Ok {A} (o : option A) (s s' : S) a :
  elem o s = Ok a s' ↔ o = Some a ∧ s' = s.
Proof.
  unfold elem, ret, throw. destruct o; split;
    [intros [= <- <-]; done | intros [[= ->] ->]; done | discriminate | intros [? _]; done].
Qed.

Lemma elem_Throw {A} (o : option A) (s s' : S) e :
  elem o s = Throw e s' ↔ o = None ∧ e = element_exception ∧ s' = s.
Proof.
  unfold elem, ret, throw. destruct o; split;
    [discriminate | intros [? _]; done | intros [= <- <-]; done | intros (_ & -> & ->); done].
Qed.

End Monad.

(** ** Member functions: what happens to [*this] *)

Section MethodSteps.

Context {T : Type} {ops : ElemOps T}.

Lemma mem_Ok {A} (m : Mem T A) st a st' :
  Vector.mem m st = Ok a st' ↔ ∃ s', m st.2 = Ok a s' ∧ st' = (st.1, s').
Proof.
  unfold Vector.mem. destruct (m st.2) as [a1 s1|e1 s1|]; split.
  - intros [= <- <-]. eauto.
  - intros (s' & [= <- <-] & ->). done.
  - discriminate.
  - intros (s' & [=] & _).
  - discriminate.
  - intros (s' & [=] & _).
Qed.

Lemma mem_Throw {A} (m : Mem T A) st e st' :
  Vector.mem m st = Throw e st' ↔ ∃ s', m st.2 = Throw e s' ∧ st' = (st.1, s').
Proof.
  unfold Vector.mem. destruct (m st.2) as [a1 s1|e1 s1|]; split.
  - discriminate.
  - intros (s' & [=] & _).
  - intros [= <- <-]. eauto.
  - intros (s' & [= <- <-] & ->). done.
  - discriminate.
  - intros (s' & [=] & _).
Qed.

Lemma this_Ok (st st' : Vector * Store T) v :
  Vector.this st = Ok v st' ↔ v = st.1 ∧ st' = st.
Proof. unfold Vector.this. split; [intros [= <- <-]; done | intros [-> ->]; done]. Qed.

Lemma set_data_Ok d (st st' : Vector * Store T) u :
  Vector.set_data d st = Ok u st' ↔ st' = (MkVector d (size_ st.1), st.2).
Proof. unfold Vector.set_data. destruct u. split; [intros [= <-]; done | intros ->; done]. Qed.

Lemma set_size_Ok n (st st' : Vector * Store T) u :
  Vector.set_size n st = Ok u st' ↔ st' = (MkVector (data_ st.1) n, st.2).
Proof. unfold Vector.set_size. destruct u. split; [intros [= <-]; done | intros ->; done]. Qed.

Lemma plus_Ok {S} (m : RawMemory) offset (s s' : S) p :
  RawMemory.plus m offset s = Ok p s' ↔
  offset ≤ capacity_ m ∧ p = ptr_add (buffer_ m) offset ∧ s' = s.
Proof.
  unfold RawMemory.plus. rewrite bind_Ok. split.
  - intros (u & s1 & Ha%assert_Ok & Hr%ret_Ok). destruct Ha as [Ha ->].
    destruct Hr as [-> ->]. apply Z.leb_le in Ha. done.
  - intros (Hle & -> & ->). exists tt, s. split; [|done].
    apply assert_Ok. split; [by apply Z.leb_le | done].
Qed.

Lemma plus_Throw {S} (m : RawMemory) offset (s s' : S) e :
  RawMemory.plus m offset s = Throw e s' → False.
Proof.
  unfold RawMemory.plus. rewrite bind_Throw.
  intros [H | (u & s1 & _ & H)]; [by apply assert_Throw in H | by apply ret_Throw in H].
Qed.

End MethodSteps.


(** ** The free store *)

Section StoreFacts.

Context {T : Type} {ops : ElemOps T}.
Implicit Types (s : Store T) (p q : ptr) (o : option T).

Lemma ptr_add_0 p : ptr_add p 0 = p.
Proof. destruct p as [b off]. unfold ptr_add. simpl. f_equal. lia. Qed.

Lemma ptr_add_add p a b : ptr_add (ptr_add p a) b = ptr_add p (a + b).
Proof. unfold ptr_add. simpl. f_equal. lia. Qed.

Lemma block_len_Some s b n :
  block_len s b = Some n ↔ ∃ D, blocks s !! b = Some D ∧ length D = n.
Proof.
  unfold block_len. destruct (blocks s !! b) as [D|]; simpl; split.
  - intros [= <-]. eauto.
  - intros (D' & [= <-] & <-). done.
  - discriminate.
  - intros (D' & [=] & _).
Qed.

Lemma block_len_is_Some s b : is_Some (block_len s b) ↔ is_Some (blocks s !! b).
Proof. unfold block_len. by rewrite fmap_is_Some. Qed.

Lemma slot_at_is_Some s p :
  is_Some (slot_at s p) ↔
  ∃ b n, p_blk p = Some b ∧ block_len s b = Some n ∧ 0 ≤ p_off p < Z.of_nat n.
Proof.
  unfold slot_at. destruct p as [[b|] off]; simpl.
  - split.
    + destruct (blocks s !! b) as [D|] eqn:E; [| intros [? [=]]].
      case_decide as Hoff; [| intros [? [=]]].
      intros Hlt%lookup_lt_is_Some. exists b, (length D).
      unfold block_len. rewrite E. simpl. repeat split; try done; lia.
    + intros (b' & n & [= <-] & (D & -> & <-)%block_len_Some & Hn).
      rewrite decide_True by lia. apply lookup_lt_is_Some. lia.
  - split; [intros [? [=]] | intros (b' & n & [=] & _)].
Qed.

Lemma slot_at_same_block s s' q b :
  p_blk q = Some b → blocks s' !! b = blocks s !! b → slot_at s' q = slot_at s q.
Proof. unfold slot_at. intros -> ->. done. Qed.

Lemma same_shape_refl s : same_shape s s.
Proof. by split. Qed.

Lemma same_shape_trans s1 s2 s3 :
  same_shape s1 s2 → same_shape s2 s3 → same_shape s1 s3.
Proof.
  intros [Hn1 Hb1] [Hn2 Hb2]. split; [congruence |].
  intros b. by rewrite Hb2, Hb1.
Qed.

Lemma same_shape_store_ok s s' : same_shape s s' → store_ok s → store_ok s'.
Proof.
  intros [Hn Hb] Hok b Hsome. rewrite Hn. apply Hok.
  apply block_len_is_Some. rewrite <- Hb. by apply block_len_is_Some.
Qed.

Lemma same_shape_in_bounds s s' q :
  same_shape s s' → is_Some (slot_at s q) ↔ is_Some (slot_at s' q).
Proof.
  intros [_ Hb]. rewrite !slot_at_is_Some. by setoid_rewrite Hb.
Qed.

Lemma modifies_refl P s : modifies P s s.
Proof. split; [apply same_shape_refl | done]. Qed.

Lemma modifies_trans P s1 s2 s3 :
  modifies P s1 s2 → modifies P s2 s3 → modifies P s1 s3.
Proof.
  intros [Hs1 Hf1] [Hs2 Hf2]. split; [by eapply same_shape_trans |].
  intros q Hq. rewrite Hf2, Hf1; done.
Qed.

Lemma modifies_mono (P P' : ptr → Prop) s s' :
  (∀ q, P q → P' q) → modifies P s s' → modifies P' s s'.
Proof. intros HP [Hs Hf]. split; [done |]. intros q Hq. apply Hf. eauto. Qed.

(** A block none of whose slots may change is unchanged. *)
Lemma modifies_block (P : ptr → Prop) s s' b :
  modifies P s s' → (∀ q, P q → p_blk q ≠ Some b) →
  blocks s' !! b = blocks s !! b.
Proof.
  intros [[_ Hlen] Hf] HP. specialize (Hlen b). unfold block_len in Hlen.
  destruct (blocks s' !! b) as [D'|] eqn:E', (blocks s !! b) as [D|] eqn:E;
    simpl in Hlen; try discriminate; [| done].
  f_equal. apply list_eq. intros i.
  specialize (Hf (Ptr (Some b) (Z.of_nat i))).
  unfold slot_at in Hf. simpl in Hf. rewrite E, E' in Hf.
  destruct (decide (0 ≤ Z.of_nat i)); [| lia]. rewrite Nat2Z.id in Hf.
  apply Hf. intros HPq. by apply HP in HPq.
Qed.

Lemma load_Ok p s v s' :
  load p s = Ok v s' ↔ slot_at s p = Some (Some v) ∧ s' = s.
Proof.
  unfold load. destruct (slot_at s p) as [[x|]|]; split;
    try discriminate; try (intros [[=] _]; fail).
  - intros [= <- <-]. done.
  - intros [[= <-] ->]. done.
Qed.

Lemma load_Throw p s e s' : load p s = Throw e s' → False.
Proof. unfold load. by destruct (slot_at s p) as [[x|]|]. Qed.

Lemma set_slot_Throw p o s e s' : set_slot p o s = Throw e s' → False.
Proof.
  unfold set_slot. destruct (p_blk p); [| done].
  destruct (blocks s !! n); [| done]. by case_decide.
Qed.

Lemma set_slot_Ok p o s u s' :
  set_slot p o s = Ok u s' →
  is_Some (slot_at s p) ∧ same_shape s s' ∧
  ∀ q, slot_at s' q = if decide (q = p) then Some o else slot_at s q.
Proof.
  unfold set_slot. destruct p as [[b|] off]; simpl; [| done].
  destruct (blocks s !! b) as [D|] eqn:E; [| done].
  case_decide as Hoff; [| done]. intros [= <- <-]. split; [| split].
  - apply slot_at_is_Some. exists b, (length D). simpl.
    unfold block_len. rewrite E. done.
  - split; [done |]. intros b'. unfold block_len. simpl.
    destruct (decide (b = b')) as [<- | Hne].
    + rewrite lookup_insert_eq, E. simpl. by rewrite length_insert.
    + by rewrite lookup_insert_ne.
  - intros [bq offq]. unfold slot_at. simpl. destruct bq as [bq|].
    + destruct (decide (b = bq)) as [<- | Hne].
      * rewrite lookup_insert_eq, E. case_decide as Hq.
        -- destruct (decide (offq = off)) as [-> | Hneq].
           ++ rewrite decide_True by done.
              apply list_lookup_insert_eq. lia.
           ++ rewrite decide_False by congruence.
              apply list_lookup_insert_ne. lia.
        -- rewrite decide_False; [done |]. intros [= ->]. lia.
      * rewrite lookup_insert_ne by done.
        rewrite decide_False; [done |]. congruence.
    + rewrite decide_False; [done |]. congruence.
Qed.

Lemma set_slot_modifies p o s u s' :
  set_slot p o s = Ok u s' → modifies (λ q, q = p) s s'.
Proof.
  intros (_ & Hs & Hq)%set_slot_Ok. split; [done |].
  intros q Hne. rewrite Hq. by rewrite decide_False.
Qed.

Lemma operator_new_Ok grants n s p s' :
  operator_new grants n s = Ok p s' →
  p = Ptr (Some (next_block s)) 0 ∧
  next_block s' = S (next_block s) ∧
  blocks s' = <[next_block s := replicate (allocated_slots n) None]> (blocks s).
Proof. unfold operator_new. destruct (grants s n); [| done]. intros [= <- <-]. done. Qed.

(** The block [operator new] returns has at most the slots asked for, and
    all of them exactly when the byte count does not wrap around. *)
Lemma allocated_slots_le n : 0 ≤ n → Z.of_nat (allocated_slots n) ≤ n.
Proof.
  intros Hn. unfold allocated_slots. pose proof size_of_range as [Hz _].
  destruct (wrap_eq (n * size_of)) as [k Hk].
  pose proof (wrap_range (n * size_of)) as Hw.
  pose proof SIZE_MODULUS_eq as HM.
  assert (0 ≤ k) by nia.
  rewrite Z2Nat.id by (apply Z.div_pos; lia).
  apply Z.div_le_upper_bound; [lia |]. nia.
Qed.

Lemma allocated_slots_exact n :
  0 ≤ n → n * size_of < SIZE_MODULUS → allocated_slots n = Z.to_nat n.
Proof.
  intros Hn Hfit. unfold allocated_slots. pose proof size_of_range as [Hz _].
  rewrite wrap_small by nia. by rewrite Z.div_mul by lia.
Qed.

Lemma allocated_slots_full n :
  0 ≤ n → n ≤ Z.of_nat (allocated_slots n) → n * size_of < SIZE_MODULUS.
Proof.
  intros Hn Hfull. unfold allocated_slots in Hfull.
  pose proof size_of_range as [Hz _].
  destruct (wrap_eq (n * size_of)) as [k Hk].
  pose proof (wrap_range (n * size_of)) as Hw.
  pose proof SIZE_MODULUS_eq as HM.
  assert (0 ≤ k) by nia.
  rewrite Z2Nat.id in Hfull by (apply Z.div_pos; lia).
  assert (n * size_of ≤ wrap (n * size_of)) as Hge.
  { pose proof (Z.mul_div_le (wrap (n * size_of)) size_of Hz). nia. }
  nia.
Qed.

(** A block asked for twice the size that holds one slot more than the
    size holds all the slots asked for. *)
Lemma allocated_slots_double n :
  0 < n → n < Z.of_nat (allocated_slots (2 * n)) →
  2 * n * size_of < SIZE_MODULUS.
Proof.
  intros Hn Hmore. unfold allocated_slots in Hmore.
  pose proof size_of_range as [Hz _].
  destruct (wrap_eq (2 * n * size_of)) as [k Hk].
  pose proof (wrap_range (2 * n * size_of)) as Hw.
  pose proof SIZE_MODULUS_eq as HM.
  assert (0 ≤ k) by nia.
  rewrite Z2Nat.id in Hmore by (apply Z.div_pos; lia).
  assert ((n + 1) * size_of ≤ wrap (2 * n * size_of)) as Hge.
  { pose proof (Z.mul_div_le (wrap (2 * n * size_of)) size_of Hz). nia. }
  destruct (decide (k = 0)) as [-> | Hk0]; [lia |].
  assert (1 ≤ k) by lia. nia.
Qed.

Lemma record_destroyed_Ok (v : T) s u s' :
  record_destroyed v s = Ok u s' →
  destroyed s' = v :: destroyed s ∧ same_shape s s' ∧
  ∀ q, slot_at s' q = slot_at s q.
Proof. intros [= _ <-]. split; [done |]. split; [by split | done]. Qed.

Lemma record_destroyed_Throw (v : T) s e s' :
  record_destroyed v s = Throw e s' → False.
Proof. discriminate. Qed.

Lemma operator_new_destroyed grants n s p s' :
  operator_new grants n s = Ok p s' → destroyed s' = destroyed s.
Proof. unfold operator_new. destruct (grants s n); [| done]. by intros [= <- <-]. Qed.

Lemma operator_new_Throw grants n s e s' :
  operator_new grants n s = Throw e s' → e = bad_alloc ∧ s' = s ∧ grants s n = false.
Proof. unfold operator_new. destruct (grants s n); [done |]. intros [= <- <-]. done. Qed.

Lemma operator_delete_Ok p s u s' :
  operator_delete p s = Ok u s' →
  (p = nullptr ∧ s' = s) ∨
  (∃ b, p = Ptr (Some b) 0 ∧ is_Some (blocks s !! b) ∧
        s' = MkStore (delete b (blocks s)) (next_block s) (destroyed s)).
Proof.
  unfold operator_delete. destruct p as [[b|] off]; simpl.
  - destruct (blocks s !! b) eqn:E; [| done]. case_decide as Hoff; [| done].
    intros [= <-]. right. exists b. subst off. rewrite E. eauto.
  - case_decide as Hoff; [| done]. intros [= <-]. left. by subst off.
Qed.

Lemma operator_delete_Throw p s e s' : operator_delete p s = Throw e s' → False.
Proof.
  unfold operator_delete. destruct (p_blk p).
  - destruct (blocks s !! n); [| done]. by case_decide.
  - by case_decide.
Qed.

End StoreFacts.

(** ** Frames: which slots a computation may change *)

Section Frames.

Context {T : Type} {ops : ElemOps T}.
Implicit Types (s : Store T) (p q : ptr) (P : ptr → Prop).

Lemma writes_Ok {A} P (m : Mem T A) s a s' :
  writes (T:=T) P m → m s = Ok a s' → modifies P s s'.
Proof. intros Hw Hm. specialize (Hw s). by rewrite Hm in Hw. Qed.

Lemma writes_Throw {A} P (m : Mem T A) s e s' :
  writes (T:=T) P m → m s = Throw e s' → modifies P s s'.
Proof. intros Hw Hm. specialize (Hw s). by rewrite Hm in Hw. Qed.

Lemma writes_ret {A} P (a : A) : writes (T:=T) P (ret a).
Proof. intros s. apply modifies_refl. Qed.

Lemma writes_bind {A B} P (m : Mem T A) (k : A → Mem T B) :
  writes (T:=T) P m → (∀ a, writes (T:=T) P (k a)) → writes (T:=T) P (bind m k).
Proof.
  intros Hm Hk s. unfold bind. specialize (Hm s).
  destruct (m s) as [a s1|e s1|]; simpl in *; [| done..].
  specialize (Hk a s1). destruct (k a s1); simpl in *;
    [by eapply modifies_trans.. | done].
Qed.

Lemma writes_on_exception {A} P (m : Mem T A) h :
  writes (T:=T) P m → writes (T:=T) P h → writes (T:=T) P (on_exception m h).
Proof.
  intros Hm Hh s. unfold on_exception. specialize (Hm s).
  destruct (m s) as [a s1|e s1|]; simpl in *; [done | | done].
  specialize (Hh s1). destruct (h s1); simpl in *;
    [by eapply modifies_trans.. | done].
Qed.

Lemma writes_load P p : writes (T:=T) P (load p).
Proof.
  intros s. unfold load.
  destruct (slot_at s p) as [[x|]|]; simpl; by try apply modifies_refl.
Qed.

Lemma writes_elem {A} P (o : option A) : writes (T:=T) P (elem o).
Proof. intros s. destruct o; simpl; apply modifies_refl. Qed.

Lemma writes_set_slot P p o : P p → writes (T:=T) P (set_slot p o).
Proof.
  intros HP s. destruct (set_slot p o s) as [[] s'|e s'|] eqn:E; simpl; [| | done].
  - eapply modifies_mono; [| by eapply set_slot_modifies]. by intros q ->.
  - by apply set_slot_Throw in E.
Qed.

Lemma writes_construct_from P args :
  (∀ q, moved_from args q → P q) → writes (T:=T) P (construct_from args).
Proof.
  intros HP. destruct args as [p|p|r]; simpl.
  - apply writes_bind; [apply writes_load | intros; apply writes_elem].
  - apply writes_bind; [apply writes_load | intros v].
    apply writes_bind; [apply writes_elem | intros r].
    apply writes_bind; [apply writes_set_slot; by apply HP | intros; apply writes_ret].
  - apply writes_elem.
Qed.

Lemma writes_ConstructElement P buf args :
  P buf → (∀ q, moved_from args q → P q) → writes (T:=T) P (ConstructElement buf args).
Proof.
  intros Hb Ha. apply writes_bind; [by apply writes_construct_from |].
  intros v. by apply writes_set_slot.
Qed.

Lemma writes_record_destroyed P (v : T) : writes (T:=T) P (record_destroyed v).
Proof. intros s. simpl. split; [by split | done]. Qed.

Lemma writes_Destroy P buf : P buf → writes (T:=T) P (Destroy buf).
Proof.
  intros Hb. apply writes_bind; [apply writes_load | intros v].
  apply writes_bind; [apply writes_record_destroyed | intros; by apply writes_set_slot].
Qed.

Lemma writes_destroy_loop P p n :
  (∀ k, 0 ≤ k < Z.of_nat n → P (ptr_add p k)) → writes (T:=T) P (destroy_loop p n).
Proof.
  revert p. induction n as [| n IH]; intros p HP; simpl; [apply writes_ret |].
  apply writes_bind.
  - apply writes_Destroy. rewrite <- (ptr_add_0 p). apply HP. lia.
  - intros _. apply IH. intros k Hk. rewrite ptr_add_add. apply HP. lia.
Qed.

Lemma writes_destroy_n P p n :
  (∀ k, 0 ≤ k < n → P (ptr_add p k)) → writes (T:=T) P (destroy_n p n).
Proof. intros HP. apply writes_destroy_loop. intros k Hk. apply HP. lia. Qed.

Lemma writes_uninitialized_loop P args d_first done n :
  0 ≤ done →
  (∀ k, 0 ≤ k < done + Z.of_nat n → P (ptr_add d_first k)) →
  (∀ k q, done ≤ k < done + Z.of_nat n → moved_from (args k) q → P q) →
  writes (T:=T) P (uninitialized_loop args d_first done n).
Proof.
  revert done. induction n as [| n IH]; intros done Hdone Hd Ha; simpl;
    [apply writes_ret |].
  apply writes_bind.
  - apply writes_on_exception.
    + apply writes_ConstructElement; [apply Hd; lia |].
      intros q. apply Ha. lia.
    + apply writes_destroy_n. intros k Hk. apply Hd. lia.
  - intros _. apply IH; [lia | |].
    + intros k Hk. apply Hd. lia.
    + intros k q Hk. apply Ha. lia.
Qed.

(** Whatever a construction loop does, it neither allocates nor frees. *)
Lemma uninitialized_loop_shape args d_first done n s s' u :
  0 ≤ done →
  uninitialized_loop args d_first done n s = Ok u s' → same_shape s s'.
Proof.
  intros Hdone Hrun.
  eapply (writes_Ok (λ _, True)) in Hrun; [by destruct Hrun |].
  by apply writes_uninitialized_loop.
Qed.

Lemma ConstructElement_Ok buf args s u s' :
  ConstructElement buf args s = Ok u s' →
  ∃ x s1, construct_from args s = Ok x s1 ∧ set_slot buf (Some x) s1 = Ok tt s'.
Proof.
  unfold ConstructElement, place. intros (x & s1 & H1 & H2)%bind_Ok.
  destruct u. eauto.
Qed.

(** A slot that received a constructed object lies inside its block. *)
Lemma ConstructElement_in_bounds buf args s u s' :
  ConstructElement buf args s = Ok u s' → is_Some (slot_at s buf).
Proof.
  intros (x & s1 & H1 & H2)%ConstructElement_Ok.
  apply set_slot_Ok in H2 as (Hin & _ & _).
  eapply (writes_Ok (λ _, True)) in H1; [| by apply writes_construct_from].
  destruct H1 as [Hs _]. by eapply same_shape_in_bounds.
Qed.

Lemma uninitialized_loop_in_bounds args d_first done n s s' u :
  0 ≤ done →
  uninitialized_loop args d_first done n s = Ok u s' →
  ∀ k, done ≤ k < done + Z.of_nat n → is_Some (slot_at s (ptr_add d_first k)).
Proof.
  revert done s. induction n as [| n IH]; intros done s Hdone Hrun k Hk;
    simpl in *; [lia |].
  apply bind_Ok in Hrun as (u1 & s1 & H1%on_exception_Ok & H2).
  destruct (decide (k = done)) as [-> | Hne].
  - by eapply ConstructElement_in_bounds.
  - eapply (same_shape_in_bounds s s1).
    + eapply (writes_Ok (λ _, True)) in H1; [by destruct H1 |].
      by apply writes_ConstructElement.
    + eapply IH; [| exact H2 |]; lia.
Qed.

Lemma Destroy_Throw buf s e s' : Destroy buf s = Throw e s' → False.
Proof.
  unfold Destroy. intros [H | (v & s1 & _ & [H | (u & s2 & _ & H)]%bind_Throw)]%bind_Throw.
  - by apply load_Throw in H.
  - by apply record_destroyed_Throw in H.
  - by apply set_slot_Throw in H.
Qed.

Lemma destroy_loop_Throw p n s e s' : destroy_loop p n s = Throw e s' → False.
Proof.
  revert p s. induction n as [| n IH]; intros p s; simpl; [discriminate |].
  intros [H | (v & s1 & _ & H)]%bind_Throw.
  - by apply Destroy_Throw in H.
  - by apply IH in H.
Qed.

Lemma destroy_n_Throw p n s e s' : destroy_n p n s = Throw e s' → False.
Proof. apply destroy_loop_Throw. Qed.

End Frames.

(** Inversion of a run, one step at a time. *)
Ltac inv_step H :=
  lazymatch type of H with
  | bind _ _ _ = Ok _ _ =>
      let a := fresh "a" in let s := fresh "s" in let H1 := fresh "Hrun" in
      apply bind_Ok in H as (a & s & H1 & H); inv_step H1
  | bind _ _ _ = Throw _ _ =>
      let a := fresh "a" in let s := fresh "s" in let H1 := fresh "Hrun" in
      apply bind_Throw in H as [H | (a & s & H1 & H)]; [inv_step H | inv_step H1]
  | on_exception _ _ _ = Ok _ _ => apply on_exception_Ok in H; inv_step H
  | on_exception _ _ _ = Throw _ _ =>
      let e := fresh "e" in let s := fresh "s" in let H1 := fresh "Hrun" in
      apply on_exception_Throw in H as (e & s & H1 & [[H ?] | H]);
      simplify_eq; inv_step H1; inv_step H
  | assert _ _ = Ok _ _ =>
      let Hb := fresh "Hassert" in apply assert_Ok in H as [Hb ?]; simplify_eq
  | assert _ _ = Throw _ _ => by apply assert_Throw in H
  | of_option _ _ = Ok _ _ =>
      let Hb := fresh "Hsome" in apply of_option_Ok in H as [Hb ?]; simplify_eq
  | of_option _ _ = Throw _ _ => by apply of_option_Throw in H
  | ret _ _ = Ok _ _ => apply ret_Ok in H as [? ?]; simplify_eq
  | ret _ _ = Throw _ _ => by apply ret_Throw in H
  | Vector.this _ = Ok _ _ => apply this_Ok in H as [? ?]; simplify_eq
  | Vector.this _ = Throw _ _ => discriminate H
  | Vector.set_data _ _ = Ok _ _ => apply set_data_Ok in H; simplify_eq
  | Vector.set_data _ _ = Throw _ _ => discriminate H
  | Vector.set_size _ _ = Ok _ _ => apply set_size_Ok in H; simplify_eq
  | Vector.set_size _ _ = Throw _ _ => discriminate H
  | RawMemory.plus _ _ _ = Ok _ _ =>
      let Hb := fresh "Hle" in apply plus_Ok in H as (Hb & ? & ?); simplify_eq
  | RawMemory.plus _ _ _ = Throw _ _ => by apply plus_Throw in H
  | Vector.end_ _ _ = Ok _ _ =>
      let Hb := fresh "Hle" in apply plus_Ok in H as (Hb & ? & ?); simplify_eq
  | Vector.end_ _ _ = Throw _ _ => by apply plus_Throw in H
  | Vector.mem _ _ = Ok _ _ =>
      let s := fresh "s" in apply mem_Ok in H as (s & H & ?); simplify_eq
  | Vector.mem _ _ = Throw _ _ =>
      let s := fresh "s" in apply mem_Throw in H as (s & H & ?); simplify_eq
  | operator_delete _ _ = Throw _ _ => by apply operator_delete_Throw in H
  | RawMemory.destructor _ _ = Throw _ _ => by apply operator_delete_Throw in H
  | set_slot _ _ _ = Throw _ _ => by apply set_slot_Throw in H
  | Destroy _ _ = Throw _ _ => by apply Destroy_Throw in H
  | destroy_n _ _ _ = Throw _ _ => by apply destroy_n_Throw in H
  | load _ _ = Throw _ _ => by apply load_Throw in H
  | _ => idtac
  end.

Ltac inv_run :=
  repeat (match goal with
          | H : _ = Ok _ _ |- _ => progress (inv_step H)
          | H : _ = Throw _ _ |- _ => progress (inv_step H)
          end;
          cbn [fst snd data_ size_ buffer_ capacity_] in *).

(** ** The fields of a container across its member functions *)

Section Fields.

Context {T : Type} {ops : ElemOps T}.
Variable grants : Store T → Z → bool.
Implicit Types (s : Store T) (v : Vector).

Lemma sized_Ok capacity s m s' :
  RawMemory.sized grants capacity s = Ok m s' →
  capacity_ m = capacity ∧
  ((capacity = 0 ∧ buffer_ m = nullptr ∧ s' = s) ∨
   (capacity ≠ 0 ∧ buffer_ m = Ptr (Some (next_block s)) 0 ∧
    next_block s' = S (next_block s) ∧
    blocks s' = <[next_block s := replicate (allocated_slots capacity) None]>
                  (blocks s))).
Proof.
  unfold RawMemory.sized, RawMemory.Allocate. intros Hrun.
  apply bind_Ok in Hrun as (buf & s1 & Halloc & Hret).
  apply ret_Ok in Hret as [-> ->]. simpl. split; [done |].
  destruct (Z.eqb_spec capacity 0) as [-> | Hne].
  - apply ret_Ok in Halloc as [-> ->]. by left.
  - apply operator_new_Ok in Halloc as (-> & Hn & Hb). right. done.
Qed.

Lemma sized_Throw capacity s e s' :
  RawMemory.sized grants capacity s = Throw e s' → e = bad_alloc ∧ s' = s.
Proof.
  unfold RawMemory.sized, RawMemory.Allocate. intros Hrun.
  apply bind_Throw in Hrun as [Halloc | (buf & s1 & _ & Hret)];
    [| by apply ret_Throw in Hret].
  destruct (Z.eqb_spec capacity 0) as [-> | Hne];
    [by apply ret_Throw in Halloc |].
  by apply operator_new_Throw in Halloc as (-> & -> & _).
Qed.

Lemma Reserve_Ok_fields n v s u v' s' :
  Vector.Reserve grants n (v, s) = Ok u (v', s') →
  size_ v' = size_ v ∧
  ((n ≤ capacity_ (data_ v) ∧ v' = v ∧ s' = s) ∨
   (capacity_ (data_ v) < n ∧ capacity_ (data_ v') = n)).
Proof.
  intros E. unfold Vector.Reserve in E. inv_step E. simpl in E.
  unfold RawMemory.Capacity in E.
  destruct (Z.leb_spec n (capacity_ (data_ v))) as [Hle | Hlt]; inv_run.
  - auto.
  - simpl.
    match goal with H : RawMemory.sized _ _ _ = Ok _ _ |- _ =>
      apply sized_Ok in H as [Hcap _] end.
    auto.
Qed.

Lemma Reserve_Throw_fields n v s e v' s' :
  Vector.Reserve grants n (v, s) = Throw e (v', s') → v' = v.
Proof.
  intros E. unfold Vector.Reserve in E. inv_step E. simpl in E.
  unfold RawMemory.Capacity in E.
  by destruct (Z.leb_spec n (capacity_ (data_ v))) as [Hle | Hlt]; inv_run.
Qed.

Lemma PopBack_Ok_fields v s u v' s' :
  size_invariant v →
  Vector.PopBack (v, s) = Ok u (v', s') →
  0 < size_ v ∧ v' = MkVector (data_ v) (size_ v - 1).
Proof.
  intros [Hsz Hcap] E. unfold Vector.PopBack in E. inv_run. simpl in *.
  match goal with H : (0 <? _) = true |- _ => apply Z.ltb_lt in H end.
  split; [done |]. rewrite wrap_small by lia. done.
Qed.

Lemma PopBack_Throw (st : Vector * Store T) e st' :
  Vector.PopBack st = Throw e st' → False.
Proof.
  intros E. unfold Vector.PopBack in E. inv_run.
Qed.

(** A slot of a block just allocated is one of the slots the allocator
    returned, and so one of the slots asked for. *)
Lemma sized_in_slots capacity s m s1 s2 k :
  RawMemory.sized grants capacity s = Ok m s1 →
  same_shape s1 s2 →
  is_Some (slot_at s2 (ptr_add (buffer_ m) k)) →
  0 ≤ k < Z.of_nat (allocated_slots capacity).
Proof.
  intros (Hcap & [(_ & Hbuf & _) | (_ & Hbuf & _ & Hblocks)])%sized_Ok Hshape
    Hin%(same_shape_in_bounds s1 s2 _ Hshape);
    apply slot_at_is_Some in Hin as (b & n & Hb & Hlen & Hk);
    rewrite Hbuf in Hb, Hk; simpl in *; [done |].
  injection Hb as <-. unfold block_len in Hlen.
  rewrite Hblocks, lookup_insert_eq in Hlen. simpl in Hlen.
  rewrite length_replicate in Hlen. injection Hlen as <-. lia.
Qed.

Lemma sized_in_bounds capacity s m s1 s2 k :
  0 ≤ capacity →
  RawMemory.sized grants capacity s = Ok m s1 →
  same_shape s1 s2 →
  is_Some (slot_at s2 (ptr_add (buffer_ m) k)) →
  0 ≤ k < capacity_ m.
Proof.
  intros Hc Hsized Hshape Hin.
  pose proof (sized_Ok _ _ _ _ Hsized) as [-> _].
  pose proof (sized_in_slots _ _ _ _ _ _ Hsized Hshape Hin).
  pose proof (allocated_slots_le capacity Hc). lia.
Qed.

Lemma sized_destroyed capacity s m s' :
  RawMemory.sized grants capacity s = Ok m s' → destroyed s' = destroyed s.
Proof.
  unfold RawMemory.sized, RawMemory.Allocate. intros Hrun.
  apply bind_Ok in Hrun as (buf & s1 & Halloc & Hret).
  apply ret_Ok in Hret as [-> ->].
  destruct (Z.eqb_spec capacity 0) as [-> | Hne].
  - by apply ret_Ok in Halloc as [-> ->].
  - by apply operator_new_destroyed in Halloc.
Qed.

Lemma UninitCopyOrMove_shape from count to s u s' :
  Vector.UninitCopyOrMove from count to s = Ok u s' → same_shape s s'.
Proof.
  unfold Vector.UninitCopyOrMove, uninitialized_move_n, uninitialized_copy_n.
  destruct (_ || _); by apply uninitialized_loop_shape.
Qed.

Lemma UninitCopyOrMove_in_bounds from count to s u s' :
  Vector.UninitCopyOrMove from count to s = Ok u s' →
  ∀ k, 0 ≤ k < count → is_Some (slot_at s (ptr_add to k)).
Proof.
  unfold Vector.UninitCopyOrMove, uninitialized_move_n, uninitialized_copy_n.
  intros Hrun k Hk.
  destruct (_ || _); eapply uninitialized_loop_in_bounds; try exact Hrun; lia.
Qed.

Lemma ConstructElement_shape buf args s u s' :
  ConstructElement buf args s = Ok u s' → same_shape s s'.
Proof.
  intros Hrun. eapply (writes_Ok (λ _, True)) in Hrun; [by destruct Hrun |].
  by apply writes_ConstructElement.
Qed.

(** The arithmetic of a reallocating insertion: the slots the code wrote
    lie inside the new block, so neither the doubling nor the increment of
    [size_] wrapped around. *)
Lemma realloc_no_wrap size indent new_capacity :
  0 ≤ size < SIZE_MODULUS →
  new_capacity = (if size =? 0 then 1 else wrap (size * 2)) →
  wrap indent < new_capacity →
  wrap (indent + 1) ≤ new_capacity →
  (0 < wrap (size - indent) →
   wrap (indent + 1) + wrap (size - indent) ≤ new_capacity) →
  wrap (size + 1) = size + 1 ∧ new_capacity = Z.max 1 (2 * size).
Proof.
  intros Hsize -> Hc Ha Hab.
  destruct (wrap_eq indent) as [k0 E0], (wrap_eq (indent + 1)) as [k1 E1],
    (wrap_eq (size - indent)) as [k2 E2], (wrap_eq (size + 1)) as [k3 E3],
    (wrap_eq (size * 2)) as [k4 E4].
  pose proof (wrap_range indent). pose proof (wrap_range (indent + 1)).
  pose proof (wrap_range (size - indent)). pose proof (wrap_range (size + 1)).
  pose proof (wrap_range (size * 2)).
  rewrite SIZE_MODULUS_eq in *.
  destruct (Z.eqb_spec size 0) as [-> | Hne]; lia.
Qed.

Lemma Emplace_Ok_fields pos args v s it v' s' :
  size_invariant v →
  Vector.Emplace grants pos args (v, s) = Ok it (v', s') →
  it = ptr_add (buffer_ (data_ v')) (p_off pos - p_off (buffer_ (data_ v))) ∧
  ((data_ v' = data_ v ∧ size_ v' = size_ v + 1 ∧ size_ v < capacity_ (data_ v)) ∨
   (capacity_ (data_ v) = size_ v ∧ size_ v' = size_ v + 1 ∧
    capacity_ (data_ v') = Z.max 1 (2 * size_ v) ∧
    capacity_ (data_ v') < SIZE_MODULUS)).
Proof.
  intros [Hsz Hcap] E. unfold Vector.Emplace in E.
  inv_step E. simpl in E. inv_step E. inv_step E.
  unfold RawMemory.Capacity, RawMemory.GetAddress, Vector.begin in *.
  destruct (_ || _) eqn:Hfull in Hrun.
  - inv_run.
    assert (a = p_off pos - p_off (buffer_ (data_ v))) as Ha.
    { unfold ptr_distance in Hsome. by case_decide; simplify_eq. }
    assert (a7 = size_ v - a) as Ha7.
    { unfold ptr_distance in Hsome0. case_decide; simplify_eq. simpl. lia. }
    assert (same_shape s1 s4) as Hs14 by by eapply UninitCopyOrMove_shape.
    assert (same_shape s1 s5) as Hs15.
    { eapply same_shape_trans; [exact Hs14 | by eapply ConstructElement_shape]. }
    pose proof (sized_Ok _ _ _ _ Hrun0) as [Hnew _].
    assert (0 ≤ (if size_ v =? 0 then 1 else wrap (size_ v * 2))) as Hnew0.
    { pose proof (wrap_range (size_ v * 2)). destruct (size_ v =? 0); lia. }
    apply ConstructElement_in_bounds in Hrun3 as Hin.
    eapply sized_in_bounds in Hin; [| exact Hnew0 | exact Hrun0 | exact Hs14].
    destruct (realloc_no_wrap (size_ v) a (capacity_ a1)) as [Hw Hmax];
      [lia | done | lia | lia | |].
    { intros Hpos. subst a7.
      pose proof (UninitCopyOrMove_in_bounds _ _ _ _ _ _ Hrun4
                    (wrap (size_ v - a) - 1) ltac:(lia)) as Hlast.
      rewrite ptr_add_add in Hlast.
      eapply sized_in_bounds in Hlast; [| exact Hnew0 | exact Hrun0 | exact Hs15].
      lia. }
    split; [by rewrite Ha |]. right.
    pose proof (wrap_range (size_ v + 1)) as Hr. rewrite Hw in *.
    assert (capacity_ a1 < SIZE_MODULUS).
    { rewrite Hnew. pose proof (wrap_range (size_ v * 2)).
      destruct (size_ v =? 0); [by rewrite SIZE_MODULUS_eq | lia]. }
    apply orb_true_iff in Hfull as [Hlt%Z.ltb_lt | Heq%Z.eqb_eq];
      split_and!; try done; lia.
  - apply orb_false_iff in Hfull as [Hlt%Z.ltb_ge Hne%Z.eqb_neq].
    assert (wrap (size_ v + 1) = size_ v + 1) as Hw.
    { apply wrap_small. pose proof (wrap_range (size_ v + 1)). lia. }
    assert (a = p_off pos - p_off (buffer_ (data_ v))) as Ha.
    { unfold ptr_distance in Hsome. by case_decide; simplify_eq. }
    inv_run. destruct a; inv_run.
    all: split; [done |]; left; split_and!; try done; lia.
Qed.

Lemma Emplace_Throw_fields pos args v s e v' s' :
  Vector.Emplace grants pos args (v, s) = Throw e (v', s') → v' = v.
Proof.
  intros E. unfold Vector.Emplace in E. inv_run.
  destruct (_ || _) in E; inv_run; try done.
  match goal with b : bool |- _ => destruct b end; by inv_run.
Qed.

Lemma Resize_Ok_fields n v s u v' s' :
  Vector.Resize grants n (v, s) = Ok u (v', s') →
  size_ v' = n ∧
  ((n ≤ capacity_ (data_ v) ∧ data_ v' = data_ v) ∨
   (capacity_ (data_ v) < n ∧ capacity_ (data_ v') = n)).
Proof.
  intros E. unfold Vector.Resize in E. inv_step E. simpl in E.
  unfold RawMemory.Capacity in E.
  destruct (Z.ltb_spec (capacity_ (data_ v)) n) as [Hlt | Hle].
  - inv_step E. destruct s0 as [v1 s1].
    apply Reserve_Ok_fields in Hrun as [Hsize [(? & _) | (_ & Hcap)]]; [lia |].
    inv_run. auto.
  - inv_run. destruct (n <? size_ v); inv_run; auto.
Qed.

Lemma Resize_Throw_fields n v s e v' s' :
  Vector.Resize grants n (v, s) = Throw e (v', s') →
  v' = v ∨
  (capacity_ (data_ v) < n ∧ capacity_ (data_ v') = n ∧ size_ v' = size_ v).
Proof.
  intros E. unfold Vector.Resize in E. inv_step E. simpl in E.
  unfold RawMemory.Capacity in E.
  destruct (Z.ltb_spec (capacity_ (data_ v)) n) as [Hlt | Hle].
  - inv_step E.
    + left. by eapply Reserve_Throw_fields.
    + destruct s0 as [v1 s1].
      apply Reserve_Ok_fields in Hrun as [Hsize [(? & _) | (_ & Hcap)]]; [lia |].
      inv_run. auto.
  - inv_run; auto. destruct (n <? size_ v); inv_run; auto.
Qed.

Lemma Erase_Ok_fields pos v s it v' s' :
  size_invariant v →
  Vector.Erase pos (v, s) = Ok it (v', s') →
  0 < size_ v ∧ v' = MkVector (data_ v) (size_ v - 1).
Proof.
  intros Hinv E. unfold Vector.Erase in E. inv_step E. inv_step E.
  inv_step E. inv_step E.
  assert (s0.1 = v) as Hv.
  { destruct (_ || _) in Hrun; inv_run; done. }
  destruct s0 as [v0 s0]. simpl in Hv. subst v0.
  destruct s1 as [v1 s1]. apply PopBack_Ok_fields in Hrun0; [| done].
  inv_run. done.
Qed.

Lemma Erase_Throw_fields pos v s e v' s' :
  Vector.Erase pos (v, s) = Throw e (v', s') → v' = v.
Proof.
  intros E. unfold Vector.Erase in E. inv_step E. inv_step E.
  inv_step E.
  - destruct (_ || _) in E; by inv_run.
  - inv_step E; [| inv_run].
    by apply PopBack_Throw in E.
Qed.

Lemma Vector_sized_Ok n s v s' :
  Vector.sized grants n s = Ok v s' → size_ v = n ∧ capacity_ (data_ v) = n.
Proof.
  intros E. unfold Vector.sized in E. inv_run.
  match goal with H : RawMemory.sized _ _ _ = Ok _ _ |- _ =>
    apply sized_Ok in H as [Hcap _] end.
  done.
Qed.

Lemma copy_constructor_Ok other s v s' :
  Vector.copy_constructor grants other s = Ok v s' →
  size_ v = size_ other ∧ capacity_ (data_ v) = size_ other.
Proof.
  intros E. unfold Vector.copy_constructor in E. inv_run.
  match goal with H : RawMemory.sized _ _ _ = Ok _ _ |- _ =>
    apply sized_Ok in H as [Hcap _] end.
  done.
Qed.

Lemma copy_assignment_Ok_fields rhs v s u v' s' :
  Vector.copy_assignment grants (Other rhs) (v, s) = Ok u (v', s') →
  size_ v' = size_ rhs ∧
  ((size_ rhs ≤ capacity_ (data_ v) ∧ data_ v' = data_ v) ∨
   (capacity_ (data_ v) < size_ rhs ∧ capacity_ (data_ v') = size_ rhs)).
Proof.
  intros E. unfold Vector.copy_assignment in E. inv_step E. simpl in E.
  unfold Vector.Capacity, RawMemory.Capacity in E.
  destruct (Z.leb_spec (size_ rhs) (capacity_ (data_ v))) as [Hle | Hlt].
  - inv_run. destruct (size_ rhs <? size_ v); inv_run; auto.
  - inv_run. unfold Vector.Swap in *. injection Hrun0 as <- <-.
    match goal with H : Vector.copy_constructor _ _ _ = Ok _ _ |- _ =>
      apply copy_constructor_Ok in H as [Hsize Hcap] end.
    simpl in *. inv_run. simpl. auto.
Qed.

Lemma copy_assignment_Throw_fields rhs v s e v' s' :
  Vector.copy_assignment grants rhs (v, s) = Throw e (v', s') → v' = v.
Proof.
  intros E. destruct rhs as [| rhs]; [discriminate |].
  unfold Vector.copy_assignment in E. inv_step E. simpl in E.
  destruct (_ <=? _) in E.
  - inv_run; try done. destruct (size_ rhs <? size_ v); by inv_run.
  - inv_run; try done. unfold Vector.Swap in *. simplify_eq.
    simpl in *. unfold Vector.destructor in *. inv_run.
Qed.

End Fields.

Ltac split_states :=
  repeat match goal with
         | st : (Vector * Store _)%type |- _ => destruct st
         end;
  cbn [fst snd] in *.

Section Invariant.

Context {T : Type} {ops : ElemOps T}.
Variable grants : Store T → Z → bool.
Implicit Types (s : Store T) (v : Vector).

Lemma growing_args (c : Call T) : growing c → call_args_invariant c.
Proof. by destruct c. Qed.

Lemma Swap_fields other v s v' s' r :
  Vector.Swap other (v, s) = Ok r (v', s') →
  match other with
  | Self => v' = v ∧ r = Self
  | Other o =>
      size_ v' = size_ o ∧ capacity_ (data_ v') = capacity_ (data_ o) ∧
      ∃ o', r = Other o' ∧ size_ o' = size_ v ∧
            capacity_ (data_ o') = capacity_ (data_ v)
  end.
Proof.
  destruct other as [| o]; simpl.
  - intros E. inv_run. done.
  - intros [= <- <- <-]. simpl. eauto 6.
Qed.

Lemma EmplaceBack_Ok_fields args v s it v' s' :
  size_invariant v →
  Vector.EmplaceBack grants args (v, s) = Ok it (v', s') →
  (data_ v' = data_ v ∧ size_ v' = size_ v + 1 ∧ size_ v < capacity_ (data_ v)) ∨
  (capacity_ (data_ v) = size_ v ∧ size_ v' = size_ v + 1 ∧
   capacity_ (data_ v') = Z.max 1 (2 * size_ v) ∧
   capacity_ (data_ v') < SIZE_MODULUS).
Proof.
  intros Hinv E. unfold Vector.EmplaceBack in E. inv_run.
  by apply Emplace_Ok_fields in E as [_ ?].
Qed.

Lemma EmplaceBack_Throw_fields args v s e v' s' :
  Vector.EmplaceBack grants args (v, s) = Throw e (v', s') → v' = v.
Proof.
  intros E. unfold Vector.EmplaceBack in E. inv_run.
  by apply Emplace_Throw_fields in E.
Qed.

Lemma run_call_invariant c v s v' s' :
  size_invariant v → call_args_invariant c →
  final_state (run_call grants c (v, s)) = Some (v', s') →
  size_invariant v' ∧ (growing c → capacity_ (data_ v) ≤ capacity_ (data_ v')).
Proof.
  intros Hinv Hargs Hfinal.
  assert (size_invariant v ∧ (growing c → capacity_ (data_ v) ≤ capacity_ (data_ v)))
    as Hsame by (split; [done | lia]).
  destruct (run_call grants c (v, s)) as [u st|e st|] eqn:E; simpl in Hfinal;
    simplify_eq; destruct c; simpl in *;
    unfold Vector.PushBack, Vector.PushBack_move, Vector.Insert,
      Vector.Insert_move, Vector.move_assignment in *;
    try (destruct rhs as [| rhs]); try (destruct other as [| other]);
    inv_run; split_states; try done;
    repeat match goal with
      | H : Vector.copy_assignment _ Self _ = Ok _ _ |- _ =>
          apply ret_Ok in H as [_ ?]; simplify_eq
      | H : Vector.copy_assignment _ Self _ = Throw _ _ |- _ => discriminate H
      | H : Vector.copy_assignment _ (Other _) _ = Ok _ _ |- _ =>
          apply copy_assignment_Ok_fields in H as [? [[? Hd] | [? ?]]];
          rewrite ?Hd
      | H : Vector.copy_assignment _ _ _ = Throw _ _ |- _ =>
          apply copy_assignment_Throw_fields in H; subst
      | H : Vector.Swap Self _ = Ok _ _ |- _ =>
          apply Swap_fields in H as [? _]; subst
      | H : Vector.Swap (Other _) _ = Ok _ _ |- _ =>
          apply Swap_fields in H as (? & ? & _)
      | H : Vector.Swap _ _ = Throw _ _ |- _ => by destruct H
      | H : Vector.Reserve _ _ _ = Ok _ _ |- _ =>
          apply Reserve_Ok_fields in H as [? [(? & ? & _) | [? ?]]]; subst
      | H : Vector.Reserve _ _ _ = Throw _ _ |- _ =>
          apply Reserve_Throw_fields in H; subst
      | H : Vector.Resize _ _ _ = Ok _ _ |- _ =>
          apply Resize_Ok_fields in H as [? [[? Hd] | [? ?]]]; rewrite ?Hd
      | H : Vector.Resize _ _ _ = Throw _ _ |- _ =>
          apply Resize_Throw_fields in H as [? | (? & ? & ?)]; subst
      | H : Vector.Emplace _ _ _ _ = Ok _ _ |- _ =>
          apply Emplace_Ok_fields in H as [_ [(Hd & ? & ?) | (? & ? & ? & ?)]];
          try done; rewrite ?Hd
      | H : Vector.Emplace _ _ _ _ = Throw _ _ |- _ =>
          apply Emplace_Throw_fields in H; subst
      | H : Vector.EmplaceBack _ _ _ = Ok _ _ |- _ =>
          apply EmplaceBack_Ok_fields in H as [(Hd & ? & ?) | (? & ? & ? & ?)];
          try done; rewrite ?Hd
      | H : Vector.EmplaceBack _ _ _ = Throw _ _ |- _ =>
          apply EmplaceBack_Throw_fields in H; subst
      | H : Vector.Erase _ _ = Ok _ _ |- _ =>
          apply Erase_Ok_fields in H as [? ?]; [| done]; subst; simpl
      | H : Vector.Erase _ _ = Throw _ _ |- _ =>
          apply Erase_Throw_fields in H; subst
      | H : Vector.PopBack _ = Ok _ _ |- _ =>
          apply PopBack_Ok_fields in H as [? ?]; [| done]; subst; simpl
      | H : Vector.PopBack _ = Throw _ _ |- _ => by apply PopBack_Throw in H
      end;
    unfold size_invariant, is_size_t in *; simpl;
    try match goal with Hd : data_ _ = data_ _ |- _ => rewrite Hd end;
    try done; try (split; [lia | intros; first [done | lia]]).
Qed.

End Invariant.

(** ** Single objects *)

Section Objects.

Context {T : Type} {ops : ElemOps T} {lawful : LawfulElem T}.
Implicit Types (s : Store T) (p q : ptr).

Lemma set_slot_updated p o s u s' :
  set_slot p o s = Ok u s' → is_Some (slot_at s p) ∧ updated s p o s'.
Proof. intros (? & ? & ?)%set_slot_Ok. split; [done | by split]. Qed.

Lemma updated_shape s p o s' : updated s p o s' → same_shape s s'.
Proof. by intros [? _]. Qed.

Lemma updated_at s p o s' : updated s p o s' → slot_at s' p = Some o.
Proof. intros [_ Hq]. rewrite Hq. by rewrite decide_True. Qed.

Lemma updated_other s p o s' q : updated s p o s' → q ≠ p → slot_at s' q = slot_at s q.
Proof. intros [_ Hq] Hne. rewrite Hq. by rewrite decide_False. Qed.

Lemma construct_from_copy_Ok p s x s' :
  construct_from (ByCopy p) s = Ok x s' → slot_at s p = Some (Some x) ∧ s' = s.
Proof.
  simpl. intros (y & s1 & [Hy ->]%load_Ok & [Hc ->]%elem_Ok)%bind_Ok.
  by apply copy_construct_value in Hc as ->.
Qed.

Lemma construct_from_move_Ok p s x s' :
  construct_from (ByMove p) s = Ok x s' →
  slot_at s p = Some (Some x) ∧ ∃ r, updated s p (Some r) s'.
Proof.
  simpl. intros (y & s1 & [Hy ->]%load_Ok & Hrun)%bind_Ok.
  apply bind_Ok in Hrun as ([x' r] & s1 & [Hm ->]%elem_Ok & Hrun).
  apply bind_Ok in Hrun as (u & s2 & [_ Hup]%set_slot_updated & [-> ->]%ret_Ok).
  apply move_construct_value in Hm as ->. simpl in *. eauto.
Qed.

Lemma construct_from_value_Ok r s x s' :
  construct_from (ByValue r) s = Ok x s' → r = Some x ∧ s' = s.
Proof. simpl. by intros [-> ->]%elem_Ok. Qed.

Lemma construct_from_Throw args s e s' :
  construct_from args s = Throw e s' → e = element_exception ∧ s' = s.
Proof.
  destruct args as [p|p|r]; simpl; intros E; inv_run;
    repeat match goal with
      | H : load _ _ = Ok _ _ |- _ => apply load_Ok in H as [_ ->]
      | H : elem _ _ = Ok _ _ |- _ => apply elem_Ok in H as [_ ->]
      | H : elem _ _ = Throw _ _ |- _ => apply elem_Throw in H as (_ & -> & ->)
      end; done.
Qed.

Lemma Destroy_Ok buf s u s' :
  Destroy buf s = Ok u s' →
  (∃ y, slot_at s buf = Some (Some y)) ∧ updated s buf None s'.
Proof.
  unfold Destroy. intros (y & s1 & [Hy ->]%load_Ok & [_ Hup]%set_slot_updated)%bind_Ok.
  eauto.
Qed.

Lemma assign_copy_Ok dst src s u s' :
  assign_copy dst src s = Ok u s' →
  ∃ x, slot_at s src = Some (Some x) ∧ updated s dst (Some x) s'.
Proof.
  unfold assign_copy. intros (x & s1 & [Hx ->]%load_Ok & Hrun)%bind_Ok.
  apply bind_Ok in Hrun as (d & s1 & [Hd ->]%load_Ok & Hrun).
  apply bind_Ok in Hrun as (d' & s1 & [Hc ->]%elem_Ok & [_ Hup]%set_slot_updated).
  apply copy_assign_value in Hc as ->. eauto.
Qed.

Lemma assign_move_Ok dst src s u s' :
  assign_move dst src s = Ok u s' →
  ∃ x r, slot_at s src = Some (Some x) ∧ same_shape s s' ∧
    ∀ q, slot_at s' q =
         if decide (q = dst) then Some (Some x)
         else if decide (q = src) then Some (Some r) else slot_at s q.
Proof.
  unfold assign_move. intros (x & s1 & [Hx ->]%load_Ok & Hrun)%bind_Ok.
  apply bind_Ok in Hrun as (d & s1 & [Hd ->]%load_Ok & Hrun).
  apply bind_Ok in Hrun as ([d' r] & s1 & [Hm ->]%elem_Ok & Hrun).
  apply bind_Ok in Hrun as (u1 & s1 & [_ [Hs1 Hq1]]%set_slot_updated
                            & [_ [Hs2 Hq2]]%set_slot_updated).
  apply move_assign_value in Hm as ->. simpl in *.
  exists x, r. split; [done |]. split; [by eapply same_shape_trans |].
  intros q. rewrite Hq2. case_decide; [done |]. by rewrite Hq1.
Qed.

Lemma assign_move_local_Ok dst buff s u s' :
  assign_move_local dst buff s = Ok u s' → updated s dst (Some buff) s'.
Proof.
  unfold assign_move_local. intros (d & s1 & [Hd ->]%load_Ok & Hrun)%bind_Ok.
  apply bind_Ok in Hrun as ([d' r] & s1 & [Hm ->]%elem_Ok & [_ Hup]%set_slot_updated).
  by apply move_assign_value in Hm as ->.
Qed.

End Objects.

(** ** Loops over ranges of objects *)

(** Goals about which of several slots a pointer is. *)
Ltac ptr_contra :=
  exfalso;
  repeat match goal with H : _ ∧ _ |- _ => destruct H end;
  simplify_eq/=;
  repeat match goal with
         | H : ¬ (?A ∧ ?B) |- _ =>
             assert (¬ B)
               by (intro; apply H; split; [first [done | congruence] | done]);
             clear H
         end;
  solve [ lia | congruence
        | match goal with
          | H : Ptr _ _ ≠ Ptr _ _ |- _ =>
              apply H; f_equal; first [done | congruence | lia]
          | H : ¬ (_ ∧ _) |- _ =>
              apply H; split; first [done | congruence | lia]
          | H : ¬ (_ = _) |- _ => apply H; first [done | congruence | lia]
          end ].

Ltac ptr_cases :=
  lazymatch goal with |- ¬ _ => intro | _ => idtac end;
  repeat match goal with p : ptr |- _ => destruct p end;
  unfold in_range, ptr_add in *; simpl in *;
  repeat case_decide; simplify_eq/=;
  first [done | lia | congruence | ptr_contra | idtac].

Section Ranges.

Context {T : Type} {ops : ElemOps T} {lawful : LawfulElem T}.
Implicit Types (s : Store T) (p q : ptr) (xs : list T).

Lemma ptr_add_inj p a b : ptr_add p a = ptr_add p b → a = b.
Proof. unfold ptr_add. intros [= ?]. lia. Qed.

Lemma ptr_add_blk p a : p_blk (ptr_add p a) = p_blk p.
Proof. done. Qed.

Lemma ptr_add_off p a : p_off (ptr_add p a) = p_off p + a.
Proof. done. Qed.

Lemma ptr_eq p q : p_blk p = p_blk q → p_off p = p_off q → p = q.
Proof. destruct p, q. simpl. by intros -> ->. Qed.

Lemma array_at_nil s p : array_at s p [].
Proof. intros i x. by rewrite lookup_nil. Qed.

Lemma array_at_cons s p x xs :
  array_at s p (x :: xs) ↔
  slot_at s p = Some (Some x) ∧ array_at s (ptr_add p 1) xs.
Proof.
  unfold array_at. split.
  - intros Hall. split.
    + specialize (Hall 0%nat x eq_refl). by rewrite ptr_add_0 in Hall.
    + intros i y Hi. specialize (Hall (S i) y Hi). rewrite ptr_add_add.
      by replace (1 + Z.of_nat i) with (Z.of_nat (S i)) by lia.
  - intros [H0 Hrest] [| i] y Hi; simpl in Hi.
    + simplify_eq. by rewrite ptr_add_0.
    + specialize (Hrest i y Hi). rewrite ptr_add_add in Hrest.
      by replace (1 + Z.of_nat i) with (Z.of_nat (S i)) in Hrest by lia.
Qed.

Lemma array_at_app s p xs ys :
  array_at s p (xs ++ ys) ↔
  array_at s p xs ∧ array_at s (ptr_add p (Z.of_nat (length xs))) ys.
Proof.
  revert p. induction xs as [| x xs IH]; intros p; simpl.
  - rewrite ptr_add_0. split; [intros; split; [apply array_at_nil | done] | by intros [_ ?]].
  - rewrite !array_at_cons, IH, ptr_add_add.
    replace (1 + Z.of_nat (length xs)) with (Z.of_nat (S (length xs))) by lia.
    tauto.
Qed.

Lemma array_at_frame s s' p xs :
  (∀ q, in_range p (Z.of_nat (length xs)) q → slot_at s' q = slot_at s q) →
  array_at s p xs → array_at s' p xs.
Proof.
  intros Hf Hxs i x Hi. rewrite Hf; [by apply Hxs |].
  apply lookup_lt_Some in Hi. unfold in_range. simpl. split; [done | lia].
Qed.

Lemma array_at_lookup s p xs k x :
  array_at s p xs → 0 ≤ k → xs !! Z.to_nat k = Some x →
  slot_at s (ptr_add p k) = Some (Some x).
Proof.
  intros Hxs Hk Hx. specialize (Hxs _ _ Hx). by rewrite Z2Nat.id in Hxs.
Qed.

(** [std::destroy_n] *)
Lemma destroy_loop_Ok p n s u s' :
  destroy_loop p n s = Ok u s' →
  same_shape s s' ∧
  ∀ q, slot_at s' q =
       if decide (in_range p (Z.of_nat n) q) then Some None else slot_at s q.
Proof.
  revert p s. induction n as [| n IH]; intros p s; simpl.
  - intros [_ ->]%ret_Ok. split; [apply same_shape_refl |].
    intros q. rewrite decide_False; [done |]. unfold in_range. lia.
  - intros (u1 & s1 & [_ [Hs1 Hq1]]%Destroy_Ok & [Hs2 Hq2]%IH)%bind_Ok.
    split; [by eapply same_shape_trans |].
    intros q. rewrite Hq2, Hq1. clear -q. ptr_cases.
Qed.

Lemma destroy_n_Ok p n s u s' :
  0 ≤ n →
  destroy_n p n s = Ok u s' →
  same_shape s s' ∧
  ∀ q, slot_at s' q = if decide (in_range p n q) then Some None else slot_at s q.
Proof.
  intros Hn [Hs Hq]%destroy_loop_Ok. split; [done |].
  intros q. rewrite Hq. rewrite Z2Nat.id by done. done.
Qed.

(** [UninitCopyOrMove]: relocation into another block *)
Lemma relocate_loop_Ok by_move src dst xs done s u s' :
  p_blk src ≠ p_blk dst →
  array_at s (ptr_add src done) xs →
  uninitialized_loop (reloc_args by_move src) dst done (length xs) s = Ok u s' →
  same_shape s s' ∧
  array_at s' (ptr_add dst done) xs ∧
  (∀ q, ¬ in_range (ptr_add dst done) (Z.of_nat (length xs)) q →
        (by_move = true → ¬ in_range (ptr_add src done) (Z.of_nat (length xs)) q) →
        slot_at s' q = slot_at s q) ∧
  (∀ k, 0 ≤ k < Z.of_nat (length xs) →
        ∃ r, slot_at s' (ptr_add src (done + k)) = Some (Some r)).
Proof.
  intros Hblk. revert done s.
  induction xs as [| x xs IH]; intros done s Hxs; simpl.
  - intros [_ ->]%ret_Ok. split; [apply same_shape_refl |].
    split; [apply array_at_nil |]. split; [done | lia].
  - apply array_at_cons in Hxs as [Hx Hxs]. rewrite ptr_add_add in Hxs.
    intros (u1 & s1 & H1%on_exception_Ok & H2)%bind_Ok.
    apply ConstructElement_Ok in H1 as (x0 & s0 & Hc & [_ [Hs1 Hq1]]%set_slot_updated).
    assert (same_shape s s0 ∧
            (∀ q, (by_move = true → q ≠ ptr_add src done) →
                  slot_at s0 q = slot_at s q) ∧
            (∃ r, slot_at s0 (ptr_add src done) = Some (Some r)) ∧
            x0 = x) as (Hs0 & Hq0 & Hr0 & ->).
    { unfold reloc_args in Hc. destruct by_move.
      - apply construct_from_move_Ok in Hc as [Hx0 (r & Hs0 & Hq0)].
        split; [done |]. split; [| split].
        + intros q Hq. rewrite Hq0. rewrite decide_False; [done | by apply Hq].
        + exists r. rewrite Hq0. by rewrite decide_True.
        + congruence.
      - apply construct_from_copy_Ok in Hc as [Hx0 ->].
        split; [apply same_shape_refl |]. split; [done |].
        split; [by eauto | congruence]. }
    assert (∀ k, ptr_add src k ≠ ptr_add dst done) as Hne.
    { intros k Heq. apply Hblk. by apply (f_equal p_blk) in Heq. }
    apply IH in H2 as (Hs2 & Hd2 & Hq2 & Hr2).
    2:{ eapply array_at_frame; [| exact Hxs].
        intros q [Hqb Hqo]. simpl in *. rewrite Hq1, decide_False.
        - apply Hq0. intros _ Heq. subst q. simpl in Hqo. lia.
        - intros ->. simpl in Hqb. congruence. }
    split; [eapply same_shape_trans; [| exact Hs2];
            by eapply same_shape_trans |].
    split; [| split].
    + apply array_at_cons. rewrite ptr_add_add. split; [| done].
      rewrite Hq2.
      * rewrite Hq1. by rewrite decide_True.
      * unfold in_range. simpl. lia.
      * intros _. unfold in_range. simpl. intros [Hb _]. congruence.
    + intros q Hnd Hns. rewrite Hq2, Hq1, decide_False.
      * apply Hq0. intros Hmv Heq. apply (Hns Hmv). subst q.
        unfold in_range. simpl. split; [done | lia].
      * intros ->. apply Hnd. unfold in_range. simpl. split; [done | lia].
      * intros [Hb Ho]. apply Hnd. unfold in_range in *. simpl in *.
        split; [done | lia].
      * intros Hmv [Hb Ho]. apply (Hns Hmv). unfold in_range in *. simpl in *.
        split; [done | lia].
    + intros k Hk. destruct (decide (k = 0)) as [-> | Hk0].
      * destruct Hr0 as [r Hr]. exists r.
        rewrite Z.add_0_r. rewrite Hq2.
        -- rewrite Hq1. by rewrite decide_False.
        -- unfold in_range. simpl. intros [Hb _]. congruence.
        -- intros _. unfold in_range. simpl. lia.
      * destruct (Hr2 (k - 1)) as [r Hr]; [lia |]. exists r.
        by replace (done + k) with (done + 1 + (k - 1)) by lia.
Qed.

End Ranges.

Section Shifts.

Context {T : Type} {ops : ElemOps T} {lawful : LawfulElem T}.
Implicit Types (s : Store T) (p q d : ptr) (xs : list T).

(** [std::move(d + 1, d + 1 + n, d)]: the [n] objects after [d] move one
    slot to the left; the last source slot keeps a live, moved-from
    object. *)
Lemma move_loop_shift_Ok d xs s u s' :
  array_at s (ptr_add d 1) xs →
  move_loop (ptr_add d 1) d (length xs) s = Ok u s' →
  same_shape s s' ∧
  array_at s' d xs ∧
  (∀ q, ¬ in_range d (Z.of_nat (length xs) + 1) q → slot_at s' q = slot_at s q) ∧
  (xs = [] → s' = s) ∧
  (xs ≠ [] → ∃ r, slot_at s' (ptr_add d (Z.of_nat (length xs))) = Some (Some r)).
Proof.
  revert d s. induction xs as [| x xs IH]; intros d s Hxs; simpl.
  - intros [_ ->]%ret_Ok. split; [apply same_shape_refl |].
    split; [apply array_at_nil |]. done.
  - apply array_at_cons in Hxs as [Hx Hxs].
    intros (u1 & s1 & (x0 & r & Hx0 & Hs1 & Hq1)%assign_move_Ok & H2)%bind_Ok.
    assert (x0 = x) as -> by congruence.
    apply IH in H2 as (Hs2 & Hd2 & Hq2 & Hnil & Hres).
    2:{ eapply array_at_frame; [| exact Hxs].
        intros q Hq. rewrite Hq1. clear -Hq. ptr_cases. }
    split; [by eapply same_shape_trans |]. split; [| split; [| split]].
    + apply array_at_cons. split; [| done].
      rewrite Hq2; [rewrite Hq1; by rewrite decide_True |].
      clear. ptr_cases.
    + intros q Hq. rewrite Hq2; [rewrite Hq1 |]; clear -Hq; ptr_cases.
    + done.
    + intros _. destruct xs as [| x' xs].
      * rewrite (Hnil eq_refl). exists r. rewrite Hq1. simpl. clear. ptr_cases.
      * destruct Hres as [r' Hr']; [done |]. exists r'.
        rewrite <- Hr'. f_equal. apply ptr_eq; simpl; [done | lia].
Qed.

(** [std::move_backward(last - n, last, last + 1)]: the [n] objects before
    [last] move one slot to the right. *)
Lemma move_backward_loop_shift_Ok last xs s u s' :
  array_at s (ptr_add last (- Z.of_nat (length xs))) xs →
  move_backward_loop last (ptr_add last 1) (length xs) s = Ok u s' →
  same_shape s s' ∧
  array_at s' (ptr_add last (1 - Z.of_nat (length xs))) xs ∧
  (∀ q, ¬ in_range (ptr_add last (- Z.of_nat (length xs)))
            (Z.of_nat (length xs) + 1) q →
        slot_at s' q = slot_at s q).
Proof.
  revert last s. induction xs as [| x xs IH] using rev_ind; intros last s Hxs.
  - simpl. intros [_ ->]%ret_Ok. split; [apply same_shape_refl |].
    split; [apply array_at_nil |]. done.
  - rewrite length_app in *. simpl length in *.
    replace (length xs + 1)%nat with (S (length xs)) in * by lia.
    apply array_at_app in Hxs as [Hxs Hx].
    apply array_at_cons in Hx as [Hx _]. rewrite ptr_add_add in Hx.
    simpl move_backward_loop.
    intros (u1 & s1 & (x0 & r & Hx0 & Hs1 & Hq1)%assign_move_Ok & H2)%bind_Ok.
    replace (ptr_add last (- Z.of_nat (S (length xs)) + Z.of_nat (length xs)))
      with (ptr_add last (-1)) in Hx by (apply ptr_eq; simpl; [done | lia]).
    assert (x0 = x) as -> by congruence.
    replace (ptr_add (ptr_add last 1) (-1))
      with (ptr_add (ptr_add last (-1)) 1) in H2, Hq1
      by (apply ptr_eq; simpl; [done | lia]).
    apply IH in H2 as (Hs2 & Hd2 & Hq2).
    2:{ rewrite ptr_add_add. eapply array_at_frame; [| ].
        2:{ replace (-1 + - Z.of_nat (length xs))
              with (- Z.of_nat (S (length xs))) by lia. exact Hxs. }
        intros q Hq. rewrite Hq1. clear -Hq. ptr_cases. }
    rewrite !ptr_add_add in Hd2, Hq2.
    split; [by eapply same_shape_trans |]. split.
    + apply array_at_app. split.
      * by replace (1 - Z.of_nat (S (length xs)))
          with (-1 + (1 - Z.of_nat (length xs))) by lia.
      * apply array_at_cons. split; [| apply array_at_nil].
        rewrite ptr_add_add. rewrite Hq2; [rewrite Hq1 |]; clear; ptr_cases.
    + intros q Hq. rewrite Hq2; [rewrite Hq1 |]; clear -Hq; ptr_cases.
Qed.

End Shifts.

(** ** Insertion *)

Section Insertion.

Context {T : Type} {ops : ElemOps T} {lawful : LawfulElem T}.
Variable grants : Store T → Z → bool.
Implicit Types (s : Store T) (p q : ptr) (xs : list T) (v : Vector).

Lemma moved_from_refers_to (args : CtorArgs T) q :
  moved_from args q → refers_to args q.
Proof. by destruct args. Qed.

Lemma construct_from_args_Ok args s x s' :
  construct_from args s = Ok x s' →
  same_shape s s' ∧
  (∀ q, ¬ moved_from args q → slot_at s' q = slot_at s q) ∧
  arg_value s args x.
Proof.
  destruct args as [p|p|r].
  - intros [Hx ->]%construct_from_copy_Ok. split; [apply same_shape_refl | done].
  - intros [Hx (r & Hs & Hq)]%construct_from_move_Ok. split; [done |].
    split; [| done]. intros q Hne. rewrite Hq. simpl in Hne. by rewrite decide_False.
  - intros [-> ->]%construct_from_value_Ok. split; [apply same_shape_refl | done].
Qed.

Lemma UninitCopyOrMove_Ok from to xs count s u s' :
  p_blk from ≠ p_blk to →
  array_at s from xs →
  count = Z.of_nat (length xs) →
  Vector.UninitCopyOrMove from count to s = Ok u s' →
  same_shape s s' ∧
  array_at s' to xs ∧
  (∀ q, ¬ in_range to count q → ¬ in_range from count q →
        slot_at s' q = slot_at s q).
Proof.
  intros Hblk Hxs -> Hrun.
  assert (∃ by_move,
    uninitialized_loop (reloc_args by_move from) to 0 (length xs) s = Ok u s')
    as [by_move Hloop].
  { unfold Vector.UninitCopyOrMove, uninitialized_move_n, uninitialized_copy_n in Hrun.
    rewrite Nat2Z.id in Hrun.
    destruct (_ || _); [by exists true | by exists false]. }
  apply relocate_loop_Ok in Hloop as (Hs & Hd & Hq & _);
    [| done | by rewrite ptr_add_0].
  rewrite !ptr_add_0 in *. split; [done |]. split; [done |].
  intros q Hnd Hns. apply Hq; [done | by intros _].
Qed.

Lemma drop_snoc_last xs (i : nat) y :
  (i < length xs)%nat → xs !! (length xs - 1)%nat = Some y →
  drop i xs = take (length xs - 1 - i) (drop i xs) ++ [y].
Proof.
  intros Hi Hy.
  rewrite <- (take_drop (length xs - 1 - i) (drop i xs)) at 1. f_equal.
  rewrite drop_drop. replace (i + (length xs - 1 - i))%nat with (length xs - 1)%nat by lia.
  apply list_eq. intros [| k]; simpl.
  - rewrite lookup_drop. by rewrite Nat.add_0_r.
  - rewrite lookup_drop. apply lookup_ge_None. lia.
Qed.

(** The in-place path before the end: the last element is moved into the
    slot past the end, the elements from the position on move one slot to
    the right, and the new element is assigned into the position. *)
Lemma insert_in_place_Ok buf xs i x s0 s1 s2 s3 u1 u2 u3 :
  let n := Z.of_nat (length xs) in
  0 ≤ i < n →
  array_at s0 buf xs →
  ConstructElement (ptr_add buf n) (ByMove (ptr_add (ptr_add buf n) (-1))) s0
    = Ok u1 s1 →
  move_backward (ptr_add buf i) (ptr_add (ptr_add buf n) (-1)) (ptr_add buf n) s1
    = Ok u2 s2 →
  assign_move_local (ptr_add buf i) x s2 = Ok u3 s3 →
  same_shape s0 s3 ∧
  array_at s3 buf (take (Z.to_nat i) xs ++ x :: drop (Z.to_nat i) xs) ∧
  (∀ q, ¬ in_range buf (n + 1) q → slot_at s3 q = slot_at s0 q).
Proof.
  intros n Hi Hxs H1 H2 H3.
  destruct (xs !! (length xs - 1)%nat) as [y |] eqn:Hy.
  2:{ apply lookup_ge_None in Hy. lia. }
  set (xs' := take (length xs - 1 - Z.to_nat i) (drop (Z.to_nat i) xs)).
  assert (drop (Z.to_nat i) xs = xs' ++ [y]) as Hdrop
    by (apply drop_snoc_last; [lia | done]).
  assert (Z.of_nat (length xs') = n - 1 - i) as Hlen'.
  { unfold xs'. rewrite length_take, length_drop. lia. }
  (* the last element is moved past the end *)
  apply ConstructElement_Ok in H1 as (y0 & s0' & Hc & [_ [Hs1 Hq1]]%set_slot_updated).
  apply construct_from_move_Ok in Hc as [Hy0 (r & Hs0' & Hq0')].
  assert (y0 = y) as ->.
  { rewrite ptr_add_add in Hy0.
    rewrite (array_at_lookup s0 buf xs (n + -1) y Hxs) in Hy0; [congruence | lia |].
    by replace (Z.to_nat (n + -1)) with (length xs - 1)%nat by lia. }
  (* the shift *)
  unfold move_backward in H2.
  apply bind_Ok in H2 as (d & s1' & [Hd ->]%of_option_Ok & H2).
  apply bind_Ok in H2 as (ua & s1' & [Hpos ->]%assert_Ok & H2).
  assert (d = n - 1 - i) as ->.
  { unfold ptr_distance in Hd. simpl in Hd. rewrite decide_True in Hd by done.
    injection Hd as <-. lia. }
  rewrite <- Hlen', Nat2Z.id in H2.
  replace (ptr_add buf n)
    with (ptr_add (ptr_add (ptr_add buf n) (-1)) 1) in H2 at 2
    by (apply ptr_eq; simpl; [done | lia]).
  apply move_backward_loop_shift_Ok in H2 as (Hs2 & Hd2 & Hq2).
  2:{ rewrite !ptr_add_add.
      replace (n + (-1 + - Z.of_nat (length xs'))) with i by lia.
      intros k z Hk. unfold xs' in Hk.
      apply lookup_take_Some in Hk as [Hk Hlt]. rewrite lookup_drop in Hk.
      rewrite ptr_add_add. rewrite Hq1, decide_False by (clear -Hlt Hi Hlen'; ptr_cases).
      rewrite Hq0', decide_False by (clear -Hlt Hi Hlen'; ptr_cases).
      replace (i + Z.of_nat k) with (Z.of_nat (Z.to_nat i + k)) by lia.
      by apply Hxs. }
  rewrite !ptr_add_add in Hd2, Hq2.
  replace (n + (-1 + (1 - Z.of_nat (length xs')))) with (i + 1) in Hd2 by lia.
  replace (n + (-1 + - Z.of_nat (length xs'))) with i in Hq2 by lia.
  (* the assignment *)
  apply assign_move_local_Ok in H3 as [Hs3 Hq3].
  split.
  { eapply same_shape_trans; [| exact Hs3]. eapply same_shape_trans; [| exact Hs2].
    by eapply same_shape_trans. }
  split.
  - apply array_at_app. rewrite length_take, Nat.min_l by lia.
    rewrite Z2Nat.id by lia. split.
    + intros k z Hk. apply lookup_take_Some in Hk as [Hk Hlt].
      rewrite Hq3, decide_False by (clear -Hlt Hi; ptr_cases).
      rewrite Hq2 by (clear -Hlt Hi Hlen'; ptr_cases).
      rewrite Hq1, decide_False by (clear -Hlt Hi Hlen'; ptr_cases).
      rewrite Hq0', decide_False by (clear -Hlt Hi Hlen'; ptr_cases).
      by apply Hxs.
    + apply array_at_cons. split; [by rewrite Hq3, decide_True |].
      rewrite ptr_add_add, Hdrop. apply array_at_app. split.
      * eapply array_at_frame; [| exact Hd2].
        intros q Hq. rewrite Hq3. clear -Hq. ptr_cases.
      * apply array_at_cons. split; [| apply array_at_nil].
        rewrite ptr_add_add.
        rewrite Hq3, decide_False by (clear -Hi Hlen'; ptr_cases).
        rewrite Hq2 by (clear -Hi Hlen'; ptr_cases).
        rewrite Hq1, decide_True; [done |].
        clear -Hi Hlen'. apply ptr_eq; simpl; [done | lia].
  - intros q Hq.
    rewrite Hq3, decide_False by (clear -Hq Hi; ptr_cases).
    rewrite Hq2 by (clear -Hq Hi Hlen'; ptr_cases).
    rewrite Hq1, decide_False by (clear -Hq Hi; ptr_cases).
    rewrite Hq0', decide_False by (clear -Hq Hi; ptr_cases). done.
Qed.

(** The reallocating path: prefix, new element and suffix are built in
    the new block, then the old elements are destroyed. *)
Lemma insert_realloc_Ok buf nbuf xs i args s1 s2 s3 s4 s5 u2 u3 u4 u5 :
  let n := Z.of_nat (length xs) in
  p_blk buf ≠ p_blk nbuf →
  0 ≤ i ≤ n →
  array_at s1 buf xs →
  (∀ q, moved_from args q → p_blk q ≠ p_blk buf ∧ p_blk q ≠ p_blk nbuf) →
  Vector.UninitCopyOrMove buf i nbuf s1 = Ok u2 s2 →
  ConstructElement (ptr_add nbuf i) args s2 = Ok u3 s3 →
  Vector.UninitCopyOrMove (ptr_add buf i) (n - i) (ptr_add nbuf (i + 1)) s3
    = Ok u4 s4 →
  destroy_n buf n s4 = Ok u5 s5 →
  ∃ x,
    same_shape s1 s5 ∧
    array_at s5 nbuf (take (Z.to_nat i) xs ++ x :: drop (Z.to_nat i) xs) ∧
    (∀ q, p_blk q ≠ p_blk buf → p_blk q ≠ p_blk nbuf → ¬ moved_from args q →
          slot_at s5 q = slot_at s1 q) ∧
    ((∀ q, refers_to args q → p_blk q ≠ p_blk buf ∧ p_blk q ≠ p_blk nbuf) →
     arg_value s1 args x).
Proof.
  intros n Hblk Hi Hxs Hargs H2 H3 H4 H5.
  rewrite <- (take_drop (Z.to_nat i) xs) in Hxs.
  apply array_at_app in Hxs as [Hpre Hsuf].
  rewrite length_take, Nat.min_l, Z2Nat.id in Hsuf by lia.
  (* the prefix *)
  apply (UninitCopyOrMove_Ok _ _ (take (Z.to_nat i) xs)) in H2 as (Hs2 & Hd2 & Hq2);
    [| done | done | rewrite length_take; lia].
  (* the new element *)
  apply ConstructElement_Ok in H3 as (x & s2' & Hc & [_ [Hs3 Hq3]]%set_slot_updated).
  apply construct_from_args_Ok in Hc as (Hs2' & Hq2' & Hval).
  (* the suffix *)
  apply (UninitCopyOrMove_Ok _ _ (drop (Z.to_nat i) xs)) in H4 as (Hs4 & Hd4 & Hq4);
    [| done | | rewrite length_drop; lia].
  2:{ eapply array_at_frame; [| exact Hsuf].
      intros q Hq. rewrite length_drop in Hq.
      rewrite Hq3, decide_False by (clear -Hq Hblk; ptr_cases).
      rewrite Hq2'.
      - apply Hq2; clear -Hq Hblk Hi; ptr_cases.
      - intros Hm. apply Hargs in Hm as [Hm _]. clear -Hq Hm. ptr_cases. }
  (* the old elements *)
  apply destroy_n_Ok in H5 as [Hs5 Hq5]; [| lia].
  exists x. split.
  { eapply same_shape_trans; [exact Hs2 |].
    eapply same_shape_trans; [exact Hs2' |].
    eapply same_shape_trans; [exact Hs3 |].
    by eapply same_shape_trans. }
  split; [| split].
  - apply array_at_app. rewrite length_take, Nat.min_l, Z2Nat.id by lia. split.
    + eapply array_at_frame; [| exact Hd2].
      intros q Hq. rewrite length_take, Nat.min_l in Hq by lia.
      rewrite Hq5, decide_False by (clear -Hq Hblk; ptr_cases).
      rewrite Hq4 by (clear -Hq Hblk Hi; ptr_cases).
      rewrite Hq3, decide_False by (clear -Hq Hi; ptr_cases).
      apply Hq2'. intros Hm. apply Hargs in Hm as [_ Hm]. clear -Hq Hm. ptr_cases.
    + apply array_at_cons. split.
      * rewrite Hq5, decide_False by (clear -Hblk; ptr_cases).
        rewrite Hq4 by (clear -Hblk Hi; ptr_cases).
        by rewrite Hq3, decide_True.
      * rewrite ptr_add_add. eapply array_at_frame; [| exact Hd4].
        intros q Hq. rewrite Hq5, decide_False; [done |].
        clear -Hq Hblk. ptr_cases.
  - intros q Hb Hnb Hm.
    rewrite Hq5, decide_False by (clear -Hb; ptr_cases).
    rewrite Hq4 by (clear -Hb Hnb; ptr_cases).
    rewrite Hq3, decide_False by (clear -Hnb; ptr_cases).
    rewrite Hq2' by done. apply Hq2; clear -Hb Hnb; ptr_cases.
  - intros Hout. destruct args as [p|p|r]; simpl in *; [| | done].
    + destruct (Hout p eq_refl) as [Hb Hnb].
      rewrite <- Hval. symmetry. apply Hq2; clear -Hb Hnb; ptr_cases.
    + destruct (Hout p eq_refl) as [Hb Hnb].
      rewrite <- Hval. symmetry. apply Hq2; clear -Hb Hnb; ptr_cases.
Qed.

(** The in-place path at the end. *)
Lemma insert_at_end_Ok buf xs args s u s' :
  array_at s buf xs →
  (∀ q, moved_from args q → p_blk q ≠ p_blk buf) →
  ConstructElement (ptr_add buf (Z.of_nat (length xs))) args s = Ok u s' →
  ∃ x,
    same_shape s s' ∧
    array_at s' buf (xs ++ [x]) ∧
    (∀ q, q ≠ ptr_add buf (Z.of_nat (length xs)) → ¬ moved_from args q →
          slot_at s' q = slot_at s q) ∧
    arg_value s args x.
Proof.
  intros Hxs Hargs H1.
  apply ConstructElement_Ok in H1 as (x & s0 & Hc & [_ [Hs1 Hq1]]%set_slot_updated).
  apply construct_from_args_Ok in Hc as (Hs0 & Hq0 & Hval).
  exists x. split; [by eapply same_shape_trans |]. split; [| split; [| done]].
  - apply array_at_app. split.
    + eapply array_at_frame; [| exact Hxs].
      intros q Hq. rewrite Hq1, decide_False by (clear -Hq; ptr_cases).
      apply Hq0. intros Hm. apply Hargs in Hm. clear -Hq Hm. ptr_cases.
    + apply array_at_cons. split; [| apply array_at_nil].
      by rewrite Hq1, decide_True.
  - intros q Hne Hm. rewrite Hq1, decide_False by done. by apply Hq0.
Qed.

End Insertion.

Section EmplaceSpec.

Context {T : Type} {ops : ElemOps T} {lawful : LawfulElem T}.
Variable grants : Store T → Z → bool.
Implicit Types (s : Store T) (p q : ptr) (xs : list T) (v : Vector).

Lemma blocks_frame_slot s s' q :
  (∀ b, p_blk q = Some b → blocks s' !! b = blocks s !! b) →
  slot_at s' q = slot_at s q.
Proof.
  intros Hb. unfold slot_at. destruct (p_blk q) as [b |]; [| done].
  by rewrite Hb.
Qed.

Lemma slot_at_allocated s q b :
  is_Some (slot_at s q) → p_blk q = Some b → is_Some (blocks s !! b).
Proof.
  intros (b' & n & Hb & Hlen & _)%slot_at_is_Some Hq.
  apply block_len_is_Some. rewrite Hq in Hb. injection Hb as <-. by rewrite Hlen.
Qed.

Lemma fresh_block_unused s : store_ok s → blocks s !! next_block s = None.
Proof.
  intros Hok. destruct (blocks s !! next_block s) eqn:E; [| done].
  specialize (Hok (next_block s) ltac:(by rewrite E)). lia.
Qed.

Lemma slot_at_not_fresh s q :
  store_ok s → is_Some (slot_at s q) → p_blk q ≠ Some (next_block s).
Proof.
  intros Hok Hq Hb. eapply slot_at_allocated in Hq; [| done].
  rewrite fresh_block_unused in Hq by done. by destruct Hq.
Qed.

(** What a successful allocation of a non-empty block does. *)
Lemma sized_fresh capacity s m s1 :
  store_ok s → capacity ≠ 0 →
  RawMemory.sized grants capacity s = Ok m s1 →
  m = MkRawMemory (Ptr (Some (next_block s)) 0) capacity ∧
  next_block s1 = S (next_block s) ∧
  block_len s1 (next_block s) = Some (allocated_slots capacity) ∧
  (∀ b, b ≠ next_block s → blocks s1 !! b = blocks s !! b) ∧
  store_ok s1.
Proof.
  intros Hok Hne [Hcap [(? & _) | (_ & Hbuf & Hnext & Hblocks)]]%sized_Ok; [done |].
  split; [destruct m; simpl in *; congruence |]. split; [done |].
  split; [| split].
  - unfold block_len. rewrite Hblocks, lookup_insert_eq. simpl.
    by rewrite length_replicate.
  - intros b Hb. rewrite Hblocks. by rewrite lookup_insert_ne.
  - intros b Hb. rewrite Hnext. rewrite Hblocks in Hb.
    destruct (decide (b = next_block s)) as [-> | Hb']; [lia |].
    rewrite lookup_insert_ne in Hb by done. apply Hok in Hb. lia.
Qed.

(** What the destructor of a [RawMemory] does. *)
Lemma destructor_frame (m : RawMemory) s u s' :
  RawMemory.destructor m s = Ok u s' →
  next_block s' = next_block s ∧
  (∀ b, p_blk (buffer_ m) ≠ Some b → blocks s' !! b = blocks s !! b) ∧
  (store_ok s → store_ok s').
Proof.
  unfold RawMemory.destructor, RawMemory.Deallocate.
  intros [[-> ->] | (b & -> & Hb & ->)]%operator_delete_Ok; [done |].
  simpl. split; [done |]. split.
  - intros b' Hne. apply lookup_delete_ne. congruence.
  - intros Hok b' Hb'. simpl in *. apply Hok.
    destruct (decide (b = b')) as [<- | Hne]; [done |].
    by rewrite lookup_delete_ne in Hb'.
Qed.

Lemma owns_not_fresh s m :
  store_ok s → owns s m → p_blk (buffer_ m) ≠ Some (next_block s).
Proof.
  intros Hok [[-> _] | (b & -> & _ & Hlen)]; simpl; [done |].
  intros [= ->]. assert (is_Some (blocks s !! next_block s)) as Hs.
  { apply block_len_is_Some. by rewrite Hlen. }
  rewrite fresh_block_unused in Hs by done. by destruct Hs.
Qed.

(** A slot of a block that exists lies below the length of the block. *)
Lemma slot_below_block_len s b n k :
  block_len s b = Some n → is_Some (slot_at s (ptr_add (Ptr (Some b) 0) k)) →
  0 ≤ k < Z.of_nat n.
Proof.
  intros Hlen (b' & n' & Hb & Hlen' & Hk)%slot_at_is_Some. simpl in *.
  injection Hb as <-. rewrite Hlen in Hlen'. injection Hlen' as <-. lia.
Qed.

(** The block of a reallocating insertion: when it has a slot for the
    element after the last of the old ones, its byte count did not wrap
    around and it has all the slots asked for. *)
Lemma realloc_block_full size c :
  0 ≤ size → c = Z.max 1 (2 * size) →
  size < Z.of_nat (allocated_slots c) →
  allocated_slots c = Z.to_nat c.
Proof.
  intros Hsize -> Hroom. pose proof size_of_range as [Hz HzM].
  destruct (decide (size = 0)) as [-> | Hne].
  - apply allocated_slots_exact; simpl; lia.
  - replace (Z.max 1 (2 * size)) with (2 * size) in * by lia.
    apply allocated_slots_exact; [lia |].
    apply allocated_slots_double; [lia | done].
Qed.

Lemma Emplace_Ok v s xs i args it v' s' :
  represents s v xs →
  0 ≤ i ≤ Z.of_nat (length xs) →
  keeps_elements s v args →
  Vector.Emplace grants (ptr_add (Vector.begin v) i) args (v, s) = Ok it (v', s') →
  ∃ x,
    represents s' v' (take (Z.to_nat i) xs ++ x :: drop (Z.to_nat i) xs) ∧
    it = ptr_add (Vector.begin v') i ∧
    (outside s v args → arg_value s args x) ∧
    (∀ q, p_blk q ≠ p_blk (Vector.begin v) → is_Some (slot_at s q) →
          ¬ moved_from args q → slot_at s' q = slot_at s q) ∧
    (Vector.begin v' = Vector.begin v ∨
     Vector.begin v' = Ptr (Some (next_block s)) 0) ∧
    (next_block s ≤ next_block s')%nat.
Proof.
  intros [Hsize Hinv Howns Hxs Hok] Hi Hkeeps E.
  pose proof (Emplace_Ok_fields grants _ _ _ _ _ _ _ Hinv E) as [Hit Hfields].
  unfold Vector.begin, RawMemory.GetAddress in *. simpl in Hit.
  replace (p_off (buffer_ (data_ v)) + i - p_off (buffer_ (data_ v))) with i in Hit by lia.
  destruct Hinv as [Hsz Hcap].
  assert (wrap i = i) as Hwi by (apply wrap_small; lia).
  unfold Vector.Emplace in E. inv_step E. simpl in E. inv_step E. inv_step E.
  unfold RawMemory.Capacity, Vector.begin, RawMemory.GetAddress in *.
  assert (a = i) as ->.
  { unfold ptr_distance in Hsome. simpl in Hsome.
    rewrite decide_True in Hsome by done. injection Hsome as <-. lia. }
  clear Hsome.
  destruct (_ || _) eqn:Hfull in Hrun.
  - (* reallocation *)
    destruct Hfields as [(_ & _ & ?) | (Hfull' & Hsize' & Hcap' & Hcap'lt)].
    { apply orb_true_iff in Hfull as [Hlt%Z.ltb_lt | Heq%Z.eqb_eq]; [| lia].
      pose proof (wrap_range (size_ v + 1)). 
      destruct (wrap_eq (size_ v + 1)) as [k Hk]. rewrite SIZE_MODULUS_eq in *. lia. }
    inv_run.
    repeat match goal with
           | H : ptr_distance _ _ = Some _ |- _ =>
               unfold ptr_distance in H; simpl in H;
               rewrite decide_True in H by done; injection H as <-
           end.
    replace (p_off (buffer_ (data_ v)) + i - p_off (buffer_ (data_ v)))
      with i in * by lia.
    replace (p_off (buffer_ (data_ v)) + size_ v - (p_off (buffer_ (data_ v)) + i))
      with (size_ v - i) in * by lia.
    rewrite Hwi, (wrap_small (i + 1)), (wrap_small (size_ v - i)) in * by lia.
    set (buf := buffer_ (data_ v)) in *.
    set (new_capacity := if size_ v =? 0 then 1 else wrap (size_ v * 2)) in *.
    lazymatch goal with
    | H : RawMemory.sized _ _ _ = Ok _ _ |- _ =>
        pose proof (sized_Ok _ _ _ _ _ H) as [Hnew _];
        apply sized_fresh in H as (-> & Hnext1 & Hlen1 & Hblocks1 & Hok1);
        [| done | simpl in Hnew; lia]
    end.
    simpl in *.
    set (nbuf := Ptr (Some (next_block s)) 0) in *.
    assert (p_blk buf ≠ p_blk nbuf) as Hblk by by apply owns_not_fresh.
    assert (∀ q, p_blk q ≠ p_blk nbuf → slot_at s2 q = slot_at s q) as Hq1.
    { intros q Hq. apply blocks_frame_slot. intros b Hb. apply Hblocks1.
      intros ->. by apply Hq. }
    assert (∀ q, moved_from args q → p_blk q ≠ p_blk buf ∧ p_blk q ≠ p_blk nbuf)
      as Hmoved.
    { intros q [Hq Hqb]%Hkeeps. split; [done |]. by apply slot_at_not_fresh. }
    lazymatch goal with
    | H2 : Vector.UninitCopyOrMove buf i nbuf _ = Ok _ _,
      H3 : ConstructElement (ptr_add nbuf i) args _ = Ok _ _,
      H4 : Vector.UninitCopyOrMove (ptr_add buf i) _ _ _ = Ok _ _,
      H5 : destroy_n buf _ _ = Ok _ _ |- _ =>
        rewrite Hsize in H4, H5;
        destruct (insert_realloc_Ok buf nbuf xs i args _ _ _ _ _ _ _ _ _
                    Hblk Hi ltac:(eapply array_at_frame; [| exact Hxs];
                                  intros q [Hq _]; apply Hq1; congruence)
                    Hmoved H2 H3 H4 H5)
          as (x & Hshape & Hxs' & Hframe & Hval)
    end.
    lazymatch goal with
    | H : RawMemory.destructor _ _ = Ok _ _ |- _ =>
        apply destructor_frame in H as (Hnext' & Hblocks' & Hok')
    end.
    simpl in *.
    assert (∀ q, p_blk q ≠ p_blk buf → slot_at s3 q = slot_at s0 q) as Hq'.
    { intros q Hq. apply blocks_frame_slot. intros b Hb. apply Hblocks'.
      congruence. }
    assert (allocated_slots new_capacity = Z.to_nat new_capacity) as Hwhole.
    { apply (realloc_block_full (size_ v)); [lia | simpl in Hnew; lia |].
      assert (is_Some (slot_at s0 (ptr_add nbuf (Z.of_nat (length xs))))) as Hlast.
      { destruct (lookup_lt_is_Some_2
                    (take (Z.to_nat i) xs ++ x :: drop (Z.to_nat i) xs) (length xs))
          as [y Hy].
        { rewrite length_app, length_take. simpl. rewrite length_drop. lia. }
        rewrite (Hxs' _ _ Hy). done. }
      destruct Hshape as [_ Hlen]. specialize (Hlen (next_block s)).
      rewrite Hlen1 in Hlen.
      pose proof (slot_below_block_len _ _ _ _ Hlen Hlast). lia. }
    exists x. split; [| split; [done | split; [| split; [| split]]]].
    + split; simpl.
      * rewrite Hsize', Hsize. rewrite length_app, length_take. simpl.
        rewrite length_drop. lia.
      * unfold size_invariant. simpl. lia.
      * right. exists (next_block s). split; [done |]. simpl. split; [lia |].
        unfold block_len. rewrite Hblocks' by (intros ?; by apply Hblk).
        destruct Hshape as [_ Hlen]. specialize (Hlen (next_block s)).
        unfold block_len in Hlen. rewrite Hlen.
        fold (block_len s2 (next_block s)). rewrite Hlen1. by rewrite Hwhole.
      * eapply array_at_frame; [| exact Hxs'].
        intros q [Hq _]. apply Hq'. simpl in Hq. congruence.
      * apply Hok'. by eapply same_shape_store_ok.
    + intros Hout.
      assert (arg_value s2 args x) as Hv.
      { apply Hval. intros q [Hq Hqb]%Hout. split; [done |].
        by apply slot_at_not_fresh. }
      destruct args as [p|p|r]; simpl in *; [| | done];
        rewrite <- Hv; symmetry; apply Hq1;
        by apply slot_at_not_fresh, Hout.
    + intros q Hqb Hq Hm. rewrite Hq' by done.
      rewrite Hframe; [by apply Hq1, slot_at_not_fresh | done | | done].
      by apply slot_at_not_fresh.
    + by right.
    + destruct Hshape as [Hn _]. lia.
  - (* in place *)
    apply orb_false_iff in Hfull as [Hge%Z.ltb_ge Hne%Z.eqb_neq].
    destruct Hfields as [(Hdata & Hsize' & Hlt) | (? & _)]; [| done].
    assert (wrap (size_ v + 1) = size_ v + 1) as Hw by (apply wrap_small; lia).
    set (buf := buffer_ (data_ v)) in *.
    assert (∀ q, moved_from args q → p_blk q ≠ p_blk buf) as Hmoved.
    { by intros q [_ ?]%Hkeeps. }
    assert (∀ s1, same_shape s s1 → owns s1 (data_ v)) as Howns'.
    { intros s1 [_ Hlen]. destruct Howns as [? | (b & ? & ? & Hb)]; [by left |].
      right. exists b. by rewrite Hlen. }
    inv_run.
    lazymatch goal with
    | H : ptr_lt _ _ = Some _ |- _ =>
        unfold ptr_lt in H; simpl in H; rewrite decide_True in H by done;
        injection H as <-
    end.
    rewrite Hwi, Hsize in *. fold buf in Hrun0.
    destruct (Z.ltb_spec (p_off buf + i) (p_off buf + Z.of_nat (length xs)))
      as [Hmid | Hend]; inv_run.
    + (* before the end *)
      lazymatch goal with
      | H : construct_from args s = Ok ?x _ |- _ =>
          apply construct_from_args_Ok in H as (Hs0 & Hq0 & Hval); exists x
      end.
      lazymatch goal with
      | H1 : ConstructElement _ (ByMove _) ?s0 = Ok _ _,
        H2 : move_backward _ _ _ _ = Ok _ _,
        H3 : assign_move_local _ _ _ = Ok _ ?sf |- _ =>
          destruct (insert_in_place_Ok buf xs i _ s0 _ _ _ _ _ _
                      ltac:(lia)
                      ltac:(eapply array_at_frame; [| exact Hxs];
                            intros q [Hq _]; apply Hq0;
                            intros Hm%Hmoved; congruence)
                      H1 H2 H3)
            as (Hshape & Hxs' & Hframe);
          assert (same_shape s sf) as Hss by by eapply same_shape_trans
      end.
      split; [| split; [done | split; [| split; [| split]]]].
      * split; simpl.
        -- rewrite Hw. rewrite length_app, length_take. simpl.
           rewrite length_drop. lia.
        -- unfold size_invariant. simpl. lia.
        -- by apply Howns'.
        -- done.
        -- by eapply same_shape_store_ok.
      * intros _. destruct args as [p|p|r]; simpl in *; done.
      * intros q Hqb _ Hm. rewrite Hframe; [by apply Hq0 |].
        clear -Hqb. intros [Hq _]. congruence.
      * by left.
      * destruct Hss as [-> _]. done.
    + (* at the end *)
      assert (i = Z.of_nat (length xs)) as -> by lia.
      lazymatch goal with
      | H : ConstructElement _ args s = Ok _ _ |- _ =>
          destruct (insert_at_end_Ok buf xs args _ _ _ Hxs Hmoved H)
            as (x & Hshape & Hxs' & Hframe & Hval)
      end.
      exists x. rewrite Nat2Z.id, take_ge, drop_ge by lia.
      split; [| split; [done | split; [| split; [| split]]]].
      * split; simpl.
        -- rewrite Hw. rewrite length_app. simpl. lia.
        -- unfold size_invariant. simpl. lia.
        -- by apply Howns'.
        -- done.
        -- by eapply same_shape_store_ok.
      * done.
      * intros q Hqb _ Hm. apply Hframe; [| done].
        intros ->. by apply Hqb.
      * by left.
      * destruct Hshape as [-> _]. done.
Qed.

End EmplaceSpec.

(** ** Removal *)

Section EraseSpec.

Context {T : Type} {ops : ElemOps T} {lawful : LawfulElem T}.
Implicit Types (s : Store T) (p q : ptr) (xs : list T) (v : Vector).

(** The shift of [Erase]: the elements after the position move one slot
    to the left, and the last slot stays live. *)
Lemma erase_shift_Ok buf xs i s u s' :
  let n := Z.of_nat (length xs) in
  let place := ptr_add buf i in
  0 ≤ i < n →
  array_at s buf xs →
  std_move (ptr_add place 1) (ptr_add buf n) place s = Ok u s' →
  same_shape s s' ∧
  array_at s' buf (take (Z.to_nat i) xs ++ drop (Z.to_nat (i + 1)) xs) ∧
  (∀ q, ¬ in_range buf n q → slot_at s' q = slot_at s q).
Proof.
  intros n place Hi Hxs Hrun.
  set (xs' := drop (Z.to_nat (i + 1)) xs).
  assert (Z.of_nat (length xs') = n - (i + 1)) as Hlen'.
  { unfold xs'. rewrite length_drop. lia. }
  assert (array_at s (ptr_add place 1) xs') as Hsrc.
  { unfold place. rewrite ptr_add_add. intros k z Hk. unfold xs' in Hk.
    rewrite lookup_drop in Hk. rewrite ptr_add_add.
    replace (i + 1 + Z.of_nat k) with (Z.of_nat (Z.to_nat (i + 1) + k)) by lia.
    by apply Hxs. }
  assert (same_shape s s' ∧ array_at s' place xs' ∧
          (∀ q, ¬ in_range place (Z.of_nat (length xs') + 1) q →
                slot_at s' q = slot_at s q)) as (Hs & Hd & Hq).
  { unfold std_move in Hrun.
    apply bind_Ok in Hrun as (d & s1 & [Hd ->]%of_option_Ok & Hrun).
    apply bind_Ok in Hrun as (ua & s1 & [_ ->]%assert_Ok & Hrun).
    assert (d = Z.of_nat (length xs')) as ->.
    { unfold ptr_distance, place in Hd. simpl in Hd.
      rewrite decide_True in Hd by done. injection Hd as <-. lia. }
    rewrite Nat2Z.id in Hrun.
    apply move_loop_shift_Ok in Hrun as (? & ? & ? & _); done. }
  split; [done |]. split.
  - apply array_at_app. rewrite length_take, Nat.min_l, Z2Nat.id by lia. split.
    + intros k z Hk. apply lookup_take_Some in Hk as [Hk Hlt].
      rewrite Hq by (unfold place; clear -Hlt Hi; ptr_cases). by apply Hxs.
    + done.
  - intros q Hnq. apply Hq. unfold place. clear -Hnq Hi Hlen'. ptr_cases.
Qed.

(** For an element type that is relocated by copy, [Erase] does not
    compile: no call of it has a behaviour. *)
Lemma Erase_ill_formed pos (st : Vector * Store T) :
  relocates_by_move = false → Vector.Erase pos st = Fault.
Proof.
  unfold relocates_by_move. intros Hpolicy.
  unfold Vector.Erase, bind, Vector.this. rewrite Hpolicy.
  unfold of_option. by destruct (ptr_distance _ _).
Qed.

(** A returning [Erase] is the shift of the later elements by move
    assignment, followed by [PopBack]. *)
Lemma Erase_steps v s i it v' s' :
  Vector.Erase (ptr_add (Vector.begin v) i) (v, s) = Ok it (v', s') →
  let place := ptr_add (Vector.begin v) i in
  relocates_by_move = true ∧
  it = place ∧
  ∃ s1,
    std_move (ptr_add place 1) (ptr_add (Vector.begin v) (size_ v)) place s
      = Ok tt s1 ∧
    Vector.PopBack (v, s1) = Ok tt (v', s').
Proof.
  intros E place. unfold Vector.Erase in E.
  apply bind_Ok in E as (v0 & st0 & [-> ->]%this_Ok & E). simpl in E.
  apply bind_Ok in E as (d & st0 & [Hd ->]%of_option_Ok & E).
  assert (d = i) as ->.
  { unfold ptr_distance in Hd. simpl in Hd.
    rewrite decide_True in Hd by done. injection Hd as <-. lia. }
  apply bind_Ok in E as (u & st1 & Hshift & E).
  apply bind_Ok in E as ([] & st2 & Hpop & [-> ->]%ret_Ok).
  fold place in Hshift.
  unfold relocates_by_move. destruct (_ || _); [| discriminate Hshift].
  split; [done |]. split; [done |].
  apply bind_Ok in Hshift as (e & st & (_ & -> & ->)%plus_Ok & Hshift).
  apply mem_Ok in Hshift as (s1 & Hshift & ->). destruct u.
  exists s1. split; [exact Hshift | exact Hpop].
Qed.

Lemma Erase_Ok v s xs i it v' s' :
  represents s v xs →
  0 ≤ i < Z.of_nat (length xs) →
  Vector.Erase (ptr_add (Vector.begin v) i) (v, s) = Ok it (v', s') →
  represents s' v' (take (Z.to_nat i) xs ++ drop (Z.to_nat (i + 1)) xs) ∧
  v' = MkVector (data_ v) (size_ v - 1) ∧
  it = ptr_add (Vector.begin v') i ∧
  slot_at s' (ptr_add (Vector.begin v) (size_ v - 1)) = Some None ∧
  (∀ q, ¬ in_range (Vector.begin v) (size_ v) q → slot_at s' q = slot_at s q).
Proof.
  intros [Hsize Hinv Howns Hxs Hok] Hi E.
  pose proof (Erase_Ok_fields _ _ _ _ _ _ Hinv E) as [Hpos ->].
  destruct Hinv as [Hsz Hcap].
  apply Erase_steps in E as (_ & -> & s1 & Hshift & Hpop).
  unfold Vector.begin, RawMemory.GetAddress in *. simpl.
  set (buf := buffer_ (data_ v)) in *. rewrite Hsize in Hshift.
  apply erase_shift_Ok in Hshift as (Hs1 & Hxs1 & Hq1); [| lia | done].
  unfold Vector.PopBack in Hpop.
  apply bind_Ok in Hpop as (v0 & st0 & [-> ->]%this_Ok & Hpop). simpl in Hpop.
  apply bind_Ok in Hpop as (u0 & st0 & [_ ->]%assert_Ok & Hpop).
  apply bind_Ok in Hpop as (p & st0 & (_ & -> & ->)%plus_Ok & Hpop).
  apply bind_Ok in Hpop as (u1 & st0 & (s2 & Hdestroy & ->)%mem_Ok & Hpop).
  apply set_size_Ok in Hpop. simpl in Hpop. injection Hpop as _ <-.
  rewrite (wrap_small (size_ v - 1)) in Hdestroy by lia.
  apply Destroy_Ok in Hdestroy as [_ [Hs2 Hq2]]. fold buf in Hq2.
  split; [| split; [done | split; [done | split]]].
  - split; simpl.
    + rewrite length_app, length_take, length_drop. lia.
    + unfold size_invariant. simpl. lia.
    + destruct Hs1 as [_ Hl1], Hs2 as [_ Hl2].
      destruct Howns as [? | (b & ? & ? & Hb)]; [by left |].
      right. exists b. by rewrite Hl2, Hl1.
    + eapply array_at_frame; [| exact Hxs1].
      intros q Hq. rewrite length_app, length_take, length_drop in Hq.
      rewrite Hq2, decide_False; [done |]. fold buf in Hq.
      clear -Hq Hi Hsize. ptr_cases.
    + eapply same_shape_store_ok; [exact Hs2 |]. by eapply same_shape_store_ok.
  - by rewrite Hq2, decide_True.
  - intros q Hq. rewrite Hq2, decide_False.
    + apply Hq1. by rewrite <- Hsize.
    + clear -Hq Hpos. ptr_cases.
Qed.

End EraseSpec.

(** ** Exceptions *)

Section Exceptions.

Context {T : Type} {ops : ElemOps T} {lawful : LawfulElem T}.
Variable grants : Store T → Z → bool.
Implicit Types (s : Store T) (p q : ptr) (xs : list T) (v : Vector).

Lemma preserved_refl s : store_ok s → preserved s s.
Proof. by split. Qed.

Lemma owns_allocated s m b :
  owns s m → p_blk (buffer_ m) = Some b → is_Some (blocks s !! b).
Proof.
  intros [[-> _] | (b' & -> & _ & Hlen)]; simpl; [done |].
  intros [= ->]. apply block_len_is_Some. by rewrite Hlen.
Qed.

Lemma represents_preserved s s' v xs :
  represents s v xs → preserved s s' → represents s' v xs.
Proof.
  intros [Hsize Hinv Howns Hxs Hok] [Hok' Hsame]. split; try done.
  - destruct Howns as [? | (b & Hb & ? & Hlen)]; [by left |].
    right. exists b. split; [done |]. split; [done |].
    unfold block_len in *. rewrite Hsame; [done |].
    apply block_len_is_Some. unfold block_len. by rewrite Hlen.
  - intros i x Hi. specialize (Hxs i x Hi). rewrite <- Hxs.
    apply blocks_frame_slot. intros b Hb. apply Hsame.
    eapply slot_at_allocated; [by rewrite Hxs | done].
Qed.

Lemma read_range_array s p xs :
  array_at s p xs → read_range s p (length xs) = Some xs.
Proof.
  intros Hxs. unfold read_range. apply mapM_Some.
  apply Forall2_same_length_lookup. split; [by rewrite length_seq |].
  intros i k x Hk Hx. apply lookup_seq in Hk as [-> _]. simpl.
  by rewrite (Hxs i x Hx).
Qed.

Lemma represents_contents s v xs : represents s v xs → contents s v = Some xs.
Proof.
  intros [Hsize _ _ Hxs _]. unfold contents, Vector.begin, RawMemory.GetAddress.
  rewrite Hsize, Nat2Z.id. by apply read_range_array.
Qed.

Lemma writes_uninitialized_copy_n first count d_first :
  writes (T := T) (λ q, p_blk q = p_blk d_first)
    (uninitialized_copy_n first count d_first).
Proof.
  unfold uninitialized_copy_n. apply writes_uninitialized_loop; [lia | done |].
  intros k q _ [].
Qed.

(** A copy into freshly allocated storage that throws, followed by the
    release of that storage, leaves every block of the store as it was. *)
Lemma copy_into_fresh_Throw capacity s m s1 first count e st u s' :
  store_ok s →
  RawMemory.sized grants capacity s = Ok m s1 →
  uninitialized_copy_n first count (buffer_ m) s1 = Throw e st →
  RawMemory.destructor m st = Ok u s' →
  preserved s s'.
Proof.
  intros Hok Hsized Hloop Hdtor.
  eapply writes_Throw in Hloop; [| apply writes_uninitialized_copy_n].
  apply destructor_frame in Hdtor as (_ & Hblocks' & Hok').
  destruct (decide (capacity = 0)) as [-> | Hne].
  - apply sized_Ok in Hsized as [_ [(_ & Hbuf & ->) | (? & _)]]; [| done].
    rewrite Hbuf in *. split.
    + apply Hok'. eapply same_shape_store_ok; [| exact Hok]. by destruct Hloop.
    + intros b Hb. rewrite Hblocks' by done.
      eapply modifies_block; [exact Hloop |]. simpl. congruence.
  - apply sized_fresh in Hsized as (-> & Hnext1 & Hlen1 & Hblocks1 & Hok1);
      [| done | done].
    simpl in *. split.
    + apply Hok'. eapply same_shape_store_ok; [| exact Hok1]. by destruct Hloop.
    + intros b Hb.
      assert (b ≠ next_block s) as Hfresh.
      { intros ->. rewrite fresh_block_unused in Hb by done. by destruct Hb. }
      rewrite Hblocks' by congruence.
      rewrite <- Hblocks1 by done.
      eapply modifies_block; [exact Hloop |]. simpl. congruence.
Qed.

Lemma copy_constructor_Throw other s e s' :
  store_ok s →
  Vector.copy_constructor grants other s = Throw e s' → preserved s s'.
Proof.
  intros Hok E. unfold Vector.copy_constructor in E. inv_run.
  - apply sized_Throw in E as [_ ->]. by apply preserved_refl.
  - eapply copy_into_fresh_Throw; eauto.
Qed.

Lemma Reserve_copy_Throw n v s e v' s' :
  is_nothrow_move_constructible || negb is_copy_constructible = false →
  store_ok s →
  Vector.Reserve grants n (v, s) = Throw e (v', s') →
  v' = v ∧ preserved s s'.
Proof.
  intros Hpolicy Hok E.
  pose proof (Reserve_Throw_fields _ _ _ _ _ _ _ E) as ->. split; [done |].
  unfold Vector.Reserve in E. inv_step E. simpl in E.
  destruct (_ <=? _) in E; inv_run.
  - apply sized_Throw in E as [_ ->]. by apply preserved_refl.
  - unfold Vector.UninitCopyOrMove in *. rewrite Hpolicy in *.
    eapply copy_into_fresh_Throw; eauto.
Qed.

Lemma copy_assignment_realloc_Throw rhs v s e v' s' :
  Vector.Capacity v < Vector.Size rhs →
  store_ok s →
  Vector.copy_assignment grants (Other rhs) (v, s) = Throw e (v', s') →
  v' = v ∧ preserved s s'.
Proof.
  intros Hlt Hok E.
  pose proof (copy_assignment_Throw_fields _ _ _ _ _ _ _ E) as ->. split; [done |].
  unfold Vector.copy_assignment in E. inv_step E. simpl in E.
  unfold Vector.Size in Hlt.
  destruct (Z.leb_spec (size_ rhs) (Vector.Capacity v)) as [? | _]; [lia |].
  inv_run; [by eapply copy_constructor_Throw | discriminate |].
  unfold Vector.Swap in *. simplify_eq. simpl in *.
  unfold Vector.destructor in *. inv_run.
Qed.

End Exceptions.

(** ** Sequences of PushBack *)

Section PushBackSpec.

Context {T : Type} {ops : ElemOps T} {lawful : LawfulElem T}.
Variable grants : Store T → Z → bool.
Implicit Types (s : Store T) (p q : ptr) (xs : list T) (v : Vector).

Lemma EmplaceBack_Ok v s xs args it v' s' :
  represents s v xs →
  keeps_elements s v args →
  Vector.EmplaceBack grants args (v, s) = Ok it (v', s') →
  ∃ x,
    represents s' v' (xs ++ [x]) ∧
    (outside s v args → arg_value s args x) ∧
    (∀ q, p_blk q ≠ p_blk (Vector.begin v) → is_Some (slot_at s q) →
          ¬ moved_from args q →
          slot_at s' q = slot_at s q ∧ p_blk q ≠ p_blk (Vector.begin v')).
Proof.
  intros Hrep Hkeeps E. unfold Vector.EmplaceBack in E. inv_run.
  pose proof (rep_size _ _ _ Hrep) as Hsize.
  pose proof (rep_store _ _ _ Hrep) as Hok.
  rewrite Hsize in E.
  eapply (Emplace_Ok grants v s xs (Z.of_nat (length xs))) in E
    as (x & Hrep' & _ & Hval & Hframe & Hbuf & _); [| done | lia | done].
  rewrite Nat2Z.id, take_ge, drop_ge in Hrep' by lia.
  exists x. split; [done |]. split; [done |].
  intros q Hqb Hq Hm. split; [by apply Hframe |].
  destruct Hbuf as [-> | ->]; [done |]. by apply slot_at_not_fresh.
Qed.

Lemma pushes_length s (cs : list (Call T)) xs :
  pushes s cs xs → length cs = length xs.
Proof. induction 1; simpl; congruence. Qed.

Lemma pushes_valid s (cs : list (Call T)) xs :
  pushes s cs xs →
  Forall (λ c, ∀ p, pushes_object c p → is_Some (slot_at s p)) cs.
Proof.
  induction 1 as [| p x cs xs Hp _ IH | p x cs xs Hp _ _ IH];
    constructor; try done;
    intros q [[= ->] | [= ->]]; by rewrite Hp.
Qed.

Lemma pushes_frame s s' (cs : list (Call T)) xs :
  pushes s cs xs →
  Forall (λ c, ∀ p, pushes_object c p → slot_at s' p = slot_at s p) cs →
  pushes s' cs xs.
Proof.
  induction 1 as [| p x cs xs Hp _ IH | p x cs xs Hp Hfresh _ IH];
    intros Hsame; [constructor | |];
    apply Forall_cons in Hsame as [Hp' Hsame].
  - constructor; [| by apply IH]. rewrite Hp'; [done | by left].
  - constructor; [| done | by apply IH]. rewrite Hp'; [done | by right].
Qed.

(** One [PushBack] of a sequence: the container gains the value pushed,
    and the objects still to be pushed are as they were, outside the block
    the container has now. *)
Lemma push_step c cs xs v s ys u v1 s1 :
  represents s v ys →
  pushes s (c :: cs) xs →
  Forall (λ c, ∀ p, pushes_object c p → p_blk p ≠ p_blk (Vector.begin v)) (c :: cs) →
  run_call grants c (v, s) = Ok u (v1, s1) →
  ∃ x xs',
    xs = x :: xs' ∧ represents s1 v1 (ys ++ [x]) ∧ pushes s1 cs xs' ∧
    Forall (λ c, ∀ p, pushes_object c p → p_blk p ≠ p_blk (Vector.begin v1)) cs.
Proof.
  intros Hrep Hpush Hout E1.
  apply Forall_cons in Hout as [Hc Hout].
  pose proof (pushes_valid _ _ _ Hpush) as Hvalid.
  apply Forall_cons in Hvalid as [_ Hvalid].
  assert (∃ x xs' args p,
    xs = x :: xs' ∧ pushes s cs xs' ∧ slot_at s p = Some (Some x) ∧
    pushes_object c p ∧ (args = ByCopy p ∨ args = ByMove p) ∧
    (∀ q, moved_from args q → Forall (λ c, ¬ pushes_object c q) cs) ∧
    ∃ it, Vector.EmplaceBack grants args (v, s) = Ok it (v1, s1))
    as (x & xs' & args & p & -> & Hpush' & Hp & Hcp & Hargs & Hmoved & it & E1').
  { inversion Hpush as [| p x cs' xs' Hp Hpush' | p x cs' xs' Hp Hfresh Hpush'];
      subst; simpl in E1;
      unfold Vector.PushBack, Vector.PushBack_move in E1; inv_run.
    - exists x, xs', (ByCopy p), p. split_and!; try done; [by left | by left | eauto].
    - exists x, xs', (ByMove p), p.
      split_and!; try done; [by right | by right | | eauto].
      by intros q ->. }
  assert (∀ q, refers_to args q → q = p) as Honly
    by (by destruct Hargs as [-> | ->]).
  assert (p_blk p ≠ p_blk (Vector.begin v)) as Hpb.
  { by apply Hc. }
  eapply EmplaceBack_Ok in E1' as (x' & Hrep1 & Hval & Hframe); [| done |].
  2:{ intros q Hq%moved_from_refers_to%Honly. subst q.
      split; [by rewrite Hp | done]. }
  assert (x' = x) as ->.
  { assert (arg_value s args x') as Hv.
    { apply Hval. intros q ->%Honly. split; [by rewrite Hp | done]. }
    destruct Hargs as [-> | ->]; simpl in *; congruence. }
  assert (Forall (λ c, ∀ q, pushes_object c q →
                       slot_at s1 q = slot_at s q ∧
                       p_blk q ≠ p_blk (Vector.begin v1)) cs) as Htail.
  { apply Forall_forall. intros c' Hc' q Hq.
    rewrite Forall_forall in Hout, Hvalid. apply Hframe.
    - by eapply Hout.
    - by eapply Hvalid.
    - intros Hm. apply Hmoved in Hm. rewrite Forall_forall in Hm.
      by apply (Hm c' Hc'). }
  exists x, xs'. split; [done |]. split; [done |]. split.
  - eapply pushes_frame; [exact Hpush' |].
    eapply Forall_impl; [exact Htail |]. intros c' H' q Hq. by apply H'.
  - eapply Forall_impl; [exact Htail |]. intros c' H' q Hq. by apply H'.
Qed.

Lemma push_sequence cs : ∀ xs v s ys u v' s',
  represents s v ys →
  pushes s cs xs →
  Forall (λ c, ∀ p, pushes_object c p → p_blk p ≠ p_blk (Vector.begin v)) cs →
  run_calls grants cs (v, s) = Ok u (v', s') →
  represents s' v' (ys ++ xs).
Proof.
  induction cs as [| c cs IH]; intros xs v s ys u v' s' Hrep Hpush Hout E.
  - inversion Hpush; subst. simpl in E. inv_run. by rewrite app_nil_r.
  - simpl in E. apply bind_Ok in E as (u1 & [v1 s1] & E1 & E).
    destruct (push_step _ _ _ _ _ _ _ _ _ Hrep Hpush Hout E1)
      as (x & xs' & -> & Hrep1 & Hpush1 & Hout1).
    replace (ys ++ x :: xs') with ((ys ++ [x]) ++ xs') by by rewrite <- app_assoc.
    by eapply IH.
Qed.

End PushBackSpec.

(** ** Concrete stores *)

Global Instance int_lawful : LawfulElem Z (ops := int_ops).
Proof.
  split; simpl; try (intros; congruence). intros _ x. by exists (x, x).
Qed.

Global Instance fragile_lawful : LawfulElem Z (ops := fragile_ops).
Proof.
  split; simpl; try (intros; congruence); try discriminate.
  - intros x y. destruct (x =? 13); congruence.
  - intros x y r. destruct (x =? 13); congruence.
Qed.

Global Instance string_like_lawful : LawfulElem Z (ops := string_like_ops).
Proof.
  split; simpl; try (intros; congruence). intros _ x. by exists (x, 0).
Qed.

Section Concrete.

Context {T : Type} {ops : ElemOps T}.
Implicit Types (s : Store T) (v : Vector) (xs : list T).

Lemma store_ok_check s :
  bool_decide (map_Forall (λ b _, (b < next_block s)%nat) (blocks s)) = true →
  store_ok s.
Proof.
  intros Hall%bool_decide_eq_true b [D Hb]. by apply (Hall b D).
Qed.

Lemma array_at_of_read_range s p xs :
  read_range s p (length xs) = Some xs → array_at s p xs.
Proof.
  unfold read_range. intros Hall%mapM_Some i x Hi.
  eapply Forall2_lookup_lr in Hall; [| by apply lookup_seq; split;
    [done | by eapply lookup_lt_Some] | exact Hi].
  simpl in Hall. by destruct (slot_at s (ptr_add p (Z.of_nat i))) as [[y |] |];
    simplify_eq/=.
Qed.

(** A container described by what can be computed from it. *)
Lemma represents_intro s v xs b :
  buffer_ (data_ v) = Ptr (Some b) 0 →
  size_ v = Z.of_nat (length xs) →
  size_ v ≤ capacity_ (data_ v) < 2 ^ 64 →
  block_len s b = Some (Z.to_nat (capacity_ (data_ v))) →
  contents s v = Some xs →
  bool_decide (map_Forall (λ b _, (b < next_block s)%nat) (blocks s)) = true →
  represents s v xs.
Proof.
  intros Hbuf Hsize Hcap Hlen Hxs Hok. split.
  - done.
  - unfold size_invariant. rewrite SIZE_MODULUS_eq. lia.
  - right. exists b. split; [done |]. split; [lia | done].
  - apply array_at_of_read_range. unfold contents, Vector.begin in Hxs.
    by rewrite Hsize, Nat2Z.id in Hxs.
  - by apply store_ok_check.
Qed.

Lemma represents_default s :
  bool_decide (map_Forall (λ b _, (b < next_block s)%nat) (blocks s)) = true →
  represents s Vector.default [].
Proof.
  intros Hok. split.
  - done.
  - unfold size_invariant, Vector.default, RawMemory.default. simpl.
    rewrite SIZE_MODULUS_eq. lia.
  - by left.
  - apply array_at_nil.
  - by apply store_ok_check.
Qed.

End Concrete.

(** ** Runs without undefined behaviour *)

(** [outcome r Q R]: the run [r] did not fault; it returned in a state
    satisfying [Q], or threw in a state satisfying [R]. *)
Section Outcomes.

Context {S : Type}.

Lemma outcome_mono {A} (r : Res S A) (Q Q' : A → S → Prop) (R R' : exn → S → Prop) :
  outcome r Q R → (∀ a s, Q a s → Q' a s) → (∀ e s, R e s → R' e s) →
  outcome r Q' R'.
Proof. destruct r; simpl; auto. Qed.

Lemma outcome_no_fault {A} (r : Res S A) Q R : outcome r Q R → r ≠ Fault.
Proof. by destruct r. Qed.

Lemma outcome_Ok {A} (r : Res S A) Q R a s : outcome r Q R → r = Ok a s → Q a s.
Proof. by intros H ->. Qed.

Lemma outcome_Throw {A} (r : Res S A) Q R e s : outcome r Q R → r = Throw e s → R e s.
Proof. by intros H ->. Qed.

Lemma outcome_after {A} (r : Res S A) Q R (P : S → Prop) :
  outcome r Q R → after r P →
  outcome r (λ a s, Q a s ∧ P s) (λ e s, R e s ∧ P s).
Proof. by destruct r. Qed.

Lemma outcome_ret {A} (a : A) (s : S) (Q : A → S → Prop) R :
  Q a s → outcome (ret a s) Q R.
Proof. done. Qed.

Lemma outcome_bind {A B} (m : Comp S A) (k : A → Comp S B) s Q Q' R :
  outcome (m s) Q R →
  (∀ a s', m s = Ok a s' → Q a s' → outcome (k a s') Q' R) →
  outcome (bind m k s) Q' R.
Proof. unfold bind. destruct (m s); simpl; auto. Qed.

(** The rule for a step whose exception leaves the scope. *)
Lemma outcome_step {A B} (m : Comp S A) (k : A → Comp S B) s Q Q' R R' :
  outcome (m s) Q R →
  (∀ e s', R e s' → R' e s') →
  (∀ a s', m s = Ok a s' → Q a s' → outcome (k a s') Q' R') →
  outcome (bind m k s) Q' R'.
Proof. unfold bind. destruct (m s); simpl; auto. Qed.

Lemma outcome_on_exception {A} (m : Comp S A) h s Q R R' :
  outcome (m s) Q R →
  (∀ e s', m s = Throw e s' → R e s' →
           outcome (h s') (λ _ s'', R' e s'') R') →
  outcome (on_exception m h s) Q R'.
Proof.
  unfold on_exception. destruct (m s) as [a s'|e s'|]; simpl; [done | | done].
  intros HR Hh. specialize (Hh e s' eq_refl HR). by destruct (h s').
Qed.

Lemma outcome_assert (b : bool) (s : S) R :
  b = true → outcome (assert b s) (λ _ s', s' = s) R.
Proof. by intros ->. Qed.

Lemma outcome_of_option {A} (o : option A) a (s : S) R :
  o = Some a → outcome (of_option o s) (λ a' s', a' = a ∧ s' = s) R.
Proof. by intros ->. Qed.

Lemma outcome_plus (m : RawMemory) offset (s : S) R :
  offset ≤ capacity_ m →
  outcome (RawMemory.plus m offset s)
    (λ p s', p = ptr_add (buffer_ m) offset ∧ s' = s) R.
Proof.
  intros Hle. unfold RawMemory.plus, bind, assert.
  by rewrite (proj2 (Z.leb_le _ _) Hle).
Qed.

End Outcomes.

Section Safety.

Context {T : Type} {ops : ElemOps T}.
Implicit Types (s : Store T) (p q : ptr) (args : CtorArgs T).

Lemma outcome_mem {A} (m : Mem T A) (v : Vector) s Q R :
  outcome (m s) Q R →
  outcome (Vector.mem m (v, s))
    (λ a st, st.1 = v ∧ Q a st.2) (λ e st, st.1 = v ∧ R e st.2).
Proof. unfold Vector.mem. simpl. by destruct (m s). Qed.

Lemma keeps_live_refl s : keeps_live s s.
Proof. split; [apply same_shape_refl | done]. Qed.

Lemma keeps_live_trans s1 s2 s3 :
  keeps_live s1 s2 → keeps_live s2 s3 → keeps_live s1 s3.
Proof.
  intros [Hs1 Hl1] [Hs2 Hl2]. split; [by eapply same_shape_trans | auto].
Qed.

Lemma live_allocated s q : live s q → is_Some (slot_at s q).
Proof. intros [x Hx]. by rewrite Hx. Qed.

Lemma keeps_live_allocated s s' q :
  keeps_live s s' → is_Some (slot_at s q) → is_Some (slot_at s' q).
Proof. intros [Hs _] Hq. by apply (same_shape_in_bounds s s' q Hs). Qed.

Lemma keeps_live_ready s s' args : keeps_live s s' → ready s args → ready s' args.
Proof. intros [_ Hl] Hr q Hq. auto. Qed.

(** Storing an object keeps every object live. *)
Lemma updated_keeps_live s p x s' :
  updated s p (Some x) s' → keeps_live s s' ∧ live s' p.
Proof.
  intros [Hs Hq]. split; [split; [done |] |].
  - intros q [y Hy]. unfold live. rewrite Hq. case_decide; eauto.
  - exists x. rewrite Hq. by rewrite decide_True.
Qed.

Lemma set_slot_total p o s :
  is_Some (slot_at s p) → ∃ s', set_slot p o s = Ok tt s'.
Proof.
  intros (b & n & Hb & (D & HD & <-)%block_len_Some & Hoff)%slot_at_is_Some.
  unfold set_slot. rewrite Hb, HD. rewrite decide_True by done. eauto.
Qed.

Lemma outcome_set_slot p o s R :
  is_Some (slot_at s p) →
  outcome (set_slot p o s) (λ _ s', updated s p o s') R.
Proof.
  intros [s' E]%(set_slot_total p o). rewrite E. simpl.
  by apply set_slot_Ok in E as (_ & ? & ?).
Qed.

Lemma outcome_load p s R :
  live s p → outcome (load p s) (λ _ s', s' = s) R.
Proof. intros [x Hx]. unfold load. by rewrite Hx. Qed.

Lemma outcome_elem {A} (o : option A) s :
  outcome (elem o s) (λ a s', o = Some a ∧ s' = s) (λ _ s', s' = s).
Proof. by destruct o. Qed.

(** Constructing from arguments that can be read does not fault; a
    constructor that throws leaves the store as it was. *)
Lemma outcome_construct_from args s :
  ready s args →
  outcome (construct_from args s) (λ _ s', keeps_live s s') (λ _ s', s' = s).
Proof.
  intros Hready. destruct args as [p|p|r]; simpl.
  - eapply outcome_bind; [apply outcome_load, Hready; by simpl |].
    intros x s' _ ->. eapply outcome_mono; [apply outcome_elem | |]; simpl.
    + intros a s' [_ ->]. apply keeps_live_refl.
    + done.
  - assert (live s p) as Hp by (apply Hready; by simpl).
    eapply outcome_bind; [by apply outcome_load |].
    intros x s' _ ->.
    eapply outcome_bind; [apply outcome_elem |].
    intros r s' _ [_ ->].
    eapply outcome_bind;
      [apply (outcome_set_slot p (Some r.2)); by apply live_allocated |].
    intros u s' _ Hup. simpl. by apply updated_keeps_live in Hup as [? _].
  - eapply outcome_mono; [apply outcome_elem | |]; simpl.
    + intros a s' [_ ->]. apply keeps_live_refl.
    + done.
Qed.

Lemma outcome_ConstructElement buf args s :
  ready s args → is_Some (slot_at s buf) →
  outcome (ConstructElement buf args s)
    (λ _ s', keeps_live s s' ∧ live s' buf) (λ _ s', s' = s).
Proof.
  intros Hready Hbuf. unfold ConstructElement.
  eapply outcome_bind; [by apply outcome_construct_from |].
  intros x s1 _ Hs1. unfold place.
  eapply outcome_mono;
    [apply (outcome_set_slot _ _ _ (λ _ _, False));
     exact (keeps_live_allocated _ _ _ Hs1 Hbuf)
    | |]; simpl; [| done].
  intros _ s' [Hk Hl]%updated_keeps_live.
  split; [exact (keeps_live_trans _ _ _ Hs1 Hk) | done].
Qed.

Lemma Destroy_total buf s :
  live s buf → ∃ s', Destroy buf s = Ok tt s' ∧ updated s buf None s'.
Proof.
  intros [x Hx]. unfold Destroy, bind, load. rewrite Hx. simpl.
  set (s0 := MkStore (blocks s) (next_block s) (x :: destroyed s)).
  destruct (set_slot_total buf None s0) as [s' E].
  { change (slot_at s0 buf) with (slot_at s buf). by rewrite Hx. }
  exists s'. split; [done |]. by apply set_slot_Ok in E as (_ & ? & ?).
Qed.

(** Destroying a range of live objects returns. *)
Lemma destroy_loop_total p n s :
  (∀ k, 0 ≤ k < Z.of_nat n → live s (ptr_add p k)) →
  ∃ s', destroy_loop p n s = Ok tt s'.
Proof.
  revert p s. induction n as [| n IH]; intros p s Hlive; simpl; [by eexists |].
  destruct (Destroy_total p s) as (s1 & E & Hup).
  { rewrite <- (ptr_add_0 p). apply Hlive. lia. }
  unfold bind. rewrite E. apply IH. intros k Hk.
  destruct (Hlive (1 + k)) as [x Hx]; [lia |].
  exists x. rewrite ptr_add_add. destruct Hup as [_ Hq]. rewrite Hq.
  rewrite decide_False; [done |].
  destruct p as [b off]. unfold ptr_add. simpl. intros [=]. lia.
Qed.

Lemma destroy_n_total p n s :
  (∀ k, 0 ≤ k < n → live s (ptr_add p k)) → ∃ s', destroy_n p n s = Ok tt s'.
Proof. intros Hlive. apply destroy_loop_total. intros k Hk. apply Hlive. lia. Qed.

(** [std::uninitialized_*_n] does not fault when every source can be read
    and every destination slot exists; when it returns, the destination
    objects are live and no object was lost. *)
Lemma outcome_uninitialized_loop (args : Z → CtorArgs T) d_first done n s :
  0 ≤ done →
  (∀ k, done ≤ k < done + Z.of_nat n →
        ready s (args k) ∧ is_Some (slot_at s (ptr_add d_first k))) →
  (∀ k, 0 ≤ k < done → live s (ptr_add d_first k)) →
  outcome (uninitialized_loop args d_first done n s)
    (λ _ s', keeps_live s s' ∧
             ∀ k, 0 ≤ k < done + Z.of_nat n → live s' (ptr_add d_first k))
    (λ _ _, True).
Proof.
  revert done s. induction n as [| n IH]; intros done s Hdone Hargs Hlive; simpl.
  { split; [apply keeps_live_refl |]. intros k Hk. apply Hlive. lia. }
  destruct (Hargs done) as [Hready Hslot]; [lia |].
  eapply outcome_bind.
  - eapply outcome_on_exception; [by apply outcome_ConstructElement |].
    intros e s' _ ->. simpl.
    destruct (destroy_n_total d_first done s Hlive) as [s' ->]. done.
  - intros _ s1 _ [Hkeep Hnew]. simpl.
    eapply outcome_mono; [apply IH | |]; simpl; [lia | | | | done].
    + intros k Hk. destruct (Hargs k) as [Hr Hs]; [lia |]. split.
      * by eapply keeps_live_ready.
      * by eapply keeps_live_allocated.
    + intros k Hk. destruct (decide (k = done)) as [-> | Hne]; [done |].
      apply Hkeep, Hlive. lia.
    + intros _ s' [Hkeep' Hall]. split; [by eapply keeps_live_trans |].
      intros k Hk. apply Hall. lia.
Qed.

Lemma outcome_assign_copy dst src s :
  live s src → live s dst →
  outcome (assign_copy dst src s) (λ _ s', keeps_live s s') (λ _ s', s' = s).
Proof.
  intros Hsrc Hdst. unfold assign_copy.
  eapply outcome_bind; [by apply outcome_load |]. intros x s1 _ ->.
  eapply outcome_bind; [by apply outcome_load |]. intros d s1 _ ->.
  eapply outcome_bind; [apply outcome_elem |]. intros d' s1 _ [_ ->].
  eapply outcome_mono;
    [apply (outcome_set_slot _ _ _ (λ _ _, False)); by apply live_allocated | |];
    simpl; [| done].
  by intros _ s' [? _]%updated_keeps_live.
Qed.

Lemma outcome_assign_move dst src s :
  live s src → live s dst →
  outcome (assign_move dst src s) (λ _ s', keeps_live s s') (λ _ s', s' = s).
Proof.
  intros Hsrc Hdst. unfold assign_move.
  eapply outcome_bind; [by apply outcome_load |]. intros x s1 _ ->.
  eapply outcome_bind; [by apply outcome_load |]. intros d s1 _ ->.
  eapply outcome_bind; [apply outcome_elem |]. intros r s1 _ [_ ->].
  eapply outcome_bind;
    [apply (outcome_set_slot src (Some r.2)); by apply live_allocated |].
  intros _ s1 _ [Hk1 _]%updated_keeps_live.
  eapply outcome_mono;
    [apply (outcome_set_slot _ _ _ (λ _ _, False));
     apply live_allocated; by apply Hk1 | |]; simpl; [| done].
  intros _ s' [Hk2 _]%updated_keeps_live. exact (keeps_live_trans _ _ _ Hk1 Hk2).
Qed.

Lemma outcome_assign_move_local dst buff s :
  live s dst →
  outcome (assign_move_local dst buff s) (λ _ s', keeps_live s s') (λ _ s', s' = s).
Proof.
  intros Hdst. unfold assign_move_local.
  eapply outcome_bind; [by apply outcome_load |]. intros d s1 _ ->.
  eapply outcome_bind; [apply outcome_elem |]. intros r s1 _ [_ ->].
  eapply outcome_mono;
    [apply (outcome_set_slot _ _ _ (λ _ _, False)); by apply live_allocated | |];
    simpl; [| done].
  by intros _ s' [? _]%updated_keeps_live.
Qed.

(** The assignment loops of <algorithm> do not fault on ranges of live
    objects, and lose no object, whether they return or throw. *)
Lemma outcome_copy_loop first result n s :
  (∀ k, 0 ≤ k < Z.of_nat n →
        live s (ptr_add first k) ∧ live s (ptr_add result k)) →
  outcome (copy_loop first result n s)
    (λ _ s', keeps_live s s') (λ _ s', keeps_live s s').
Proof.
  revert first result s. induction n as [| n IH]; intros first result s Hlive; simpl.
  { apply keeps_live_refl. }
  destruct (Hlive 0) as [Hf Hr]; [lia |]. rewrite !ptr_add_0 in *.
  eapply outcome_bind.
  - eapply outcome_mono; [by apply outcome_assign_copy | |]; simpl.
    + intros u s' H. exact H.
    + intros e s' Hs'. rewrite Hs'. apply keeps_live_refl.
  - intros u1 s1 _ Hk1. simpl in Hk1 |- *.
    eapply outcome_mono; [apply IH | |]; simpl.
    + intros k Hk. rewrite !ptr_add_add.
      destruct (Hlive (1 + k)) as [? ?]; [lia |]. split; by apply Hk1.
    + intros u2 s' Hk2. exact (keeps_live_trans _ _ _ Hk1 Hk2).
    + intros u2 s' Hk2. exact (keeps_live_trans _ _ _ Hk1 Hk2).
Qed.

Lemma outcome_move_loop first d_first n s :
  (∀ k, 0 ≤ k < Z.of_nat n →
        live s (ptr_add first k) ∧ live s (ptr_add d_first k)) →
  outcome (move_loop first d_first n s)
    (λ _ s', keeps_live s s') (λ _ s', keeps_live s s').
Proof.
  revert first d_first s. induction n as [| n IH]; intros first d_first s Hlive; simpl.
  { apply keeps_live_refl. }
  destruct (Hlive 0) as [Hf Hr]; [lia |]. rewrite !ptr_add_0 in *.
  eapply outcome_bind.
  - eapply outcome_mono; [by apply outcome_assign_move | |]; simpl.
    + intros u s' H. exact H.
    + intros e s' Hs'. rewrite Hs'. apply keeps_live_refl.
  - intros u1 s1 _ Hk1. simpl in Hk1 |- *.
    eapply outcome_mono; [apply IH | |]; simpl.
    + intros k Hk. rewrite !ptr_add_add.
      destruct (Hlive (1 + k)) as [? ?]; [lia |]. split; by apply Hk1.
    + intros u2 s' Hk2. exact (keeps_live_trans _ _ _ Hk1 Hk2).
    + intros u2 s' Hk2. exact (keeps_live_trans _ _ _ Hk1 Hk2).
Qed.

Lemma outcome_move_backward_loop last d_last n s :
  (∀ k, 1 ≤ k ≤ Z.of_nat n →
        live s (ptr_add last (- k)) ∧ live s (ptr_add d_last (- k))) →
  outcome (move_backward_loop last d_last n s)
    (λ _ s', keeps_live s s') (λ _ s', keeps_live s s').
Proof.
  revert last d_last s. induction n as [| n IH]; intros last d_last s Hlive; simpl.
  { apply keeps_live_refl. }
  destruct (Hlive 1) as [Hf Hr]; [lia |].
  eapply outcome_bind.
  - eapply outcome_mono; [by apply outcome_assign_move | |]; simpl.
    + intros u s' H. exact H.
    + intros e s' Hs'. rewrite Hs'. apply keeps_live_refl.
  - intros u1 s1 _ Hk1. simpl in Hk1 |- *.
    eapply outcome_mono; [apply IH | |]; simpl.
    + intros k Hk. rewrite !ptr_add_add.
      destruct (Hlive (1 + k)) as [? ?]; [lia |].
      replace (-1 + - k) with (- (1 + k)) by lia. split; by apply Hk1.
    + intros u2 s' Hk2. exact (keeps_live_trans _ _ _ Hk1 Hk2).
    + intros u2 s' Hk2. exact (keeps_live_trans _ _ _ Hk1 Hk2).
Qed.

Lemma outcome_destroy_n p n s R :
  (∀ k, 0 ≤ k < n → live s (ptr_add p k)) →
  outcome (destroy_n p n s) (λ _ s', same_shape s s') R.
Proof.
  intros Hlive. destruct (destroy_n_total p n s Hlive) as [s' E].
  rewrite E. simpl.
  eapply (writes_Ok (λ _, True)) in E; [by destruct E |].
  by apply writes_destroy_n.
Qed.

Lemma outcome_std_move first last d_first n s :
  ptr_distance first last = Some n → 0 ≤ n →
  (∀ k, 0 ≤ k < n → live s (ptr_add first k) ∧ live s (ptr_add d_first k)) →
  outcome (std_move first last d_first s)
    (λ _ s', keeps_live s s') (λ _ s', keeps_live s s').
Proof.
  intros Hd Hn Hlive. unfold std_move.
  eapply outcome_bind; [by apply outcome_of_option |]. intros ? ? _ [-> ->].
  eapply outcome_bind; [apply outcome_assert; lia |]. intros ? ? _ ->.
  apply outcome_move_loop. intros k Hk. apply Hlive. lia.
Qed.

Lemma outcome_copy_n first count result s :
  (∀ k, 0 ≤ k < count → live s (ptr_add first k) ∧ live s (ptr_add result k)) →
  outcome (copy_n first count result s)
    (λ _ s', keeps_live s s') (λ _ s', keeps_live s s').
Proof.
  intros Hlive. apply outcome_copy_loop. intros k Hk. apply Hlive. lia.
Qed.

Lemma outcome_move_backward first last d_last n s :
  ptr_distance first last = Some n → 0 ≤ n →
  (∀ k, 1 ≤ k ≤ n → live s (ptr_add last (- k)) ∧ live s (ptr_add d_last (- k))) →
  outcome (move_backward first last d_last s)
    (λ _ s', keeps_live s s') (λ _ s', keeps_live s s').
Proof.
  intros Hd Hn Hlive. unfold move_backward.
  eapply outcome_bind; [by apply outcome_of_option |]. intros ? ? _ [-> ->].
  eapply outcome_bind; [apply outcome_assert; lia |]. intros ? ? _ ->.
  apply outcome_move_backward_loop. intros k Hk. apply Hlive. lia.
Qed.

End Safety.

(** ** The member functions do not fault on a well-formed container *)

Section VectorSafety.

Context {T : Type} {ops : ElemOps T}.
Variable grants : Store T → Z → bool.
Implicit Types (s : Store T) (p q : ptr) (v : Vector) (args : CtorArgs T).

Lemma represents_well_formed s v (xs : list T) : represents s v xs → well_formed s v.
Proof.
  intros [Hsize Hinv Howns Hxs Hok]. split; [done |]. split; [done |].
  split; [done |]. intros k Hk.
  destruct (lookup_lt_is_Some_2 xs (Z.to_nat k)) as [x Hx]; [lia |].
  exists x. apply Hxs in Hx. by rewrite Z2Nat.id in Hx by lia.
Qed.

Lemma same_shape_block s s' b :
  same_shape s s' → is_Some (blocks s !! b) → is_Some (blocks s' !! b).
Proof.
  intros [_ Hlen] Hb. apply block_len_is_Some. rewrite Hlen.
  by apply block_len_is_Some.
Qed.

Lemma owns_freeable s m : owns s m → freeable s m.
Proof.
  intros [[? _] | (b & ? & _ & Hlen)]; [by left | right].
  exists b. split; [done |]. apply block_len_is_Some. by rewrite Hlen.
Qed.

Lemma same_shape_freeable s s' m : same_shape s s' → freeable s m → freeable s' m.
Proof.
  intros Hs [? | (b & ? & Hb)]; [by left | right].
  exists b. split; [done |]. by eapply same_shape_block.
Qed.

Lemma destructor_total (m : RawMemory) s :
  freeable s m → ∃ s', RawMemory.destructor m s = Ok tt s'.
Proof.
  unfold RawMemory.destructor, RawMemory.Deallocate, operator_delete.
  intros [-> | (b & -> & [D HD])]; simpl; [by eexists |].
  rewrite HD. by eexists.
Qed.

(** An allocation does not fault; when it returns, the objects that were
    live are live, and the slots of the new block exist when the byte count
    of the request fits a [size_t]. *)
Lemma outcome_sized capacity s :
  store_ok s → capacity ≠ 0 →
  0 ≤ capacity → capacity * size_of < SIZE_MODULUS →
  outcome (RawMemory.sized grants capacity s)
    (λ m s1, m = MkRawMemory (Ptr (Some (next_block s)) 0) capacity ∧
             store_ok s1 ∧ freeable s1 m ∧
             (∀ q, live s q → live s1 q) ∧
             (∀ m', freeable s m' → freeable s1 m') ∧
             (∀ k, 0 ≤ k < capacity → is_Some (slot_at s1 (ptr_add (buffer_ m) k))))
    (λ _ s1, s1 = s).
Proof.
  intros Hok Hne Hc0 Hfit.
  destruct (RawMemory.sized grants capacity s) as [m s1|e s1|] eqn:E; simpl.
  - destruct (sized_fresh grants capacity s m s1 Hok Hne E)
      as (-> & Hnext & Hlen & Hframe & Hok1).
    rewrite allocated_slots_exact in Hlen by done.
    split; [done |]. split; [done |].
    assert (∀ b, is_Some (blocks s !! b) → blocks s1 !! b = blocks s !! b) as Hold.
    { intros b Hb. apply Hframe. intros ->.
      rewrite fresh_block_unused in Hb by done. by destruct Hb. }
    split; [| split; [| split]].
    + right. exists (next_block s). split; [done |].
      apply block_len_is_Some. by rewrite Hlen.
    + intros q [x Hx]. exists x. rewrite <- Hx. apply blocks_frame_slot.
      intros b Hb. apply Hold. eapply slot_at_allocated; [| done]. by rewrite Hx.
    + intros m' [? | (b & ? & Hb)]; [by left | right].
      exists b. split; [done |]. by rewrite Hold.
    + intros k Hk. apply slot_at_is_Some. simpl.
      exists (next_block s), (Z.to_nat capacity). split; [done |].
      split; [done |]. lia.
  - by apply sized_Throw in E as [_ ->].
  - unfold RawMemory.sized, RawMemory.Allocate, bind, operator_new in E.
    rewrite (proj2 (Z.eqb_neq _ _) Hne) in E. by destruct (grants s capacity).
Qed.

Lemma outcome_this v s R :
  outcome (Vector.this (v, s)) (λ a st, a = v ∧ st = (v, s)) R.
Proof. done. Qed.

Lemma outcome_end v s R :
  size_ v ≤ capacity_ (data_ v) →
  outcome (Vector.end_ v (v, s))
    (λ p st, p = ptr_add (buffer_ (data_ v)) (size_ v) ∧ st = (v, s)) R.
Proof. intros. by apply outcome_plus. Qed.

Lemma outcome_set_data d v s R :
  outcome (Vector.set_data d (v, s))
    (λ _ st, st = (MkVector d (size_ v), s)) R.
Proof. done. Qed.

Lemma outcome_set_size n v s R :
  outcome (Vector.set_size n (v, s))
    (λ _ st, st = (MkVector (data_ v) n, s)) R.
Proof. done. Qed.

(** [UninitCopyOrMove] does not fault when the sources are live and the
    destination slots exist. *)
Lemma outcome_UninitCopyOrMove from count to s :
  (∀ k, 0 ≤ k < count → live s (ptr_add from k) ∧ is_Some (slot_at s (ptr_add to k))) →
  outcome (Vector.UninitCopyOrMove from count to s)
    (λ _ s', keeps_live s s' ∧ ∀ k, 0 ≤ k < count → live s' (ptr_add to k))
    (λ _ s', same_shape s s').
Proof.
  intros Hlive. unfold Vector.UninitCopyOrMove.
  destruct (_ || _); unfold uninitialized_move_n, uninitialized_copy_n.
  all: eapply outcome_mono;
    [apply outcome_after;
     [apply outcome_uninitialized_loop; [lia | | intros; lia]
     |apply (writes_uninitialized_loop (λ _, True)); [lia | done | done]] | |];
    simpl.
  all: try (intros k Hk; destruct (Hlive k) as [Hsrc Hdst]; [lia |];
            split; [by intros q -> | done]).
  all: try (intros u s' [[Hk Hl] _]; split; [done |]; intros k Hk'; apply Hl; lia).
  all: by intros e s' [_ [Hs _]].
Qed.

Lemma owns_slot s (m : RawMemory) k :
  owns s m → 0 ≤ k < capacity_ m → is_Some (slot_at s (ptr_add (buffer_ m) k)).
Proof.
  intros [[_ ?] | (b & -> & Hc & Hlen)] Hk; [lia |].
  apply slot_at_is_Some. exists b, (Z.to_nat (capacity_ m)). simpl.
  split; [done |]. split; [done |]. lia.
Qed.

(** [Emplace] at a position in [[begin, end]] of a well-formed container,
    with arguments that can be read, has no undefined behaviour when the
    byte count of a block of twice the size fits a [size_t]: it returns or
    throws. *)
Lemma Emplace_no_fault v s i args :
  well_formed s v → 0 ≤ i ≤ size_ v → ready s args →
  2 * size_ v * size_of < SIZE_MODULUS →
  Vector.Emplace grants (ptr_add (Vector.begin v) i) args (v, s) ≠ Fault.
Proof.
  intros ([[Hsz0 Hsz] Hcap] & Howns & Hok & Hlive) Hi Hready Hbytes.
  pose proof size_of_range as [Hz HzM].
  assert (2 * size_ v < SIZE_MODULUS) as Hbound by nia.
  apply (outcome_no_fault _ (λ _ _, True) (λ _ _, True)).
  pose proof SIZE_MODULUS_eq as HM.
  assert (wrap i = i) as Hwi by (apply wrap_small; lia).
  assert (wrap (i + 1) = i + 1) as Hwi1 by (apply wrap_small; lia).
  assert (wrap (size_ v - i) = size_ v - i) as Hwni by (apply wrap_small; lia).
  assert (wrap (size_ v + 1) = size_ v + 1) as Hw1 by (apply wrap_small; lia).
  assert (ptr_distance (buffer_ (data_ v)) (ptr_add (buffer_ (data_ v)) i) = Some i)
    as Hdist.
  { unfold ptr_distance. simpl. rewrite decide_True by done. f_equal. lia. }
  unfold Vector.Emplace.
  eapply outcome_bind; [apply outcome_this |]. intros ? ? _ [-> ->]. simpl.
  unfold RawMemory.Capacity, Vector.begin, RawMemory.GetAddress.
  eapply outcome_bind; [by apply outcome_of_option |]. intros ? ? _ [-> ->].
  eapply (outcome_bind _ _ _ (λ _ _, True)); [| by intros ? [? ?] _ _].
  rewrite Hw1, Hwi.
  destruct (_ || _) eqn:Hfull.
  - (* reallocation *)
    set (c := if size_ v =? 0 then 1 else wrap (size_ v * 2)).
    assert (size_ v + 1 ≤ c ∧ c ≠ 0 ∧ c * size_of < SIZE_MODULUS) as (Hc & Hc0 & Hcz).
    { subst c. destruct (Z.eqb_spec (size_ v) 0); [lia |]. rewrite wrap_small; lia. }
    eapply outcome_step;
      [apply outcome_mem; apply outcome_sized; [done | done | lia | done]
      | by intros |].
    intros m [v1 s1] _ (Hv1 & -> & Hok1 & Hfree1 & Hl1 & Hfr & Hnew).
    simpl in Hv1, Hok1, Hfree1, Hl1, Hfr, Hnew |- *. subst v1.
    set (new := Ptr (Some (next_block s)) 0) in *.
    eapply (outcome_step _ _ _ (λ _ st, st.1 = v ∧ same_shape s1 st.2));
      [| by intros |].
    + eapply (outcome_on_exception _ _ _ _
                (λ _ st, st.1 = v ∧ same_shape s1 st.2) (λ _ _, True)).
      * eapply outcome_bind; [apply outcome_plus; simpl; lia |].
        intros ? ? _ [-> ->].
        eapply outcome_bind; [by apply outcome_of_option |].
        intros ? ? _ [-> ->]. rewrite Hwi.
        eapply outcome_step.
        { apply outcome_mem. apply outcome_UninitCopyOrMove.
          intros k Hk. split; [apply Hl1, Hlive; lia | apply Hnew; lia]. }
        { by intros e [v2 s2] [? ?]. }
        intros u2 [v2 s2] _ (Hv2 & Hk2 & Hpre). simpl in Hv2, Hk2, Hpre. subst v2.
        eapply outcome_step.
        { apply outcome_mem. apply outcome_ConstructElement.
          - eapply keeps_live_ready; [exact Hk2 |]. intros q Hq. by apply Hl1, Hready.
          - eapply keeps_live_allocated; [exact Hk2 |]. apply Hnew. lia. }
        { intros e [v3 s3] [? ->]. split; [done |]. by destruct Hk2. }
        intros u3 [v3 s3] _ (Hv3 & Hk3 & Hplace). simpl in Hv3, Hk3, Hplace. subst v3.
        pose proof (keeps_live_trans _ _ _ Hk2 Hk3) as Hk13.
        eapply outcome_bind; [by apply outcome_end |].
        intros ? ? _ [-> ->].
        eapply outcome_bind.
        { apply (outcome_of_option _ (size_ v - i)).
          unfold ptr_distance. simpl. rewrite decide_True by done. f_equal. lia. }
        intros ? ? _ [-> ->]. rewrite Hwi1, Hwni.
        eapply outcome_bind; [apply outcome_plus; simpl; lia |].
        intros ? ? _ [-> ->].
        eapply outcome_step.
        { apply outcome_mem. apply outcome_UninitCopyOrMove.
          intros k Hk. rewrite !ptr_add_add. split.
          - apply Hk13, Hl1, Hlive. lia.
          - eapply keeps_live_allocated; [exact Hk13 |]. apply Hnew. lia. }
        { intros e [v4 s4] [? Hs4]. split; [done |].
          eapply same_shape_trans; [| exact Hs4]. by destruct Hk13. }
        intros u4 [v4 s4] _ (Hv4 & Hk4 & _). simpl in Hv4, Hk4. subst v4.
        pose proof (keeps_live_trans _ _ _ Hk13 Hk4) as Hk14.
        eapply outcome_mono.
        { apply outcome_mem. apply (outcome_destroy_n _ _ _ (λ _ _, False)).
          intros k Hk. apply Hk14, Hl1, Hlive. lia. }
        { intros u5 [v5 s5] [? Hs5]. split; [done |].
          eapply same_shape_trans; [| exact Hs5]. by destruct Hk14. }
        { by intros e [v5 s5] [_ []]. }
      * intros e [v2 s2] _ [Hv2 Hs2]. simpl in Hv2, Hs2. subst v2.
        destruct (destructor_total (MkRawMemory new c) s2) as [s3 E].
        { by eapply same_shape_freeable. }
        unfold Vector.mem. simpl. by rewrite E.
    + intros u [v5 s5] _ [Hv5 Hs5]. simpl in Hv5, Hs5. subst v5.
      eapply outcome_bind; [apply outcome_set_data |]. intros ? ? _ ->.
      eapply outcome_bind; [apply outcome_set_size |]. intros ? ? _ ->. simpl.
      destruct (destructor_total (MkRawMemory (buffer_ (data_ v)) (capacity_ (data_ v))) s5)
        as [s6 E].
      { eapply same_shape_freeable; [exact Hs5 |]. apply Hfr.
        apply owns_freeable in Howns. by destruct (data_ v). }
      unfold Vector.mem. simpl. by rewrite E.
  - (* spare capacity *)
    apply orb_false_iff in Hfull as [Hlt%Z.ltb_ge _].
    eapply outcome_bind; [apply outcome_plus; lia |]. intros ? ? _ [-> ->].
    eapply outcome_bind; [by apply outcome_end |]. intros ? ? _ [-> ->].
    eapply outcome_bind.
    { apply (outcome_of_option _ (i <? size_ v)).
      unfold ptr_lt. simpl. rewrite decide_True by done. f_equal.
      destruct (Z.ltb_spec i (size_ v)), (Z.ltb_spec (p_off (buffer_ (data_ v)) + i)
        (p_off (buffer_ (data_ v)) + size_ v)); (done || lia). }
    intros ? ? _ [-> ->].
    eapply (outcome_bind _ _ _ (λ _ _, True)); [| by intros ? [? ?] _ _].
    destruct (Z.ltb_spec i (size_ v)) as [Hmid | Hend].
    + eapply outcome_step;
        [apply outcome_mem; by apply outcome_construct_from | by intros |].
      intros buff [v1 s1] _ [Hv1 Hk1]. simpl in Hv1, Hk1. subst v1.
      eapply outcome_bind; [apply outcome_plus; lia |].
      intros ? ? _ [-> ->].
      eapply outcome_step.
      { apply outcome_mem. apply outcome_ConstructElement.
        - intros q ->. rewrite ptr_add_add. apply Hk1, Hlive. lia.
        - eapply keeps_live_allocated; [exact Hk1 |]. apply owns_slot; [done | lia]. }
      { by intros. }
      intros u2 [v2 s2] _ (Hv2 & Hk2 & Hlast). simpl in Hv2, Hk2, Hlast. subst v2.
      pose proof (keeps_live_trans _ _ _ Hk1 Hk2) as Hk12.
      eapply outcome_step.
      { apply outcome_mem. apply (outcome_move_backward _ _ _ (size_ v - 1 - i)).
        - unfold ptr_distance. simpl. rewrite decide_True by done. f_equal. lia.
        - lia.
        - intros k Hk. rewrite !ptr_add_add. split; apply Hk12, Hlive; lia. }
      { by intros. }
      intros u3 [v3 s3] _ [Hv3 Hk3]. simpl in Hv3, Hk3. subst v3.
      eapply outcome_mono.
      { apply outcome_mem. apply outcome_assign_move_local.
        apply Hk3, Hk12, Hlive. lia. }
      { by intros. }
      { by intros. }
    + eapply outcome_mono.
      { apply outcome_mem. apply outcome_ConstructElement; [done |].
        apply owns_slot; [done | lia]. }
      { by intros. }
      { by intros. }
Qed.

Lemma outcome_Destroy buf s R :
  live s buf → outcome (Destroy buf s) (λ _ s', updated s buf None s') R.
Proof. intros (s' & E & Hup)%Destroy_total. by rewrite E. Qed.

Lemma PopBack_no_fault v s :
  well_formed s v → 0 < size_ v → Vector.PopBack (v, s) ≠ Fault.
Proof.
  intros ([[Hsz0 Hsz] Hcap] & Howns & Hok & Hlive) Hpos.
  apply (outcome_no_fault _ (λ _ _, True) (λ _ _, True)).
  assert (wrap (size_ v - 1) = size_ v - 1) as Hw by (apply wrap_small; lia).
  unfold Vector.PopBack.
  eapply outcome_bind; [apply outcome_this |]. intros ? ? _ [-> ->]. simpl.
  eapply outcome_bind; [apply outcome_assert; lia |]. intros ? ? _ ->.
  rewrite Hw.
  eapply outcome_bind; [apply outcome_plus; lia |]. intros ? ? _ [-> ->].
  eapply outcome_step;
    [apply outcome_mem, (outcome_Destroy _ _ (λ _ _, True)), Hlive; lia
    | by intros |].
  by intros u [v1 s1] _ _.
Qed.

(** For an element type that is relocated by move, [Erase] at the
    position of a live element of a well-formed container has no undefined
    behaviour: it returns, or an assignment throws. *)
Lemma Erase_no_fault v s i :
  relocates_by_move = true →
  well_formed s v → 0 ≤ i < size_ v →
  Vector.Erase (ptr_add (Vector.begin v) i) (v, s) ≠ Fault.
Proof.
  unfold relocates_by_move.
  intros Hpolicy ([[Hsz0 Hsz] Hcap] & Howns & Hok & Hlive) Hi.
  apply (outcome_no_fault _ (λ _ _, True) (λ _ _, True)).
  assert (wrap (size_ v - 1) = size_ v - 1) as Hw by (apply wrap_small; lia).
  unfold Vector.Erase.
  eapply outcome_bind; [apply outcome_this |]. intros ? ? _ [-> ->]. simpl.
  unfold Vector.begin, RawMemory.GetAddress.
  eapply outcome_bind.
  { apply (outcome_of_option _ i).
    unfold ptr_distance. simpl. rewrite decide_True by done. f_equal. lia. }
  intros ? ? _ [-> ->].
  eapply (outcome_bind _ _ _ (λ _ st, st.1 = v ∧ keeps_live s st.2)).
  - rewrite Hpolicy.
    eapply outcome_bind; [by apply outcome_end |]. intros ? ? _ [-> ->].
    eapply outcome_mono.
    { apply outcome_mem. apply (outcome_std_move _ _ _ (size_ v - (i + 1))).
      - unfold ptr_distance. simpl. rewrite decide_True by done. f_equal. lia.
      - lia.
      - intros k Hk. rewrite !ptr_add_add. split; apply Hlive; lia. }
    { by intros u [v1 s1] [? ?]. }
    { by intros. }
  - intros u [v1 s1] _ [Hv1 Hk1]. simpl in Hv1, Hk1. subst v1.
    eapply (outcome_bind _ _ _ (λ _ _, True)); [| by intros].
    unfold Vector.PopBack.
    eapply outcome_bind; [apply outcome_this |]. intros ? ? _ [-> ->]. simpl.
    eapply outcome_bind; [apply outcome_assert; lia |]. intros ? ? _ ->.
    rewrite Hw.
    eapply outcome_bind; [apply outcome_plus; lia |]. intros ? ? _ [-> ->].
    eapply outcome_step;
      [apply outcome_mem, (outcome_Destroy _ _ (λ _ _, True)), Hk1, Hlive; lia
      | by intros |].
    by intros u1 [v2 s2] _ _.
Qed.

End VectorSafety.

(** ** Sequences of PushBack do not fault *)

Section PushBackSafety.

Context {T : Type} {ops : ElemOps T} {lawful : LawfulElem T}.
Variable grants : Store T → Z → bool.
Implicit Types (s : Store T) (p q : ptr) (xs : list T) (v : Vector).

Lemma EmplaceBack_no_fault v s (args : CtorArgs T) :
  well_formed s v → ready s args → 2 * size_ v * size_of < SIZE_MODULUS →
  Vector.EmplaceBack grants args (v, s) ≠ Fault.
Proof.
  intros Hwf Hready Hbound.
  pose proof Hwf as ([[Hsz0 Hsz] _] & _).
  unfold Vector.EmplaceBack, bind, Vector.this, Vector.end_, RawMemory.plus, assert.
  simpl. rewrite (proj2 (Z.leb_le _ _) Hsz). simpl.
  apply (Emplace_no_fault grants v s (size_ v)); [done | lia | done | done].
Qed.

Lemma push_sequence_no_fault cs : ∀ xs v s ys,
  represents s v ys →
  pushes s cs xs →
  Forall (λ c, ∀ p, pushes_object c p → p_blk p ≠ p_blk (Vector.begin v)) cs →
  2 * (Z.of_nat (length ys) + Z.of_nat (length cs)) * size_of < SIZE_MODULUS →
  run_calls grants cs (v, s) ≠ Fault.
Proof.
  induction cs as [| c cs IH]; intros xs v s ys Hrep Hpush Hout Hbound;
    simpl; [done |].
  unfold bind.
  destruct (run_call grants c (v, s)) as [u [v1 s1]|e st|] eqn:E1; [| done |].
  - destruct (push_step _ _ _ _ _ _ _ _ _ _ Hrep Hpush Hout E1)
      as (x & xs' & -> & Hrep1 & Hpush1 & Hout1).
    eapply IH; [exact Hrep1 | exact Hpush1 | exact Hout1 |].
    rewrite length_app. simpl length in *. lia.
  - exfalso.
    assert (∃ args p, (args = ByCopy p ∨ args = ByMove p) ∧ live s p ∧
              run_call grants c (v, s) = (Vector.EmplaceBack grants args ;;; ret tt) (v, s))
      as (args & p & Hargs & Hp & Hrun).
    { inversion Hpush as [| p x cs' xs' Hp Hpush' | p x cs' xs' Hp Hfresh Hpush'];
        subst.
      - exists (ByCopy p), p. split; [by left |]. split; [by exists x | done].
      - exists (ByMove p), p. split; [by right |]. split; [by exists x | done]. }
    rewrite Hrun in E1. unfold bind in E1.
    destruct (Vector.EmplaceBack grants args (v, s)) eqn:E; [done | done |].
    revert E. apply EmplaceBack_no_fault.
    + by eapply represents_well_formed.
    + intros q Hq. by destruct Hargs as [-> | ->]; simpl in Hq; subst q.
    + rewrite (rep_size _ _ _ Hrep). simpl length in Hbound.
      pose proof size_of_range as [Hz _]. nia.
Qed.

End PushBackSafety.

(** * The claims *)

Section Claims.

Context {T : Type} {ops : ElemOps T}.
Variable grants : Store T → Z → bool.
Implicit Types (s : Store T) (v : Vector).

(** C2 (as amended). Neither move operation of [RawMemory] can fail.
    Move construction gives the new object the source's address/capacity
    pair and leaves the source in the empty state.  Move assignment swaps:
    the destination receives the source's pair and the source receives the
    pair the destination had, which is the empty state only when the
    destination was empty. *)
Theorem RawMemory_move_transfer (this other : RawMemory) :
  RawMemory.move_constructor other = (other, RawMemory.default) ∧
  RawMemory.move_assignment this other = (other, this).
Proof. by destruct this, other. Qed.

(** C5. [Reserve(n)] with [n <= Capacity()] returns without touching the
    container or the store: capacity, size, the address of the buffer and
    every slot are as before the call. *)
Theorem Reserve_within_capacity_is_noop n v s :
  n ≤ Vector.Capacity v → Vector.Reserve grants n (v, s) = Ok tt (v, s).
Proof.
  intros Hle. unfold Vector.Reserve, bind, Vector.this. simpl.
  unfold Vector.Capacity in Hle. by rewrite (proj2 (Z.leb_le _ _) Hle).
Qed.

(** C9. Every container the public operations produce satisfies
    [0 <= size_ <= data_.Capacity()] (and the capacity is a [size_t]): the
    constructors establish it, and every member function leaves it true of
    its object and of its [Vector&] argument, whether it returns or
    throws. *)
Theorem produced_size_invariant v : produced grants v → size_invariant v.
Proof.
  apply (produced_mutual grants size_invariant call_args_invariant);
    try done; clear v.
  - intros n s v s' Hn [Hsize Hcap]%Vector_sized_Ok.
    unfold size_invariant, is_size_t in *. lia.
  - intros other s v s' _ Hother [Hsize Hcap]%copy_constructor_Ok.
    unfold size_invariant in *. lia.
  - intros c v s v' s' _ Hv _ Hc Hfinal.
    by eapply run_call_invariant in Hfinal as [? _].
  - intros other v s other' [v' s'] _ Hv _ Hother (_ & _ & o' & Ho' & ? & ?)%Swap_fields.
    simplify_eq. unfold size_invariant in *. lia.
Qed.

(** C4. Along any sequence of [PushBack], [Reserve] and [Resize] calls
    (run until it ends or a call throws) the capacity never decreases; and
    a [PushBack] that returns on a container whose size equals its capacity
    leaves the capacity [max(1, 2 * old capacity)]. *)
Theorem capacity_never_decreases cs value v s :
  size_invariant v →
  (Forall growing cs →
   ∀ v' s', final_state (run_calls grants cs (v, s)) = Some (v', s') →
            Vector.Capacity v ≤ Vector.Capacity v') ∧
  (Vector.Size v = Vector.Capacity v →
   ∀ u v' s', (Vector.PushBack grants value (v, s) = Ok u (v', s') ∨
               Vector.PushBack_move grants value (v, s) = Ok u (v', s')) →
              Vector.Capacity v' = Z.max 1 (2 * Vector.Capacity v)).
Proof.
  intros Hinv. split.
  - intros Hcs. revert v s Hinv.
    induction Hcs as [| c cs Hc Hcs IH]; intros v s Hinv v' s' Hfinal; simpl in *.
    + by simplify_eq.
    + unfold bind in Hfinal.
      destruct (run_call grants c (v, s)) as [u [v1 s1]|e [v1 s1]|] eqn:E;
        [| | done].
      * destruct (run_call_invariant grants c v s v1 s1) as [Hinv1 Hmono];
          [done | by apply growing_args | by rewrite E |].
        specialize (IH v1 s1 Hinv1 v' s' Hfinal).
        unfold Vector.Capacity, RawMemory.Capacity in *.
        specialize (Hmono Hc). lia.
      * simpl in Hfinal. simplify_eq.
        destruct (run_call_invariant grants c v s v' s') as [_ Hmono];
          [done | by apply growing_args | by rewrite E |].
        by apply Hmono.
  - unfold Vector.Size, Vector.Capacity, RawMemory.Capacity.
    intros Hfull u v' s' [E | E];
      unfold Vector.PushBack, Vector.PushBack_move in E; inv_run; split_states;
      match goal with H : Vector.EmplaceBack _ _ _ = Ok _ _ |- _ =>
        apply EmplaceBack_Ok_fields in H as [(_ & _ & ?) | (? & _ & ? & _)];
        [lia | congruence | done]
      end.
Qed.

Context {lawful : LawfulElem T}.

(** Sequences of [PushBack] that push objects of the caller only.
    Starting from an empty container, such a sequence (by copy or by move)
    has no undefined behaviour as long as the byte count of the largest
    block fits a [size_t]; and after it has returned, the size is the
    number of calls and the content is the values those objects held, in
    the order of the calls.  A [PushBack] of an element of the container
    itself is not such a call. *)
Lemma PushBack_sequence cs xs s :
  store_ok s →
  pushes s cs xs →
  (2 * Z.of_nat (length cs) * size_of < SIZE_MODULUS →
   run_calls grants cs (Vector.default, s) ≠ Fault) ∧
  (∀ u v' s', run_calls grants cs (Vector.default, s) = Ok u (v', s') →
     Vector.Size v' = Z.of_nat (length cs) ∧ contents s' v' = Some xs).
Proof.
  intros Hok Hpush.
  assert (represents s Vector.default []) as Hrep0.
  { split; [done | | by left | apply array_at_nil | done].
    unfold size_invariant, Vector.default, RawMemory.default. simpl.
    rewrite SIZE_MODULUS_eq. lia. }
  assert (Forall (λ c, ∀ p, pushes_object c p →
                       p_blk p ≠ p_blk (Vector.begin Vector.default)) cs) as Hout.
  { eapply Forall_impl; [by eapply pushes_valid |].
    intros c Hc p Hp. apply Hc in Hp as [o Hp]. simpl.
    unfold slot_at in Hp. by destruct (p_blk p). }
  split.
  - intros Hbound. eapply push_sequence_no_fault; [done.. |]. simpl length. lia.
  - intros u v' s' E.
    assert (represents s' v' ([] ++ xs)) as Hrep by by eapply push_sequence.
    simpl in Hrep. split; [| by apply represents_contents].
    unfold Vector.Size. rewrite (rep_size _ _ _ Hrep).
    by rewrite (pushes_length _ _ _ Hpush).
Qed.

(** C6. When [Reserve] relocates by copy (the move constructor is not
    [noexcept] and the type is copyable), or when copy assignment takes its
    reallocating branch ([Capacity() < rhs.size_]), and the call throws,
    the container is the same object state as before the call and holds the
    same elements. *)
Theorem copy_failure_leaves_container_unchanged v s xs n rhs e v' s' :
  represents s v xs →
  (relocates_by_move = false ∧
   Vector.Reserve grants n (v, s) = Throw e (v', s')) ∨
  (Vector.Capacity v < Vector.Size rhs ∧
   Vector.copy_assignment grants (Other rhs) (v, s) = Throw e (v', s')) →
  v' = v ∧ Vector.Size v' = Vector.Size v ∧ contents s' v' = Some xs.
Proof.
  intros Hrep Hrun.
  assert (v' = v ∧ preserved s s') as [-> Hpres].
  { destruct Hrun as [[Hpolicy E] | [Hlt E]].
    - eapply Reserve_copy_Throw; [exact Hpolicy | by destruct Hrep | exact E].
    - eapply copy_assignment_realloc_Throw; [exact Hlt | by destruct Hrep | exact E]. }
  split; [done |]. split; [done |].
  eapply represents_contents, represents_preserved; done.
Qed.

(** C7, the code against the claim.  [Erase] exists only for the element
    types that are relocated by move (move constructor [noexcept], or type
    not copyable).  For those, at the position of a live element it has no
    undefined behaviour, and when it returns it has shifted the later
    elements one slot to the left by move assignment and popped the last
    slot: the content is the old content without the element at the
    position, in the same order, the size is one less, the slot that was
    last is raw memory again, and the iterator returned is the position.
    For an element type that is relocated by copy, the claim's "otherwise
    via copy", the function does not compile ([std::distance] is given a
    [const T*] and a [T*]), and no call of it has a behaviour. *)
Theorem Erase_removes_element_by_move_only v s xs i :
  represents s v xs →
  0 ≤ i < Z.of_nat (length xs) →
  (relocates_by_move = true →
   Vector.Erase (ptr_add (Vector.begin v) i) (v, s) ≠ Fault ∧
   ∀ it v' s',
     Vector.Erase (ptr_add (Vector.begin v) i) (v, s) = Ok it (v', s') →
     Vector.Size v' = Vector.Size v - 1 ∧
     contents s' v' = Some (take (Z.to_nat i) xs ++ drop (Z.to_nat (i + 1)) xs) ∧
     slot_at s' (ptr_add (Vector.begin v) (Vector.Size v - 1)) = Some None ∧
     it = ptr_add (Vector.begin v') i ∧
     (∃ s1,
        (let place := ptr_add (Vector.begin v) i in
         std_move (ptr_add place 1) (ptr_add (Vector.begin v) (size_ v)) place s
           = Ok tt s1) ∧
        Vector.PopBack (v, s1) = Ok tt (v', s'))) ∧
  (relocates_by_move = false →
   Vector.Erase (ptr_add (Vector.begin v) i) (v, s) = ill_formed (v, s)).
Proof.
  intros Hrep Hi. split.
  - intros Hpolicy. split.
    + apply Erase_no_fault; [done | by eapply represents_well_formed |].
      by rewrite (rep_size _ _ _ Hrep).
    + intros it v' s' E.
      pose proof (Erase_steps _ _ _ _ _ _ E) as (_ & _ & Hsteps).
      apply (Erase_Ok v s xs) in E as (Hrep' & -> & Hit & Hlast & _); [| done..].
      split; [done |]. split; [by apply represents_contents |]. done.
  - intros Hpolicy. by apply Erase_ill_formed.
Qed.

(** C8. [Emplace] at a position in [[begin, end]] (unless it is asked to
    move from an element of the container itself) has no undefined
    behaviour when its arguments can be read and the byte count of a block
    of twice the size fits a [size_t].  When it returns, it has increased the size by
    one; the content is the old content with the new element at the
    position, every other element in its old order before or after it; the
    new element has the value its constructor arguments denoted when they
    refer to an object outside the container. *)
Theorem Emplace_inserts_at_position v s xs i args :
  represents s v xs →
  0 ≤ i ≤ Z.of_nat (length xs) →
  keeps_elements s v args →
  (ready s args → 2 * Vector.Size v * size_of < SIZE_MODULUS →
   Vector.Emplace grants (ptr_add (Vector.begin v) i) args (v, s) ≠ Fault) ∧
  ∀ it v' s',
    Vector.Emplace grants (ptr_add (Vector.begin v) i) args (v, s) = Ok it (v', s') →
    Vector.Size v' = Vector.Size v + 1 ∧
    ∃ x,
      contents s' v' = Some (take (Z.to_nat i) xs ++ x :: drop (Z.to_nat i) xs) ∧
      (take (Z.to_nat i) xs ++ x :: drop (Z.to_nat i) xs) !! Z.to_nat i = Some x ∧
      (outside s v args → arg_value s args x).
Proof.
  intros Hrep Hi Hkeeps.
  pose proof (rep_size _ _ _ Hrep) as Hsize. split.
  - intros Hready Hbound.
    apply Emplace_no_fault; [by eapply represents_well_formed | lia | done..].
  - intros it v' s' E.
    eapply Emplace_Ok in E as (x & Hrep' & _ & Hval & _); [| done..].
    pose proof (rep_size _ _ _ Hrep') as Hsize'.
    rewrite length_app, length_take in Hsize'. simpl in Hsize'.
    rewrite length_drop in Hsize'.
    split; [unfold Vector.Size; lia |].
    exists x. split; [by apply represents_contents |]. split; [| done].
    rewrite lookup_app_r by (rewrite length_take; lia).
    rewrite length_take. by replace (Z.to_nat i - _)%nat with 0%nat by lia.
Qed.

(** C10. [Emplace] at a position in [[begin, end]] of a well-formed
    container returns or throws (arguments readable, the byte count of a
    block of twice the size fits a [size_t]); the iterator it returns points into the storage the
    container has after the call, also after a reallocation, at the index
    of the position it was given, and the slot it points to holds the new
    element. *)
Theorem Emplace_returns_iterator_to_new_element v s xs i args :
  represents s v xs →
  0 ≤ i ≤ Z.of_nat (length xs) →
  keeps_elements s v args →
  (ready s args → 2 * Vector.Size v * size_of < SIZE_MODULUS →
   Vector.Emplace grants (ptr_add (Vector.begin v) i) args (v, s) ≠ Fault) ∧
  ∀ it v' s',
    Vector.Emplace grants (ptr_add (Vector.begin v) i) args (v, s) = Ok it (v', s') →
    ptr_distance (Vector.begin v') it
      = ptr_distance (Vector.begin v) (ptr_add (Vector.begin v) i) ∧
    in_range (Vector.begin v') (Vector.Size v') it ∧
    ∃ x,
      slot_at s' it = Some (Some x) ∧
      contents s' v' = Some (take (Z.to_nat i) xs ++ x :: drop (Z.to_nat i) xs).
Proof.
  intros Hrep Hi Hkeeps.
  pose proof (rep_size _ _ _ Hrep) as Hsize. split.
  - intros Hready Hbound.
    apply Emplace_no_fault; [by eapply represents_well_formed | lia | done..].
  - intros it v' s' E.
    eapply Emplace_Ok in E as (x & Hrep' & -> & _); [| done..].
    pose proof (rep_size _ _ _ Hrep') as Hsize'.
    rewrite length_app, length_take in Hsize'. simpl in Hsize'.
    rewrite length_drop in Hsize'.
    split; [| split].
    + unfold ptr_distance. simpl. rewrite !decide_True by done. f_equal. lia.
    + unfold in_range, Vector.Size. simpl. split; [done | lia].
    + exists x. split; [| by apply represents_contents].
      apply (array_at_lookup _ _ _ i x (rep_elements _ _ _ Hrep')); [lia |].
      rewrite lookup_app_r by (rewrite length_take; lia).
      rewrite length_take. by replace (Z.to_nat i - _)%nat with 0%nat by lia.
Qed.

End Claims.

(** ** Concrete runs *)

Lemma example_represents :
  represents example_store example_vector [1; 2; 3].
Proof. apply (represents_intro _ _ _ 1%nat); by vm_compute. Qed.

(** [Resize(n)] with [size_ <= n <= Capacity()] only sets [size_]: the
    store after the call is the store before it, for every element type. *)
Lemma Resize_within_capacity_Ok {T} {ops : ElemOps T} grants n v (s : Store T) :
  size_ v ≤ n ≤ capacity_ (data_ v) →
  Vector.Resize grants n (v, s) = Ok tt (MkVector (data_ v) n, s).
Proof.
  intros [Hlo Hhi]. unfold Vector.Resize, bind, Vector.this. simpl.
  unfold RawMemory.Capacity.
  rewrite (proj2 (Z.ltb_ge _ _) Hhi), (proj2 (Z.ltb_ge _ _) Hlo). done.
Qed.

(** C1, the code against the claim.  The scenario reaches the content
    [[99]] with size 1 and capacity 10; [Resize(4)] then returns with
    [size_ = 4] and the store as it was: nothing was constructed, the slots
    1 to 3 are raw memory, and the container has no content
    [[99; 0; 0; 0]] to read. *)
Theorem Resize_within_capacity_constructs_nothing :
  ∃ v s,
    scenario_steps_1_to_5 (Vector.default, caller_store [1; 2; 3; 99])
      = Ok tt (v, s) ∧
    Vector.Size v = 1 ∧ Vector.Capacity v = 10 ∧ contents s v = Some [99] ∧
    Vector.Resize (ops := int_ops) always_grants 4 (v, s)
      = Ok tt (MkVector (data_ v) 4, s) ∧
    slot_at s (ptr_add (Vector.begin v) 1) = Some None ∧
    slot_at s (ptr_add (Vector.begin v) 2) = Some None ∧
    slot_at s (ptr_add (Vector.begin v) 3) = Some None ∧
    contents s (MkVector (data_ v) 4) ≠ Some [99; 0; 0; 0].
Proof.
  eexists _, _. split; [by vm_compute |].
  split_and!;
    first [ apply Resize_within_capacity_Ok; simpl; lia | by vm_compute ].
Qed.

(** The other branch of [Resize] does construct: from the same content
    [[99]], [Resize(11)] exceeds the capacity and yields 99 followed by ten
    value-initialised elements. *)
Lemma Resize_beyond_capacity_constructs :
  ∃ v s v' s',
    scenario_steps_1_to_5 (Vector.default, caller_store [1; 2; 3; 99])
      = Ok tt (v, s) ∧
    Vector.Resize (ops := int_ops) always_grants 11 (v, s) = Ok tt (v', s') ∧
    contents s' v' = Some (99 :: replicate 10 0).
Proof.
  eexists _, _, _, _. split; [by vm_compute |]. split; by vm_compute.
Qed.

(** C2, the claim as stated fails: after a move assignment onto a
    destination that owns a block, the source owns that block and is not
    in the empty state. *)
Lemma RawMemory_move_assignment_source_not_reset :
  let destination := MkRawMemory (Ptr (Some 1%nat) 0) 2 in
  let source := MkRawMemory (Ptr (Some 2%nat) 0) 3 in
  (RawMemory.move_assignment destination source).2 ≠ RawMemory.default.
Proof. simpl. discriminate. Qed.

Lemma PushBack_sequence_of_three :
  let s := caller_store [1; 2; 3] in
  let cs := [CallPushBack (caller_object 0); CallPushBackMove (caller_object 1);
             CallPushBack (caller_object 2)] in
  store_ok s ∧ pushes s cs [1; 2; 3] ∧
  run_calls (ops := int_ops) always_grants cs (Vector.default, s) ≠ Fault ∧
  ∃ v' s', run_calls (ops := int_ops) always_grants cs (Vector.default, s)
             = Ok tt (v', s') ∧
           Vector.Size v' = 3 ∧ contents s' v' = Some [1; 2; 3].
Proof.
  intros s cs.
  assert (store_ok s) as Hok by (apply store_ok_check; by vm_compute).
  assert (pushes s cs [1; 2; 3]) as Hpush.
  { repeat first [ apply pushes_nil
                 | apply pushes_copy; [by vm_compute |]
                 | apply pushes_move; [by vm_compute | |] ].
    repeat constructor. intros [[=] | [=]]. }
  destruct (PushBack_sequence (ops := int_ops) always_grants cs [1; 2; 3] s
              Hok Hpush) as [Hsafe Hpost].
  split; [exact Hok |]. split; [exact Hpush |]. split.
  - apply Hsafe. rewrite SIZE_MODULUS_eq. simpl. lia.
  - eexists _, _. split; [by vm_compute |]. apply (Hpost tt). by vm_compute.
Qed.

Lemma capacity_never_decreases_witness :
  let cs := [CallPushBack (caller_object 0); CallReserve 10;
             CallPushBack (caller_object 0); CallResize 12] in
  size_invariant other_vector ∧ Forall growing cs ∧
  Vector.Size other_vector = Vector.Capacity other_vector ∧
  (∃ v' s', final_state (run_calls (ops := int_ops) always_grants cs
                           (other_vector, two_vectors_store)) = Some (v', s') ∧
            Vector.Capacity v' = 12 ∧
            Vector.Capacity other_vector ≤ Vector.Capacity v') ∧
  (∃ v' s', Vector.PushBack (ops := int_ops) always_grants (caller_object 0)
              (other_vector, two_vectors_store) = Ok tt (v', s') ∧
            Vector.Capacity other_vector = 2 ∧ Vector.Capacity v' = 4 ∧
            Vector.Capacity v' = Z.max 1 (2 * Vector.Capacity other_vector)).
Proof.
  intros cs.
  assert (size_invariant other_vector) as Hinv.
  { unfold size_invariant, other_vector. simpl. rewrite SIZE_MODULUS_eq. lia. }
  assert (Forall (growing (T := Z)) cs) as Hcs.
  { repeat first [ apply Forall_nil_2 | apply Forall_cons_2 ]; simpl;
      try exact I; unfold is_size_t; rewrite SIZE_MODULUS_eq; lia. }
  assert (Vector.Size other_vector = Vector.Capacity other_vector) as Hfull
    by reflexivity.
  destruct (capacity_never_decreases (ops := int_ops) always_grants cs
              (caller_object 0) other_vector two_vectors_store Hinv)
    as [Hmono Hgrowth].
  assert (∃ v' s', final_state (run_calls (ops := int_ops) always_grants cs
                                  (other_vector, two_vectors_store))
                     = Some (v', s') ∧ Vector.Capacity v' = 12)
    as (v1 & s1 & E1 & Hcap1).
  { eexists _, _. split; [by vm_compute | by vm_compute]. }
  assert (∃ v' s', Vector.PushBack (ops := int_ops) always_grants
                     (caller_object 0) (other_vector, two_vectors_store)
                     = Ok tt (v', s') ∧ Vector.Capacity v' = 4)
    as (v2 & s2 & E2 & Hcap2).
  { eexists _, _. split; [by vm_compute | by vm_compute]. }
  split; [exact Hinv |]. split; [exact Hcs |]. split; [exact Hfull |]. split.
  - exists v1, s1. split; [exact E1 |]. split; [exact Hcap1 |].
    exact (Hmono Hcs v1 s1 E1).
  - exists v2, s2. split; [exact E2 |]. split; [reflexivity |].
    split; [exact Hcap2 |]. exact (Hgrowth Hfull tt v2 s2 (or_introl E2)).
Defined.

Lemma copy_failure_leaves_container_unchanged_witness :
  let v := MkVector (MkRawMemory (Ptr (Some 1%nat) 0) 2) 2 in
  let s := MkStore {[ 1%nat := [Some 1; Some 13] ]} 2 [] in
  represents s v [1; 13] ∧
  relocates_by_move (ops := fragile_ops) = false ∧
  ∃ s', Vector.Reserve (ops := fragile_ops) always_grants 4 (v, s)
          = Throw element_exception (v, s') ∧
        contents s' v = Some [1; 13].
Proof.
  intros v s.
  assert (represents s v [1; 13]) as Hrep
    by (apply (represents_intro _ _ _ 1%nat); by vm_compute).
  split; [exact Hrep |]. split; [done |].
  eexists. split; [by vm_compute |].
  apply (copy_failure_leaves_container_unchanged (ops := fragile_ops)
           always_grants v s [1; 13] 4 v element_exception v _ Hrep).
  left. split; [done | by vm_compute].
Defined.

Lemma Erase_removes_element_by_move_only_witness :
  let v := MkVector (MkRawMemory (Ptr (Some 1%nat) 0) 4) 4 in
  let s := MkStore {[ 1%nat := [Some 1; Some 99; Some 2; Some 3] ]} 2 [] in
  represents s v [1; 99; 2; 3] ∧
  relocates_by_move (ops := int_ops) = true ∧
  Vector.Erase (ops := int_ops) (ptr_add (Vector.begin v) 0) (v, s) ≠ Fault ∧
  (∃ it v' s', Vector.Erase (ops := int_ops) (ptr_add (Vector.begin v) 0) (v, s)
                 = Ok it (v', s') ∧
               Vector.Size v' = 3 ∧ contents s' v' = Some [99; 2; 3]) ∧
  relocates_by_move (ops := fragile_ops) = false ∧
  Vector.Erase (ops := fragile_ops) (ptr_add (Vector.begin v) 0) (v, s) = Fault.
Proof.
  intros v s.
  assert (represents s v [1; 99; 2; 3]) as Hrep
    by (apply (represents_intro _ _ _ 1%nat); by vm_compute).
  destruct (Erase_removes_element_by_move_only (ops := int_ops) v s
              [1; 99; 2; 3] 0 Hrep ltac:(simpl; lia)) as [Hmove _].
  destruct (Hmove eq_refl) as [Hsafe Hpost].
  destruct (Erase_removes_element_by_move_only (ops := fragile_ops) v s
              [1; 99; 2; 3] 0 Hrep ltac:(simpl; lia)) as [_ Hcopy].
  split; [exact Hrep |]. split; [reflexivity |]. split; [exact Hsafe |]. split.
  - eexists _, _, _. split; [by vm_compute |].
    destruct (Hpost _ _ _ ltac:(by vm_compute)) as (Hsize & Hcontents & _).
    split; [exact Hsize | exact Hcontents].
  - split; [reflexivity |]. exact (Hcopy eq_refl).
Defined.

Lemma Emplace_inserts_at_position_witness :
  let args := ByCopy (Ptr (Some 0%nat) 0) in
  represents example_store example_vector [1; 2; 3] ∧
  keeps_elements example_store example_vector args ∧
  Vector.Emplace (ops := int_ops) always_grants
    (ptr_add (Vector.begin example_vector) 1) args
    (example_vector, example_store) ≠ Fault ∧
  ∃ it v' s', Vector.Emplace (ops := int_ops) always_grants
                (ptr_add (Vector.begin example_vector) 1) args
                (example_vector, example_store) = Ok it (v', s') ∧
              Vector.Size v' = 4 ∧ contents s' v' = Some [1; 99; 2; 3].
Proof.
  intros args.
  assert (keeps_elements example_store example_vector args) as Hkeeps
    by (intros q []).
  assert (ready example_store args) as Hready
    by (intros q ->; exists 99; by vm_compute).
  destruct (Emplace_inserts_at_position (ops := int_ops) always_grants
              example_vector example_store [1; 2; 3] 1 args
              example_represents ltac:(simpl; lia) Hkeeps) as [Hsafe Hpost].
  split; [exact example_represents |]. split; [exact Hkeeps |]. split.
  - apply Hsafe; [exact Hready |]. rewrite SIZE_MODULUS_eq. simpl. lia.
  - eexists _, _, _. split; [by vm_compute |].
    destruct (Hpost _ _ _ ltac:(by vm_compute)) as (Hsize & x & Hcontents & _).
    split; [exact Hsize | by vm_compute].
Defined.

Lemma Emplace_returns_iterator_to_new_element_witness :
  let args := ByCopy (Ptr (Some 0%nat) 0) in
  represents example_store example_vector [1; 2; 3] ∧
  keeps_elements example_store example_vector args ∧
  ∃ it v' s', Vector.Emplace (ops := int_ops) always_grants
                (ptr_add (Vector.begin example_vector) 1) args
                (example_vector, example_store) = Ok it (v', s') ∧
              ptr_distance (Vector.begin v') it = Some 1 ∧
              slot_at s' it = Some (Some 99).
Proof.
  intros args.
  assert (keeps_elements example_store example_vector args) as Hkeeps
    by (intros q []).
  destruct (Emplace_returns_iterator_to_new_element (ops := int_ops) always_grants
              example_vector example_store [1; 2; 3] 1 args
              example_represents ltac:(simpl; lia) Hkeeps) as [_ Hpost].
  split; [exact example_represents |]. split; [exact Hkeeps |].
  eexists _, _, _. split; [by vm_compute |].
  destruct (Hpost _ _ _ ltac:(by vm_compute)) as (Hdist & _ & x & Hx & _).
  split; [exact Hdist | by vm_compute].
Defined.

Lemma produced_size_invariant_witness :
  ∃ v s, final_state (run_call (ops := int_ops) always_grants
                        (CallPushBack (caller_object 0))
                        (Vector.default, caller_store [7])) = Some (v, s) ∧
         produced (ops := int_ops) always_grants v ∧ size_invariant v.
Proof.
  eexists _, _. split; [by vm_compute |].
  assert (produced (ops := int_ops) always_grants
            (MkVector (MkRawMemory (Ptr (Some 1%nat) 0) 1) 1)) as Hprod.
  { eapply (produced_call always_grants (CallPushBack (caller_object 0))
              Vector.default (caller_store [7]));
      [apply produced_default | apply args_push_back | by vm_compute]. }
  split; [exact Hprod |].
  exact (produced_size_invariant (ops := int_ops) always_grants _ Hprod).
Defined.

Lemma Reserve_within_capacity_is_noop_witness :
  3 ≤ Vector.Capacity vector_99 ∧
  Vector.Reserve (ops := int_ops) always_grants 3 (vector_99, store_99)
    = Ok tt (vector_99, store_99).
Proof.
  split; [by vm_compute |].
  apply (Reserve_within_capacity_is_noop (ops := int_ops)). by vm_compute.
Defined.

(** C3, the code against the claim.  On elements whose move leaves the
    source empty ([std::string]-like), push 7, a value of the caller, onto
    an empty container: the container is [[7]], full, with capacity 1.
    Then push its own first element, [PushBack(v[0])]: the value pushed is
    7, and the claim gives [[7; 7]].  The call finds the container full
    and reallocates; the reallocating path of [Emplace] moves the old
    elements into the new block before it constructs the new element from
    the reference, which by then denotes a moved-from object.  The call
    returns with size 2 and content [[7; 0]]. *)
Theorem PushBack_of_own_element_after_relocation :
  ∃ v1 s1 v2 s2,
    Vector.PushBack (ops := string_like_ops) always_grants (caller_object 0)
      (Vector.default, caller_store [7]) = Ok tt (v1, s1) ∧
    contents s1 v1 = Some [7] ∧ Vector.Size v1 = 1 ∧ Vector.Capacity v1 = 1 ∧
    slot_at s1 (ptr_add (Vector.begin v1) 0) = Some (Some 7) ∧
    Vector.PushBack (ops := string_like_ops) always_grants
      (ptr_add (Vector.begin v1) 0) (v1, s1) = Ok tt (v2, s2) ∧
    Vector.Size v2 = 2 ∧
    contents s2 v2 = Some [7; 0] ∧ contents s2 v2 ≠ Some [7; 7].
Proof.
  eexists _, _, _, _. split; [by vm_compute |].
  split; [by vm_compute |]. split; [by vm_compute |]. split; [by vm_compute |].
  split; [by vm_compute |]. split; [by vm_compute |]. split; [by vm_compute |].
  split; by vm_compute.
Qed.

(** The sibling paths do what the reallocating path misses.  With spare
    capacity the same [PushBack(v[0])] constructs the new element while the
    element referred to is untouched, and the in-place insertion before
    the end first builds the new element in a temporary
    ([T buff{...}]): both give the value the reference denoted at the
    call. *)
Lemma PushBack_of_own_element_with_spare_capacity :
  let v := MkVector (MkRawMemory (Ptr (Some 1%nat) 0) 2) 1 in
  let s := MkStore {[ 1%nat := [Some 7; None] ]} 2 [] in
  contents s v = Some [7] ∧
  (∃ v' s', Vector.PushBack (ops := string_like_ops) always_grants
              (ptr_add (Vector.begin v) 0) (v, s) = Ok tt (v', s') ∧
            contents s' v' = Some [7; 7]) ∧
  (∃ it v' s', Vector.Insert (ops := string_like_ops) always_grants
                 (ptr_add (Vector.begin v) 0) (ptr_add (Vector.begin v) 0) (v, s)
                 = Ok it (v', s') ∧
               contents s' v' = Some [7; 7]).
Proof.
  split; [by vm_compute |]. split.
  - eexists _, _. split; by vm_compute.
  - eexists _, _, _. split; by vm_compute.
Qed.

(** * Further properties of the code *)

(** ** The record of destructor calls *)

Section Destroyed.

Context {T : Type} {ops : ElemOps T}.
Variable grants : Store T → Z → bool.
Implicit Types (s : Store T) (p q : ptr) (xs : list T) (v : Vector).

Lemma set_slot_destroyed p o s u s' :
  set_slot p o s = Ok u s' → destroyed s' = destroyed s.
Proof.
  unfold set_slot. destruct (p_blk p) as [b|]; [| done].
  destruct (blocks s !! b); [| done]. case_decide; [| done]. by intros [= _ <-].
Qed.

Lemma operator_delete_destroyed p s u s' :
  operator_delete p s = Ok u s' → destroyed s' = destroyed s.
Proof. by intros [[_ ->] | (b & _ & _ & ->)]%operator_delete_Ok. Qed.

Lemma destructor_destroyed (m : RawMemory) s u s' :
  RawMemory.destructor m s = Ok u s' → destroyed s' = destroyed s.
Proof. apply operator_delete_destroyed. Qed.

Lemma construct_from_destroyed args s x s' :
  construct_from args s = Ok x s' → destroyed s' = destroyed s.
Proof.
  destruct args as [p|p|r]; simpl; intros E.
  - apply bind_Ok in E as (y & s1 & [_ ->]%load_Ok & [_ ->]%elem_Ok). done.
  - apply bind_Ok in E as (y & s1 & [_ ->]%load_Ok & E).
    apply bind_Ok in E as (r & s1 & [_ ->]%elem_Ok & E).
    apply bind_Ok in E as (u & s1 & Hset%set_slot_destroyed & [_ ->]%ret_Ok).
    done.
  - by apply elem_Ok in E as [_ ->].
Qed.

Lemma ConstructElement_destroyed buf args s u s' :
  ConstructElement buf args s = Ok u s' → destroyed s' = destroyed s.
Proof.
  intros (x & s1 & H1%construct_from_destroyed & H2%set_slot_destroyed)%ConstructElement_Ok.
  congruence.
Qed.

Lemma ConstructElement_Throw buf args s e s' :
  ConstructElement buf args s = Throw e s' →
  s' = s ∧ construct_from args s = Throw e s.
Proof.
  unfold ConstructElement, place.
  intros [H | (x & s1 & _ & H)]%bind_Throw; [| by apply set_slot_Throw in H].
  pose proof (construct_from_Throw _ _ _ _ H) as [_ ->]. done.
Qed.

(** A destructor call is recorded with the value of its object. *)
Lemma Destroy_destroyed buf s u s' :
  Destroy buf s = Ok u s' →
  ∃ x, slot_at s buf = Some (Some x) ∧ destroyed s' = x :: destroyed s.
Proof.
  unfold Destroy. intros (x & s1 & [Hx ->]%load_Ok & E)%bind_Ok.
  apply bind_Ok in E as (u1 & s1 & (Hrec & _)%record_destroyed_Ok
                         & Hset%set_slot_destroyed).
  exists x. split; [done | congruence].
Qed.

(** [std::destroy_n] on the objects [xs] records them, first to last. *)
Lemma destroy_loop_destroyed p xs s u s' :
  array_at s p xs →
  destroy_loop p (length xs) s = Ok u s' →
  destroyed s' = reverse xs ++ destroyed s.
Proof.
  revert p s. induction xs as [| x xs IH]; intros p s Hxs; simpl.
  - by intros [_ ->]%ret_Ok.
  - apply array_at_cons in Hxs as [Hx Hxs].
    intros (u1 & s1 & Hd & Hrest)%bind_Ok.
    pose proof (Destroy_destroyed _ _ _ _ Hd) as (x' & Hx' & Hlog).
    apply Destroy_Ok in Hd as [_ [_ Hq]].
    assert (x' = x) as -> by congruence.
    apply IH in Hrest.
    + rewrite Hrest, Hlog, reverse_cons, <- app_assoc. done.
    + eapply array_at_frame; [| exact Hxs].
      intros q Hin. rewrite Hq, decide_False; [done |].
      clear -Hin. ptr_cases.
Qed.

Lemma destroy_n_destroyed p n xs s u s' :
  array_at s p xs → n = Z.of_nat (length xs) →
  destroy_n p n s = Ok u s' →
  destroyed s' = reverse xs ++ destroyed s.
Proof.
  intros Hxs -> E. unfold destroy_n in E. rewrite Nat2Z.id in E.
  by eapply destroy_loop_destroyed.
Qed.

(** A construction loop that returns has called no destructor. *)
Lemma uninitialized_loop_destroyed args d_first cnt n s u s' :
  uninitialized_loop args d_first cnt n s = Ok u s' →
  destroyed s' = destroyed s.
Proof.
  revert cnt s. induction n as [| n IH]; intros cnt s; simpl.
  - by intros [_ ->]%ret_Ok.
  - intros (u1 & s1 & H1 & H2%IH)%bind_Ok.
    apply on_exception_Ok, ConstructElement_destroyed in H1. congruence.
Qed.

Lemma UninitCopyOrMove_destroyed from count to s u s' :
  Vector.UninitCopyOrMove from count to s = Ok u s' →
  destroyed s' = destroyed s.
Proof.
  unfold Vector.UninitCopyOrMove, uninitialized_move_n, uninitialized_copy_n.
  destruct (_ || _); apply uninitialized_loop_destroyed.
Qed.



Section Copies.

Context {lawful : LawfulElem T}.

(** [std::uninitialized_copy_n] that throws has copied the objects before
    the one whose copy constructor threw, and has destroyed those copies,
    first to last. *)
Lemma copy_loop_Throw_destroyed first d_first built rest cnt s e s' :
  p_blk first ≠ p_blk d_first →
  cnt = Z.of_nat (length built) →
  array_at s d_first built →
  array_at s (ptr_add first cnt) rest →
  uninitialized_loop (λ i, ByCopy (ptr_add first i)) d_first cnt (length rest) s
    = Throw e s' →
  ∃ k x, rest !! k = Some x ∧ copy_construct x = None ∧
         destroyed s' = reverse (built ++ take k rest) ++ destroyed s.
Proof.
  intros Hblk. revert built cnt s.
  induction rest as [| x rest IH]; intros built cnt s Hdone Hbuilt Hrest;
    simpl; [done |].
  apply array_at_cons in Hrest as [Hx Hrest]. rewrite ptr_add_add in Hrest.
  intros [H | (u1 & s1 & H1 & H)]%bind_Throw.
  - apply on_exception_Throw in H as (e1 & s1 & [-> H]%ConstructElement_Throw & Hh).
    simpl in H.
    apply bind_Throw in H as [H%load_Throw | (y & s1 & [Hy ->]%load_Ok & H)];
      [done |].
    apply elem_Throw in H as (Hcopy & _ & _).
    assert (y = x) as -> by congruence.
    destruct Hh as [[Hh _] | Hh]; [| by apply destroy_n_Throw in Hh].
    exists 0%nat, x. split; [done |]. split; [done |].
    rewrite take_0, app_nil_r. by eapply destroy_n_destroyed.
  - apply on_exception_Ok in H1.
    pose proof (ConstructElement_destroyed _ _ _ _ _ H1) as Hlog.
    apply ConstructElement_Ok in H1
      as (y & s0 & [Hy ->]%construct_from_copy_Ok & [_ [Hs1 Hq1]]%set_slot_updated).
    assert (y = x) as -> by congruence.
    apply (IH (built ++ [x])) in H as (k & z & Hk & Hcopy & Hlog').
    + exists (S k), z. split; [done |]. split; [done |].
      rewrite Hlog', Hlog. simpl. by rewrite <- app_assoc.
    + rewrite length_app. simpl. lia.
    + apply array_at_app. split.
      * eapply array_at_frame; [| exact Hbuilt].
        intros q [Hqb Hqo]. rewrite Hq1, decide_False; [done |].
        intros ->. simpl in Hqo. lia.
      * apply array_at_cons. split; [| apply array_at_nil].
        rewrite Hq1, <- Hdone. by rewrite decide_True.
    + eapply array_at_frame; [| exact Hrest].
      intros q [Hqb _]. rewrite Hq1, decide_False; [done |].
      intros ->. simpl in Hqb. congruence.
Qed.

End Copies.

End Destroyed.

(** * Further properties of the member functions *)

Section Shrinking.

Context {T : Type} {ops : ElemOps T} {lawful : LawfulElem T}.
Variable grants : Store T → Z → bool.
Implicit Types (s : Store T) (p q : ptr) (xs : list T) (v : Vector).

Lemma owns_same_shape s s' (m : RawMemory) : same_shape s s' → owns s m → owns s' m.
Proof.
  intros [_ Hlen] [? | (b & ? & ? & Hb)]; [by left | right].
  exists b. by rewrite Hlen.
Qed.

Lemma represents_live s v xs k :
  represents s v xs → 0 ≤ k < size_ v → live s (ptr_add (buffer_ (data_ v)) k).
Proof. intros Hrep. by apply (represents_well_formed s v xs Hrep). Qed.

(** What [PopBack] does on a non-empty container. *)
Lemma PopBack_total v s xs :
  represents s v xs → xs ≠ [] →
  ∃ s', Vector.PopBack (v, s) = Ok tt (MkVector (data_ v) (size_ v - 1), s') ∧
        represents s' (MkVector (data_ v) (size_ v - 1)) (removelast xs) ∧
        slot_at s' (ptr_add (Vector.begin v) (size_ v - 1)) = Some None ∧
        ∀ q, q ≠ ptr_add (Vector.begin v) (size_ v - 1) →
             slot_at s' q = slot_at s q.
Proof.
  intros Hrep Hne. pose proof Hrep as [Hsize [[Hsz0 Hsz] Hcap] Howns Hxs Hok].
  unfold Vector.begin, RawMemory.GetAddress.
  assert (0 < size_ v) as Hpos by (destruct xs; [done | simpl in Hsize; lia]).
  assert (wrap (size_ v - 1) = size_ v - 1) as Hw by (apply wrap_small; lia).
  destruct (Destroy_total (ptr_add (buffer_ (data_ v)) (size_ v - 1)) s)
    as (s' & E & [Hs Hq]).
  { eapply represents_live; [done | lia]. }
  exists s'. split; [| split; [| split]].
  - unfold Vector.PopBack, bind, Vector.this, RawMemory.plus, assert, bind.
    simpl. rewrite Hw.
    rewrite (proj2 (Z.ltb_lt _ _) Hpos).
    rewrite (proj2 (Z.leb_le (size_ v - 1) _)) by lia. simpl.
    unfold Vector.mem. simpl. by rewrite E.
  - split; simpl.
    + rewrite removelast_firstn_len, length_take. lia.
    + unfold size_invariant. simpl. lia.
    + by eapply owns_same_shape.
    + rewrite removelast_firstn_len. intros i x Hi.
      pose proof (lookup_lt_Some _ _ _ Hi) as Hlt.
      rewrite length_take in Hlt. rewrite lookup_take_lt in Hi by lia.
      rewrite Hq, decide_False; [by apply Hxs |].
      intros Heq%ptr_add_inj. lia.
    + by eapply same_shape_store_ok.
  - by rewrite Hq, decide_True.
  - intros q Hneq. by rewrite Hq, decide_False.
Qed.

(** X1: [PopBack].  On an empty container the [assert] fails.  On a
    non-empty one the call returns: the last element is destroyed, its slot
    is raw memory again, size is one less, the buffer and the capacity are
    the same and no other slot changes. *)
Theorem PopBack_removes_last v s xs :
  represents s v xs →
  (xs = [] → Vector.PopBack (v, s) = Fault) ∧
  (xs ≠ [] →
   ∃ s', Vector.PopBack (v, s) = Ok tt (MkVector (data_ v) (size_ v - 1), s') ∧
         represents s' (MkVector (data_ v) (size_ v - 1)) (removelast xs) ∧
         slot_at s' (ptr_add (Vector.begin v) (size_ v - 1)) = Some None ∧
         ∀ q, q ≠ ptr_add (Vector.begin v) (size_ v - 1) →
              slot_at s' q = slot_at s q).
Proof.
  intros Hrep. split.
  - intros ->. pose proof (rep_size _ _ _ Hrep) as Hsize. simpl in Hsize.
    unfold Vector.PopBack, bind, Vector.this. simpl. by rewrite Hsize.
  - by apply PopBack_total.
Qed.

(** X2: [Resize(n)] with [n <= Size()] returns: the elements from index [n]
    on are destroyed and their slots are raw memory, the first [n]
    elements, the buffer and the capacity are as before. *)
Theorem Resize_shrinks v s xs n :
  represents s v xs →
  0 ≤ n ≤ size_ v →
  ∃ s', Vector.Resize grants n (v, s) = Ok tt (MkVector (data_ v) n, s') ∧
        represents s' (MkVector (data_ v) n) (take (Z.to_nat n) xs) ∧
        (∀ k, n ≤ k < size_ v →
              slot_at s' (ptr_add (Vector.begin v) k) = Some None) ∧
        (∀ q, ¬ in_range (ptr_add (Vector.begin v) n) (size_ v - n) q →
              slot_at s' q = slot_at s q).
Proof.
  intros Hrep Hn. pose proof Hrep as [Hsize [[Hsz0 Hsz] Hcap] Howns Hxs Hok].
  unfold Vector.begin, RawMemory.GetAddress.
  assert (wrap (size_ v - n) = size_ v - n) as Hw by (apply wrap_small; lia).
  destruct (destroy_n_total (ptr_add (buffer_ (data_ v)) n) (size_ v - n) s)
    as [s' E].
  { intros k Hk. rewrite ptr_add_add. eapply represents_live; [done | lia]. }
  pose proof E as [Hs Hq]%destroy_n_Ok; [| lia].
  assert (Vector.Resize grants n (v, s) = Ok tt (MkVector (data_ v) n, s') ∧
          (n = size_ v → s' = s)) as [Hrun Hsame].
  { unfold Vector.Resize, bind, Vector.this, RawMemory.Capacity. simpl.
    rewrite (proj2 (Z.ltb_ge _ _)) by lia.
    destruct (Z.ltb_spec n (size_ v)) as [Hlt | Hge].
    - unfold RawMemory.plus, bind, assert.
      rewrite (proj2 (Z.leb_le n _)) by lia. simpl.
      unfold Vector.mem. simpl. rewrite Hw, E. split; [done | lia].
    - assert (size_ v - n = 0) as H0 by lia. rewrite H0 in E.
      injection E as <-. done. }
  exists s'. split; [done |]. split; [| split].
  - split; simpl.
    + rewrite length_take. lia.
    + unfold size_invariant. simpl. lia.
    + by eapply owns_same_shape.
    + intros i x Hi. pose proof (lookup_lt_Some _ _ _ Hi) as Hlt.
      rewrite length_take in Hlt. rewrite lookup_take_lt in Hi by lia.
      rewrite Hq, decide_False; [by apply Hxs |].
      unfold in_range. simpl. lia.
    + by eapply same_shape_store_ok.
  - intros k Hk. rewrite Hq, decide_True; [done |].
    unfold in_range. simpl. split; [done | lia].
  - intros q Hnq. by rewrite Hq, decide_False.
Qed.

(** X3: [operator[]] and the bounds it asserts.  For an index below the
    size it returns the address [begin() + index], where the element of
    that index lives, and changes nothing; for an index from the size on,
    the [assert] fails. *)
Theorem subscript_checks_index v s xs i :
  represents s v xs →
  0 ≤ i →
  (∀ x, xs !! Z.to_nat i = Some x →
        Vector.subscript i (v, s) = Ok (ptr_add (Vector.begin v) i) (v, s) ∧
        slot_at s (ptr_add (Vector.begin v) i) = Some (Some x)) ∧
  (size_ v ≤ i → Vector.subscript i (v, s) = Fault).
Proof.
  intros [Hsize [[Hsz0 Hsz] Hcap] Howns Hxs Hok] Hi. split.
  - intros x Hx. pose proof (lookup_lt_Some _ _ _ Hx) as Hlt.
    split; [| exact (array_at_lookup _ _ _ _ _ Hxs Hi Hx)].
    unfold Vector.subscript, RawMemory.subscript, bind, Vector.this, assert. simpl.
    rewrite (proj2 (Z.ltb_lt i (size_ v))) by lia. simpl.
    by rewrite (proj2 (Z.ltb_lt i (capacity_ (data_ v)))) by lia.
  - intros Hge. unfold Vector.subscript, bind, Vector.this, assert. simpl.
    by rewrite (proj2 (Z.ltb_ge i (size_ v))) by lia.
Qed.

End Shrinking.

Section Exchange.

Context {T : Type} {ops : ElemOps T}.
Variable grants : Store T → Z → bool.
Implicit Types (s : Store T) (p q : ptr) (xs : list T) (v : Vector).

(** X4: [Swap], move assignment and move construction.  [Swap] and move
    assignment exchange the contents of the two containers without
    touching the store, so the source of a move assignment holds the
    destination's former elements; swapping back restores both objects.
    Move construction gives the new object the source's elements and
    leaves the source in the default state. *)
Theorem Swap_exchanges_contents v o s xs ys :
  represents s v xs →
  represents s o ys →
  ∃ v' o',
    Vector.Swap (Other o) (v, s) = Ok (Other o') (v', s) ∧
    Vector.move_assignment (Other o) (v, s) = Ok (Other o') (v', s) ∧
    represents s v' ys ∧ represents s o' xs ∧
    Vector.Swap (Other o') (v', s) = Ok (Other o) (v, s) ∧
    represents s (Vector.move_constructor o).1 ys ∧
    (Vector.move_constructor o).2 = Vector.default.
Proof.
  intros [Hsv Hiv Hov Hxv Hok] [Hso Hio Hoo Hxo _].
  destruct v as [[bv cv] nv], o as [[bo co] no]. simpl in *.
  eexists _, _. split; [reflexivity |]. split; [reflexivity |].
  split_and!; try reflexivity; by split.
Qed.

(** X5: allocation failure.  When the allocator refuses the block a call
    asks for, the call throws [bad_alloc] and leaves the container and the
    store exactly as they were: [Reserve] and [Resize] beyond the capacity,
    [Emplace] (so [PushBack] and [Insert]) on a full container, the sized
    and the copy constructor, and copy assignment from a longer
    container. *)
Theorem allocation_failure_changes_nothing v s :
  size_invariant v →
  (∀ n, capacity_ (data_ v) < n → grants s n = false →
        Vector.Reserve grants n (v, s) = Throw bad_alloc (v, s) ∧
        Vector.Resize grants n (v, s) = Throw bad_alloc (v, s)) ∧
  (∀ i args,
     size_ v = capacity_ (data_ v) → 2 * size_ v < SIZE_MODULUS →
     grants s (Z.max 1 (2 * size_ v)) = false →
     Vector.Emplace grants (ptr_add (Vector.begin v) i) args (v, s)
       = Throw bad_alloc (v, s)) ∧
  (∀ n, n ≠ 0 → grants s n = false →
        Vector.sized grants n s = Throw bad_alloc s) ∧
  (∀ rhs, size_ rhs ≠ 0 → grants s (size_ rhs) = false →
          Vector.copy_constructor grants rhs s = Throw bad_alloc s ∧
          (capacity_ (data_ v) < size_ rhs →
           Vector.copy_assignment grants (Other rhs) (v, s)
             = Throw bad_alloc (v, s))).
Proof.
  intros [[Hsz0 Hsz] Hcap].
  assert (∀ n, n ≠ 0 → grants s n = false →
               RawMemory.sized grants n s = Throw bad_alloc s) as Hsized.
  { intros n Hn Hg. unfold RawMemory.sized, RawMemory.Allocate, bind, operator_new.
    by rewrite (proj2 (Z.eqb_neq _ _) Hn), Hg. }
  split_and!.
  - intros n Hn Hg.
    assert (Vector.Reserve grants n (v, s) = Throw bad_alloc (v, s)) as HR.
    { unfold Vector.Reserve, bind, Vector.this, RawMemory.Capacity. simpl.
      rewrite (proj2 (Z.leb_gt _ _)) by lia.
      unfold Vector.mem. simpl. rewrite Hsized by (done || lia). by destruct v. }
    split; [done |].
    unfold Vector.Resize, bind at 1, Vector.this, RawMemory.Capacity. simpl.
    rewrite (proj2 (Z.ltb_lt _ _)) by lia. unfold bind. by rewrite HR.
  - intros i args Hfull Hbound Hg.
    unfold Vector.Emplace, bind, Vector.this, of_option. simpl.
    unfold ptr_distance. simpl. rewrite decide_True by done. simpl.
    unfold RawMemory.Capacity.
    rewrite (proj2 (Z.eqb_eq (capacity_ (data_ v)) (size_ v))) by lia.
    rewrite orb_true_r.
    assert ((if size_ v =? 0 then 1 else wrap (size_ v * 2)) = Z.max 1 (2 * size_ v))
      as ->.
    { destruct (Z.eqb_spec (size_ v) 0); [lia |]. rewrite wrap_small; lia. }
    unfold Vector.mem. simpl. rewrite Hsized by (done || lia). by destruct v.
  - intros n Hn Hg. unfold Vector.sized, bind. by rewrite Hsized.
  - intros rhs Hn Hg.
    assert (Vector.copy_constructor grants rhs s = Throw bad_alloc s) as HC.
    { unfold Vector.copy_constructor, bind. by rewrite Hsized. }
    split; [done |]. intros Hlt.
    unfold Vector.copy_assignment, bind, Vector.this, Vector.Capacity,
      RawMemory.Capacity. simpl.
    rewrite (proj2 (Z.leb_gt _ _)) by lia.
    unfold Vector.mem. simpl. rewrite HC. by destruct v.
Qed.

Lemma DestroyN_loop_destroy_loop buf i n s :
  Vector.DestroyN_loop buf i n s = destroy_loop (ptr_add buf i) n s.
Proof.
  revert i s. induction n as [| n IH]; intros i s; simpl; [done |].
  unfold bind. destruct (Destroy (ptr_add buf i) s) as [u s1|e s1|]; [| done..].
  by rewrite IH, ptr_add_add.
Qed.

Lemma DestroyN_destroy_n buf n s :
  Vector.DestroyN buf n s = destroy_n buf n s.
Proof.
  unfold Vector.DestroyN, destroy_n.
  by rewrite DestroyN_loop_destroy_loop, ptr_add_0.
Qed.

(** X6: the private helper [DestroyN].  On [n] live objects from [buf] on
    it returns: those [n] slots are raw memory afterwards and every other
    slot is as it was.  It never throws. *)
Theorem DestroyN_destroys_range buf n s :
  0 ≤ n →
  (∀ k, 0 ≤ k < n → live s (ptr_add buf k)) →
  (∃ s', Vector.DestroyN buf n s = Ok tt s' ∧
         ∀ q, slot_at s' q =
              if decide (in_range buf n q) then Some None else slot_at s q) ∧
  (∀ m e s', Vector.DestroyN buf m s ≠ Throw e s').
Proof.
  intros Hn Hlive. split.
  - destruct (destroy_n_total buf n s Hlive) as [s' E].
    exists s'. rewrite DestroyN_destroy_n. split; [done |].
    by apply destroy_n_Ok in E as [_ ?].
  - intros m e s' E. rewrite DestroyN_destroy_n in E.
    by apply destroy_n_Throw in E.
Qed.

End Exchange.

Section Growth.

Context {T : Type} {ops : ElemOps T} {lawful : LawfulElem T}.
Variable grants : Store T → Z → bool.
Implicit Types (s : Store T) (p q : ptr) (xs : list T) (v : Vector).

Lemma destructor_releases_block (m : RawMemory) s u s' b :
  RawMemory.destructor m s = Ok u s' →
  p_blk (buffer_ m) = Some b → blocks s' !! b = None.
Proof.
  unfold RawMemory.destructor, RawMemory.Deallocate.
  intros [[-> ->] | (b' & -> & Hb & ->)]%operator_delete_Ok; simpl; [done |].
  intros [= ->]. apply lookup_delete_eq.
Qed.

(** What a reallocating [Reserve] does, with the block the allocator
    returned: it has the slots of the byte count, which are the [n] slots
    asked for only when the byte count did not wrap around. *)
Lemma Reserve_Ok_block v s xs n u v' s' :
  represents s v xs →
  capacity_ (data_ v) < n < SIZE_MODULUS →
  Vector.Reserve grants n (v, s) = Ok u (v', s') →
  v' = MkVector (MkRawMemory (Ptr (Some (next_block s)) 0) n) (size_ v) ∧
  block_len s' (next_block s) = Some (allocated_slots n) ∧
  array_at s' (Ptr (Some (next_block s)) 0) xs ∧
  store_ok s' ∧
  (∀ k, size_ v ≤ k < Z.of_nat (allocated_slots n) →
        slot_at s' (ptr_add (Ptr (Some (next_block s)) 0) k) = Some None) ∧
  (∀ b, p_blk (buffer_ (data_ v)) = Some b → blocks s' !! b = None) ∧
  (∀ q, p_blk q ≠ p_blk (buffer_ (data_ v)) → p_blk q ≠ Some (next_block s) →
        slot_at s' q = slot_at s q).
Proof.
  intros [Hsize [[Hsz0 Hsz] Hcap] Howns Hxs Hok] [Hlt Hn] E.
  unfold Vector.Reserve in E. inv_step E. simpl in E.
  unfold RawMemory.Capacity, RawMemory.GetAddress in E.
  rewrite (proj2 (Z.leb_gt _ _)) in E by lia. inv_run.
  lazymatch goal with
  | H : RawMemory.sized _ _ _ = Ok _ _ |- _ =>
      pose proof (sized_Ok _ _ _ _ _ H) as [_ [(? & _) | (_ & _ & _ & Hnew)]];
      [lia |];
      apply sized_fresh in H as (-> & Hnext1 & Hlen1 & Hblocks1 & Hok1);
      [| done | lia]
  end.
  simpl in *.
  set (buf := buffer_ (data_ v)) in *.
  set (nbuf := Ptr (Some (next_block s)) 0) in *.
  assert (p_blk buf ≠ p_blk nbuf) as Hblk by by apply owns_not_fresh.
  assert (∀ q, p_blk q ≠ p_blk nbuf → slot_at s1 q = slot_at s q) as Hq1.
  { intros q Hq. apply blocks_frame_slot. intros b Hb. apply Hblocks1.
    intros ->. by apply Hq. }
  assert (∀ k, 0 ≤ k < Z.of_nat (allocated_slots n) →
               slot_at s1 (ptr_add nbuf k) = Some None) as Hraw.
  { intros k Hk. unfold slot_at. simpl. rewrite Hnew, lookup_insert_eq.
    rewrite decide_True by lia. apply lookup_replicate_2. lia. }
  lazymatch goal with
  | H2 : Vector.UninitCopyOrMove _ _ _ _ = Ok _ _,
    H3 : destroy_n _ _ _ = Ok _ _,
    H4 : RawMemory.destructor _ _ = Ok _ _ |- _ =>
      apply (UninitCopyOrMove_Ok _ _ xs) in H2 as (Hs3 & Hxs3 & Hq3);
        [| done
         | eapply array_at_frame; [| exact Hxs];
           intros q [Hq _]; apply Hq1; congruence
         | done];
      apply destroy_n_Ok in H3 as [Hs4 Hq4]; [| lia];
      pose proof (λ b, destructor_releases_block _ _ _ _ b H4) as Hgone;
      apply destructor_frame in H4 as (Hnext' & Hblocks' & Hok')
  end.
  simpl in *.
  assert (∀ q, p_blk q ≠ p_blk buf → slot_at s2 q = slot_at s3 q) as Hq'.
  { intros q Hq. transitivity (slot_at s4 q); [| rewrite Hq4, decide_False; [done | by intros [? _]]].
    apply blocks_frame_slot. intros b Hb. apply Hblocks'. congruence. }
  split; [done |]. split; [| split; [| split; [| split; [| split]]]].
  - unfold block_len. rewrite Hblocks' by (intros ?; by apply Hblk).
    destruct Hs3 as [_ Hl3], Hs4 as [_ Hl4].
    specialize (Hl3 (next_block s)). specialize (Hl4 (next_block s)).
    unfold block_len in *. by rewrite Hl4, Hl3.
  - eapply array_at_frame; [| exact Hxs3].
    intros q [Hq _]. apply Hq'. simpl in Hq. congruence.
  - apply Hok'. eapply same_shape_store_ok; [exact Hs4 |].
    by eapply same_shape_store_ok.
  - intros k Hk. rewrite Hq' by (simpl; congruence).
    rewrite Hq3; [apply Hraw; lia | |].
    + unfold in_range. simpl. lia.
    + unfold in_range. simpl. intros [? _]. by apply Hblk.
  - intros b Hb. by apply Hgone.
  - intros q Hqb Hqn. rewrite Hq' by done.
    rewrite Hq3; [by apply Hq1 | |].
    + unfold in_range. simpl. intros [? _]. congruence.
    + unfold in_range. intros [? _]. congruence.
Qed.

(** A reallocating [Reserve] whose block has all the slots asked for. *)
Lemma Reserve_Ok v s xs n u v' s' :
  represents s v xs →
  capacity_ (data_ v) < n < SIZE_MODULUS →
  allocated_slots n = Z.to_nat n →
  Vector.Reserve grants n (v, s) = Ok u (v', s') →
  v' = MkVector (MkRawMemory (Ptr (Some (next_block s)) 0) n) (size_ v) ∧
  represents s' v' xs ∧
  (∀ k, size_ v ≤ k < n →
        slot_at s' (ptr_add (Ptr (Some (next_block s)) 0) k) = Some None) ∧
  (∀ b, p_blk (buffer_ (data_ v)) = Some b → blocks s' !! b = None) ∧
  (∀ q, p_blk q ≠ p_blk (buffer_ (data_ v)) → p_blk q ≠ Some (next_block s) →
        slot_at s' q = slot_at s q).
Proof.
  intros Hrep Hn Hwhole E.
  pose proof Hrep as [Hsize [[Hsz0 Hsz] Hcap] _ _ _].
  destruct (Reserve_Ok_block _ _ _ _ _ _ _ Hrep Hn E)
    as (-> & Hlen & Hxs' & Hok' & Hraw & Hgone & Hframe).
  split; [done |]. split; [| split; [| done]].
  - split; simpl; [done | unfold size_invariant; simpl; lia | | done | done].
    right. exists (next_block s). split; [done |]. simpl. split; [lia |].
    by rewrite Hlen, Hwhole.
  - intros k Hk. apply Hraw. rewrite Hwhole. lia.
Qed.

Lemma Reserve_no_fault v s n :
  well_formed s v → 0 ≤ n → n * size_of < SIZE_MODULUS →
  Vector.Reserve grants n (v, s) ≠ Fault.
Proof.
  intros ([[Hsz0 Hsz] Hcap] & Howns & Hok & Hlive) Hn0 Hfit.
  apply (outcome_no_fault _ (λ _ _, True) (λ _ _, True)).
  unfold Vector.Reserve.
  eapply outcome_bind; [apply outcome_this |]. intros ? ? _ [-> ->]. simpl.
  unfold RawMemory.Capacity, RawMemory.GetAddress.
  destruct (Z.leb_spec n (capacity_ (data_ v))) as [Hle | Hlt]; [done |].
  eapply outcome_step;
    [apply outcome_mem; apply outcome_sized; [done | lia | done | done]
    | by intros |].
  intros m [v1 s1] _ (Hv1 & -> & Hok1 & Hfree1 & Hl1 & Hfr & Hnew).
  simpl in Hv1, Hok1, Hfree1, Hl1, Hfr, Hnew |- *. subst v1.
  set (new := Ptr (Some (next_block s)) 0) in *.
  eapply (outcome_step _ _ _ (λ _ st, st.1 = v ∧ same_shape s1 st.2));
    [| by intros |].
  - eapply (outcome_on_exception _ _ _ _
              (λ _ st, st.1 = v ∧ same_shape s1 st.2) (λ _ _, True)).
    + eapply outcome_step.
      { apply outcome_mem. apply outcome_UninitCopyOrMove.
        intros k Hk. split; [apply Hl1, Hlive; lia | apply Hnew; lia]. }
      { by intros e [v2 s2] [? ?]. }
      intros u2 [v2 s2] _ (Hv2 & Hk2 & _). simpl in Hv2, Hk2. subst v2.
      eapply outcome_mono.
      { apply outcome_mem. apply (outcome_destroy_n _ _ _ (λ _ _, False)).
        intros k Hk. apply Hk2, Hl1, Hlive. lia. }
      { intros u3 [v3 s3] [? Hs3]. split; [done |].
        eapply same_shape_trans; [| exact Hs3]. by destruct Hk2. }
      { by intros e [v3 s3] [_ []]. }
    + intros e [v2 s2] _ [Hv2 Hs2]. simpl in Hv2, Hs2. subst v2.
      destruct (destructor_total (MkRawMemory new n) s2) as [s3 E].
      { by eapply same_shape_freeable. }
      unfold Vector.mem. simpl. by rewrite E.
  - intros u [v3 s3] _ [Hv3 Hs3]. simpl in Hv3, Hs3. subst v3.
    eapply outcome_bind; [apply outcome_set_data |]. intros ? ? _ ->. simpl.
    destruct (destructor_total (MkRawMemory (buffer_ (data_ v)) (capacity_ (data_ v))) s3)
      as [s4 E].
    { eapply same_shape_freeable; [exact Hs3 |]. apply Hfr.
      apply owns_freeable in Howns. by destruct (data_ v). }
    unfold Vector.mem. simpl. by rewrite E.
Qed.

(** X7: [Reserve(n)] beyond the capacity, for an [n] whose byte count
    [n * sizeof(T)] fits a [size_t], has no undefined behaviour; when it
    returns, the elements are the same, in a block of [n] slots that was
    just allocated, the size is unchanged, the old block is released and no
    other block changes. *)
Theorem Reserve_grows v s xs n :
  represents s v xs →
  capacity_ (data_ v) < n →
  n * size_of < SIZE_MODULUS →
  Vector.Reserve grants n (v, s) ≠ Fault ∧
  ∀ u v' s',
    Vector.Reserve grants n (v, s) = Ok u (v', s') →
    represents s' v' xs ∧
    Vector.Capacity v' = n ∧ Vector.Size v' = Vector.Size v ∧
    Vector.begin v' = Ptr (Some (next_block s)) 0 ∧
    (∀ b, p_blk (Vector.begin v) = Some b → blocks s' !! b = None) ∧
    (∀ q, p_blk q ≠ p_blk (Vector.begin v) → p_blk q ≠ p_blk (Vector.begin v') →
          slot_at s' q = slot_at s q).
Proof.
  intros Hrep Hlt Hfit.
  pose proof Hrep as [_ [[Hsz0 Hsz] _] _ _ _].
  pose proof size_of_range as [Hz _].
  assert (n < SIZE_MODULUS) as HnM by nia.
  split.
  - apply Reserve_no_fault; [by eapply represents_well_formed | lia | done].
  - intros u v' s' E.
    destruct (Reserve_Ok _ _ _ _ _ _ _ Hrep (conj Hlt HnM)
                ltac:(apply allocated_slots_exact; [lia | done]) E)
      as (-> & Hrep' & _ & Hgone & Hframe).
    by split_and!.
Qed.

(** [std::uninitialized_value_construct_n] *)
Lemma value_construct_loop_Ok dst done n s u s' :
  uninitialized_loop (λ _, ByValue value_init) dst done n s = Ok u s' →
  same_shape s s' ∧
  (∀ k, 0 ≤ k < Z.of_nat n →
        ∃ d, value_init = Some d ∧
             slot_at s' (ptr_add dst (done + k)) = Some (Some d)) ∧
  (∀ q, ¬ in_range (ptr_add dst done) (Z.of_nat n) q → slot_at s' q = slot_at s q).
Proof.
  revert done s. induction n as [| n IH]; intros done s; simpl.
  - intros [_ ->]%ret_Ok. split; [apply same_shape_refl |]. split; [lia | done].
  - intros (u1 & s1 & H1%on_exception_Ok & H2)%bind_Ok.
    apply ConstructElement_Ok in H1
      as (d & s0 & [Hd ->]%construct_from_value_Ok & [_ [Hs1 Hq1]]%set_slot_updated).
    apply IH in H2 as (Hs2 & Hd2 & Hq2).
    split; [by eapply same_shape_trans |]. split.
    + intros k Hk. destruct (decide (k = 0)) as [-> | Hk0].
      * exists d. split; [done |]. rewrite Z.add_0_r, Hq2, Hq1.
        -- by rewrite decide_True.
        -- unfold in_range. simpl. lia.
      * destruct (Hd2 (k - 1)) as (d' & Hd' & Hslot); [lia |].
        exists d'. split; [done |].
        by replace (done + k) with (done + 1 + (k - 1)) by lia.
    + intros q Hq. rewrite Hq2, Hq1.
      * rewrite decide_False; [done |]. intros ->. apply Hq.
        unfold in_range. simpl. split; [done | lia].
      * intros [Hb Ho]. apply Hq. unfold in_range in *. simpl in *.
        split; [done | lia].
Qed.

Lemma value_construct_n_Ok dst n s u s' :
  0 < n →
  uninitialized_value_construct_n dst n s = Ok u s' →
  ∃ d, value_init = Some d ∧
       same_shape s s' ∧
       array_at s' dst (replicate (Z.to_nat n) d) ∧
       (∀ q, ¬ in_range dst n q → slot_at s' q = slot_at s q).
Proof.
  intros Hn (Hs & Hd & Hq)%value_construct_loop_Ok.
  destruct (Hd 0) as (d & Hinit & _); [lia |].
  exists d. split; [done |]. split; [done |]. split.
  - intros i x [-> Hi]%lookup_replicate.
    destruct (Hd (Z.of_nat i)) as (d' & Hd' & Hslot); [lia |].
    rewrite Z.add_0_l in Hslot. congruence.
  - intros q Hnq. apply Hq. rewrite ptr_add_0, Z2Nat.id by lia. done.
Qed.

(** X8: [Resize(n)] beyond the capacity, when it returns, has reserved
    exactly [n] slots and appended [n - Size()] value-initialised elements
    to the elements it had. *)
Theorem Resize_grows_beyond_capacity v s xs n u v' s' :
  represents s v xs →
  capacity_ (data_ v) < n < SIZE_MODULUS →
  Vector.Resize grants n (v, s) = Ok u (v', s') →
  ∃ d, value_init = Some d ∧
       represents s' v' (xs ++ replicate (Z.to_nat (n - size_ v)) d) ∧
       Vector.Size v' = n ∧ Vector.Capacity v' = n.
Proof.
  intros Hrep Hn E.
  pose proof Hrep as [Hsize [[Hsz0 Hsz] Hcap] _ _ _].
  unfold Vector.Resize in E. inv_step E. simpl in E.
  unfold RawMemory.Capacity in E.
  rewrite (proj2 (Z.ltb_lt _ _)) in E by lia.
  apply bind_Ok in E as (u1 & [v1 s1] & HR & E).
  destruct (Reserve_Ok_block _ _ _ _ _ _ _ Hrep Hn HR)
    as (Hv1 & Hlen1 & _ & _ & _ & _ & _).
  assert (allocated_slots n = Z.to_nat n) as Hwhole.
  { (* the last object constructed lies in the block *)
    subst v1. pose proof E as E'. inv_run. simpl in *.
    rewrite wrap_small in * by lia.
    lazymatch goal with
    | H : uninitialized_value_construct_n _ _ _ = Ok _ ?sb |- _ =>
        apply value_construct_n_Ok in H as (d & Hd & Hs & Hys & Hq); [| lia];
        assert (is_Some (slot_at sb (ptr_add (Ptr (Some (next_block s)) 0) (n - 1))))
          as Hlast
    end.
    { replace (n - 1) with (size_ v + (n - 1 - size_ v)) by lia.
      rewrite <- ptr_add_add.
      rewrite (array_at_lookup _ _ _ (n - 1 - size_ v) d Hys); [done | lia |].
      apply lookup_replicate_2. lia. }
    destruct Hs as [_ Hl]. specialize (Hl (next_block s)). rewrite Hlen1 in Hl.
    pose proof (slot_below_block_len _ _ _ _ Hl Hlast).
    apply allocated_slots_exact; [lia |].
    apply allocated_slots_full; lia. }
  destruct (Reserve_Ok _ _ _ _ _ _ _ Hrep Hn Hwhole HR) as (-> & Hrep1 & _ & _ & _).
  inv_run. simpl in *.
  rewrite wrap_small in * by lia.
  lazymatch goal with
  | H : uninitialized_value_construct_n _ _ _ = Ok _ _ |- _ =>
      apply value_construct_n_Ok in H as (d & Hd & Hs & Hys & Hq); [| lia]
  end.
  destruct Hrep1 as [_ _ Howns1 Hxs1 Hok1]. simpl in *.
  exists d. split; [done |]. split; [| done].
  split; simpl.
  - rewrite length_app, length_replicate. lia.
  - unfold size_invariant. simpl. lia.
  - by eapply owns_same_shape.
  - apply array_at_app. split.
    + eapply array_at_frame; [| exact Hxs1]. intros q [Hb Ho]. apply Hq.
      unfold in_range. simpl in *. lia.
    + by rewrite <- Hsize.
  - by eapply same_shape_store_ok.
Qed.

End Growth.

Section Lifetime.

Context {T : Type} {ops : ElemOps T} {lawful : LawfulElem T}.
Variable grants : Store T → Z → bool.
Implicit Types (s : Store T) (p q : ptr) (xs : list T) (v : Vector).

(** A block allocated, written to and released again leaves the blocks of
    the store as they were. *)
Lemma fresh_block_released capacity s (m : RawMemory) s1 st u s' :
  store_ok s →
  RawMemory.sized grants capacity s = Ok m s1 →
  modifies (λ q, p_blk q = p_blk (buffer_ m)) s1 st →
  RawMemory.destructor m st = Ok u s' →
  blocks s' = blocks s.
Proof.
  intros Hok Hsized Hmod Hdtor.
  pose proof (λ b, destructor_releases_block _ _ _ _ b Hdtor) as Hgone.
  apply destructor_frame in Hdtor as (_ & Hblocks' & _).
  assert (∀ b, p_blk (buffer_ m) ≠ Some b → blocks st !! b = blocks s1 !! b) as Hst.
  { intros b Hb. eapply modifies_block; [exact Hmod |]. simpl. congruence. }
  apply map_eq. intros b.
  destruct (decide (capacity = 0)) as [-> | Hne].
  - apply sized_Ok in Hsized as [_ [(_ & Hbuf & ->) | (? & _)]]; [| done].
    rewrite Hbuf in *. simpl in *. by rewrite Hblocks', Hst.
  - apply sized_fresh in Hsized as (-> & _ & _ & Hblocks1 & _); [| done..].
    simpl in *. destruct (decide (b = next_block s)) as [-> | Hb].
    + rewrite Hgone by done. by rewrite fresh_block_unused.
    + rewrite Hblocks', Hst, Hblocks1 by congruence. done.
Qed.

Lemma Vector_sized_represents n s v s' :
  store_ok s → 0 ≤ n < SIZE_MODULUS →
  Vector.sized grants n s = Ok v s' →
  (∀ b, b ≠ next_block s → blocks s' !! b = blocks s !! b) ∧
  (∀ b, p_blk (buffer_ (data_ v)) = Some b → b = next_block s) ∧
  (p_blk (buffer_ (data_ v)) = None → s' = s) ∧
  (n = 0 → buffer_ (data_ v) = nullptr) ∧
  size_ v = n ∧ capacity_ (data_ v) = n ∧
  destroyed s' = destroyed s ∧
  ∃ xs, length xs = Z.to_nat n ∧ Forall (λ x, value_init = Some x) xs ∧
        represents s' v xs.
Proof.
  intros Hok Hn E.
  assert (destroyed s' = destroyed s) as Hlog.
  { unfold Vector.sized in E. inv_run.
    lazymatch goal with
    | H1 : RawMemory.sized _ _ _ = Ok _ _,
      H2 : uninitialized_value_construct_n _ _ _ = Ok _ _ |- _ =>
        apply sized_destroyed in H1;
        apply uninitialized_loop_destroyed in H2; congruence
    end. }
  unfold Vector.sized in E. inv_run.
  unfold RawMemory.GetAddress in *.
  destruct (decide (n = 0)) as [-> | Hne].
  - lazymatch goal with
    | H : RawMemory.sized _ _ _ = Ok _ _ |- _ =>
        apply sized_Ok in H as [Hc [(_ & Hbuf & ->) | (? & _)]]; [| done]
    end.
    lazymatch goal with
    | H : uninitialized_value_construct_n _ _ _ = Ok _ _ |- _ =>
        unfold uninitialized_value_construct_n in H; simpl in H;
        apply ret_Ok in H as [_ ->]
    end.
    simpl. rewrite Hbuf. split; [done |]. split; [done |]. split; [done |].
    split; [done |]. split; [done |]. split; [done |]. split; [done |].
    exists []. split; [done |]. split; [constructor |].
    split; simpl.
    + done.
    + unfold size_invariant. simpl. rewrite Hc. lia.
    + left. by rewrite Hbuf.
    + rewrite Hbuf. apply array_at_nil.
    + done.
  - lazymatch goal with
    | H : RawMemory.sized _ _ _ = Ok _ _ |- _ =>
        apply sized_fresh in H as (-> & Hnext1 & Hlen1 & Hblocks1 & Hok1);
        [| done | done]
    end.
    simpl in *.
    lazymatch goal with
    | H : uninitialized_value_construct_n _ _ _ = Ok _ _ |- _ =>
        pose proof H as Hmod;
        apply value_construct_n_Ok in H as (d & Hd & Hs & Hys & Hq); [| lia]
    end.
    eapply (writes_Ok (λ q, p_blk q = Some (next_block s))) in Hmod.
    2:{ apply writes_uninitialized_loop; [lia | done |]. by intros k q _ []. }
    assert (allocated_slots n = Z.to_nat n) as Hwhole.
    { lazymatch type of Hys with
      | array_at ?sb _ _ =>
          assert (is_Some (slot_at sb (ptr_add (Ptr (Some (next_block s)) 0) (n - 1))))
            as Hlast
      end.
      { rewrite (array_at_lookup _ _ _ (n - 1) d Hys); [done | lia |].
        apply lookup_replicate_2. lia. }
      destruct Hs as [_ Hl]. specialize (Hl (next_block s)). rewrite Hlen1 in Hl.
      pose proof (slot_below_block_len _ _ _ _ Hl Hlast).
      apply allocated_slots_exact; [lia |]. apply allocated_slots_full; lia. }
    split; [| split; [| split; [done | split; [done | split; [done | split;
      [done | split; [done |]]]]]]].
    + intros b Hb. rewrite <- Hblocks1 by done.
      eapply modifies_block; [exact Hmod |]. simpl. congruence.
    + by intros b [= <-].
    + exists (replicate (Z.to_nat n) d). split; [by rewrite length_replicate |].
      split; [by apply Forall_replicate |].
      split; simpl.
      * rewrite length_replicate. lia.
      * unfold size_invariant. simpl. lia.
      * right. exists (next_block s). split; [done |]. simpl. split; [lia |].
        destruct Hs as [_ Hl]. by rewrite Hl, Hlen1, Hwhole.
      * done.
      * by eapply same_shape_store_ok.
Qed.




Lemma copy_constructor_represents other s xs v s' :
  represents s other xs →
  Vector.copy_constructor grants other s = Ok v s' →
  (∀ b, b ≠ next_block s → blocks s' !! b = blocks s !! b) ∧
  (∀ b, p_blk (buffer_ (data_ v)) = Some b → b = next_block s) ∧
  (p_blk (buffer_ (data_ v)) = None → s' = s) ∧
  (xs = [] → buffer_ (data_ v) = nullptr) ∧
  size_ v = size_ other ∧ capacity_ (data_ v) = size_ other ∧
  destroyed s' = destroyed s ∧
  represents s' v xs.
Proof.
  intros [Hsize [[Hsz0 Hsz] Hcap] Howns Hxs Hok] E.
  assert (destroyed s' = destroyed s) as Hlog.
  { unfold Vector.copy_constructor in E. inv_run.
    lazymatch goal with
    | H1 : RawMemory.sized _ _ _ = Ok _ _,
      H2 : uninitialized_copy_n _ _ _ _ = Ok _ _ |- _ =>
        apply sized_destroyed in H1;
        apply uninitialized_loop_destroyed in H2; congruence
    end. }
  unfold Vector.copy_constructor in E. inv_run.
  unfold RawMemory.GetAddress, Vector.Size in *.
  destruct (decide (size_ other = 0)) as [H0 | Hne].
  - rewrite H0 in *.
    lazymatch goal with
    | H : RawMemory.sized _ _ _ = Ok _ _ |- _ =>
        apply sized_Ok in H as [Hc [(_ & Hbuf & ->) | (? & _)]]; [| done]
    end.
    lazymatch goal with
    | H : uninitialized_copy_n _ _ _ _ = Ok _ _ |- _ =>
        unfold uninitialized_copy_n in H; simpl in H;
        apply ret_Ok in H as [_ ->]
    end.
    simpl. rewrite Hbuf. split; [done |]. split; [done |]. split; [done |].
    split; [done |]. split; [done |]. split; [done |]. split; [done |].
    assert (xs = []) as -> by (destruct xs; [done | simpl in Hsize; lia]).
    split; simpl.
    + done.
    + unfold size_invariant. simpl. rewrite Hc. lia.
    + left. by rewrite Hbuf.
    + rewrite Hbuf. apply array_at_nil.
    + done.
  - lazymatch goal with
    | H : RawMemory.sized _ _ _ = Ok _ _ |- _ =>
        apply sized_fresh in H as (-> & Hnext1 & Hlen1 & Hblocks1 & Hok1);
        [| done | done]
    end.
    simpl in *.
    set (buf := buffer_ (data_ other)) in *.
    set (nbuf := Ptr (Some (next_block s)) 0) in *.
    assert (p_blk buf ≠ p_blk nbuf) as Hblk by by apply owns_not_fresh.
    lazymatch goal with
    | H : uninitialized_copy_n _ _ _ _ = Ok _ _ |- _ =>
        pose proof H as Hmod;
        unfold uninitialized_copy_n in H;
        rewrite Hsize, Nat2Z.id in H;
        change (λ i, ByCopy (ptr_add buf i)) with (reloc_args (T := T) false buf) in H;
        apply relocate_loop_Ok in H as (Hs & Hd & Hq & _);
        [| done
         | rewrite ptr_add_0; eapply array_at_frame; [| exact Hxs];
           intros q [Hq _]; apply blocks_frame_slot; intros b Hb;
           apply Hblocks1; intros ->; apply Hblk; simpl; congruence]
    end.
    rewrite ptr_add_0 in Hd.
    eapply writes_Ok in Hmod; [| apply writes_uninitialized_copy_n].
    assert (allocated_slots (size_ other) = Z.to_nat (size_ other)) as Hwhole.
    { destruct (lookup_lt_is_Some_2 xs (Z.to_nat (size_ other - 1))) as [y Hy];
        [lia |].
      lazymatch type of Hd with
      | array_at ?sb _ _ =>
          assert (is_Some (slot_at sb (ptr_add nbuf (size_ other - 1)))) as Hlast
      end.
      { rewrite (array_at_lookup _ _ _ (size_ other - 1) y Hd); [done | lia | done]. }
      destruct Hs as [_ Hl]. specialize (Hl (next_block s)). rewrite Hlen1 in Hl.
      pose proof (slot_below_block_len _ _ _ _ Hl Hlast).
      apply allocated_slots_exact; [lia |]. apply allocated_slots_full; lia. }
    split; [| split; [| split; [done | split; [| split; [done | split;
      [done | split; [done |]]]]]]].
    + intros b Hb. rewrite <- Hblocks1 by done.
      eapply modifies_block; [exact Hmod |]. simpl. congruence.
    + by intros b [= <-].
    + intros ->. simpl in Hsize. lia.
    + split; simpl.
      * done.
      * unfold size_invariant. simpl. lia.
      * right. exists (next_block s). split; [done |]. simpl. split; [lia |].
        destruct Hs as [_ Hl]. by rewrite Hl, Hlen1, Hwhole.
      * done.
      * by eapply same_shape_store_ok.
Qed.

(** A copy constructor that throws has destroyed the copies it had made:
    the elements before the first one whose copy constructor throws. *)
Lemma copy_constructor_Throw_destroyed other s xs e s' :
  represents s other xs →
  Vector.copy_constructor grants other s = Throw e s' →
  (e = bad_alloc ∧ destroyed s' = destroyed s) ∨
  (∃ k x, xs !! k = Some x ∧ copy_construct x = None ∧
          destroyed s' = reverse (take k xs) ++ destroyed s).
Proof.
  intros [Hsize [[Hsz0 Hsz] Hcap] Howns Hxs Hok] E.
  unfold Vector.copy_constructor in E. inv_run.
  - apply sized_Throw in E as [-> ->]. by left.
  - right. unfold RawMemory.GetAddress, Vector.Size in *.
    destruct (decide (size_ other = 0)) as [H0 | Hne].
    { lazymatch goal with
      | H : uninitialized_copy_n _ _ _ _ = Throw _ _ |- _ =>
          unfold uninitialized_copy_n in H; rewrite H0 in H; by simpl in H
      end. }
    lazymatch goal with
    | H1 : RawMemory.sized _ _ _ = Ok _ _,
      H3 : RawMemory.destructor _ _ = Ok _ _ |- _ =>
        pose proof (sized_destroyed _ _ _ _ _ H1) as Hl1;
        apply destructor_destroyed in H3 as Hl3;
        apply sized_fresh in H1 as (-> & Hnext1 & Hlen1 & Hblocks1 & Hok1);
        [| done | done]
    end.
    simpl in *.
    set (buf := buffer_ (data_ other)) in *.
    set (nbuf := Ptr (Some (next_block s)) 0) in *.
    assert (p_blk buf ≠ p_blk nbuf) as Hblk by by apply owns_not_fresh.
    lazymatch goal with
    | H : uninitialized_copy_n _ _ _ _ = Throw _ _ |- _ =>
        unfold uninitialized_copy_n in H;
        rewrite Hsize, Nat2Z.id in H;
        apply (copy_loop_Throw_destroyed buf nbuf [] xs 0) in H
          as (k & x & Hk & Hcopy & Hlog);
        [| done | done | apply array_at_nil
         | rewrite ptr_add_0; eapply array_at_frame; [| exact Hxs];
           intros q [Hq _]; apply blocks_frame_slot; intros b Hb;
           apply Hblocks1; intros ->; apply Hblk; simpl; congruence]
    end.
    exists k, x. split; [done |]. split; [done |]. simpl in Hlog. congruence.
Qed.

Lemma copy_constructor_releases other s e s' :
  store_ok s →
  Vector.copy_constructor grants other s = Throw e s' → blocks s' = blocks s.
Proof.
  intros Hok E. unfold Vector.copy_constructor in E. inv_run.
  - by apply sized_Throw in E as [_ ->].
  - lazymatch goal with
    | H1 : RawMemory.sized _ _ _ = Ok ?m _,
      H2 : uninitialized_copy_n _ _ _ _ = Throw _ _,
      H3 : RawMemory.destructor _ _ = Ok _ _ |- _ =>
        eapply (fresh_block_released _ _ _ _ _ _ _ Hok H1); [| exact H3];
        eapply writes_Throw in H2; [exact H2 |];
        apply writes_uninitialized_copy_n
    end.
Qed.

(** X10: the copy constructor.  When it returns, the new object holds
    copies of the elements of the source in a block that did not exist
    before the call (no block at all for an empty source), whose capacity
    is the size of the source (not its capacity); the source and every
    block that existed are unchanged and no destructor has run.  When it
    throws, the block is released, so the store has the blocks it had, and
    either the allocation failed and no destructor has run, or the copy
    constructor threw on some element and the copies of the elements
    before it, and only those, have been destroyed, first to last. *)
Theorem copy_constructor_copies other s xs :
  represents s other xs →
  (∀ v s', Vector.copy_constructor grants other s = Ok v s' →
     represents s' v xs ∧ represents s' other xs ∧
     Vector.Size v = Vector.Size other ∧ Vector.Capacity v = Vector.Size other ∧
     (∀ b, p_blk (Vector.begin v) = Some b → blocks s !! b = None) ∧
     (xs = [] → Vector.begin v = nullptr) ∧
     (∀ b, is_Some (blocks s !! b) → blocks s' !! b = blocks s !! b) ∧
     destroyed s' = destroyed s) ∧
  (∀ e s', Vector.copy_constructor grants other s = Throw e s' →
     blocks s' = blocks s ∧
     ((e = bad_alloc ∧ destroyed s' = destroyed s) ∨
      (∃ k x, xs !! k = Some x ∧ copy_construct x = None ∧
              destroyed s' = reverse (take k xs) ++ destroyed s))).
Proof.
  intros Hrep. pose proof (rep_store _ _ _ Hrep) as Hok. split.
  - intros v s' E.
    destruct (copy_constructor_represents _ _ _ _ _ Hrep E)
      as (Hframe & Hfresh & _ & Hnull & Hsize & Hcap & Hlog & Hrep').
    assert (∀ b, is_Some (blocks s !! b) → blocks s' !! b = blocks s !! b) as Hold.
    { intros b Hb. apply Hframe. intros ->.
      rewrite fresh_block_unused in Hb by done. by destruct Hb. }
    split; [done |]. split; [| split; [done | split; [done | split; [| done]]]].
    + eapply represents_preserved; [done |]. split; [| done].
      by destruct Hrep'.
    + intros b ->%Hfresh. by apply fresh_block_unused.
  - intros e s' E. split; [by eapply copy_constructor_releases |].
    by eapply copy_constructor_Throw_destroyed.
Qed.

Lemma Vector_destructor_total v s xs :
  represents s v xs →
  ∃ s', Vector.destructor v s = Ok tt s' ∧
        (∀ b, p_blk (buffer_ (data_ v)) = Some b → blocks s' !! b = None) ∧
        (∀ b, p_blk (buffer_ (data_ v)) ≠ Some b → blocks s' !! b = blocks s !! b) ∧
        store_ok s' ∧
        destroyed s' = reverse xs ++ destroyed s.
Proof.
  intros Hrep. pose proof Hrep as [Hsize [[Hsz0 Hsz] Hcap] Howns Hxs Hok].
  destruct (destroy_n_total (buffer_ (data_ v)) (size_ v) s) as [s1 E1].
  { intros k Hk. by eapply represents_live. }
  pose proof E1 as Hmod.
  eapply (writes_Ok (λ q, p_blk q = p_blk (buffer_ (data_ v)))) in Hmod.
  2:{ apply writes_destroy_n. by intros k _. }
  destruct (destructor_total (data_ v) s1) as [s' E2].
  { eapply same_shape_freeable; [by destruct Hmod |]. by apply owns_freeable. }
  exists s'. split; [| split; [| split; [| split]]].
  5:{ apply destructor_destroyed in E2. rewrite E2.
      by eapply destroy_n_destroyed. }
  - unfold Vector.destructor, bind, RawMemory.GetAddress. by rewrite E1.
  - intros b Hb. by eapply destructor_releases_block.
  - intros b Hb. apply destructor_frame in E2 as (_ & Hblocks' & _).
    rewrite Hblocks' by done.
    eapply modifies_block; [exact Hmod |]. simpl. congruence.
  - apply destructor_frame in E2 as (_ & _ & Hok'). apply Hok'.
    eapply same_shape_store_ok; [| exact Hok]. by destruct Hmod.
Qed.

(** X11: the destructor.  It returns on every well-formed container:
    the destructor of each element has run, once, the first element first;
    then the block of the container is released; every other block is as
    it was. *)
Theorem destructor_releases_storage v s xs :
  represents s v xs →
  ∃ s', Vector.destructor v s = Ok tt s' ∧
        destroyed s' = reverse xs ++ destroyed s ∧
        (∀ b, p_blk (Vector.begin v) = Some b → blocks s' !! b = None) ∧
        (∀ b, p_blk (Vector.begin v) ≠ Some b → blocks s' !! b = blocks s !! b).
Proof.
  intros Hrep.
  destruct (Vector_destructor_total v s xs Hrep)
    as (s' & E & Hgone & Hframe & _ & Hlog).
  by exists s'.
Qed.

(** The blocks after constructing an object into a fresh block and
    destroying it are the blocks before. *)
Lemma fresh_object_destroyed v s s1 xs :
  store_ok s →
  (∀ b, b ≠ next_block s → blocks s1 !! b = blocks s !! b) →
  (∀ b, p_blk (buffer_ (data_ v)) = Some b → b = next_block s) →
  (p_blk (buffer_ (data_ v)) = None → blocks s1 !! next_block s = None) →
  represents s1 v xs →
  ∃ s2, Vector.destructor v s1 = Ok tt s2 ∧ blocks s2 = blocks s.
Proof.
  intros Hok Hframe Hfresh Hnull Hrep.
  destruct (Vector_destructor_total v s1 xs Hrep) as (s2 & E & Hgone & Hkeep & _ & _).
  exists s2. split; [done |]. apply map_eq. intros b.
  destruct (p_blk (buffer_ (data_ v))) as [b0 |] eqn:Hb0.
  - pose proof (Hfresh b0 eq_refl) as ->.
    destruct (decide (b = next_block s)) as [-> | Hb].
    + rewrite Hgone by done. by rewrite fresh_block_unused.
    + rewrite Hkeep by congruence. by apply Hframe.
  - rewrite Hkeep by done. destruct (decide (b = next_block s)) as [-> | Hb].
    + rewrite Hnull by done. by rewrite fresh_block_unused.
    + by apply Hframe.
Qed.

(** X12: construction followed by destruction leaks nothing.  After the
    sized or the copy constructor has returned, the destructor of the new
    object returns and leaves the store with exactly the blocks it had
    before the construction. *)
Theorem construct_destroy_round_trip s n other xs :
  represents s other xs →
  0 ≤ n < SIZE_MODULUS →
  (∀ v s1, Vector.sized grants n s = Ok v s1 →
           ∃ s2, Vector.destructor v s1 = Ok tt s2 ∧ blocks s2 = blocks s) ∧
  (∀ v s1, Vector.copy_constructor grants other s = Ok v s1 →
           ∃ s2, Vector.destructor v s1 = Ok tt s2 ∧ blocks s2 = blocks s).
Proof.
  intros Hrep Hn. pose proof (rep_store _ _ _ Hrep) as Hok. split.
  - intros v s1 E.
    destruct (Vector_sized_represents _ _ _ _ Hok Hn E)
      as (Hframe & Hfresh & Hnull & _ & _ & _ & _ & ys & _ & _ & Hrep1).
    eapply fresh_object_destroyed; try done.
    intros ->%Hnull. by apply fresh_block_unused.
  - intros v s1 E.
    destruct (copy_constructor_represents _ _ _ _ _ Hrep E)
      as (Hframe & Hfresh & Hnull & _ & _ & _ & _ & Hrep1).
    eapply fresh_object_destroyed; try done.
    intros ->%Hnull. by apply fresh_block_unused.
Qed.

End Lifetime.

Section CopyAssignment.

Context {T : Type} {ops : ElemOps T} {lawful : LawfulElem T}.
Variable grants : Store T → Z → bool.
Implicit Types (s : Store T) (p q : ptr) (xs ys : list T) (v : Vector).

(** [std::copy_n] between two blocks. *)
Lemma copy_loop_across_Ok src dst xs : ∀ ds s u s',
  p_blk src ≠ p_blk dst →
  array_at s src xs →
  array_at s dst ds → length ds = length xs →
  copy_loop src dst (length xs) s = Ok u s' →
  same_shape s s' ∧
  array_at s' dst xs ∧
  (∀ q, ¬ in_range dst (Z.of_nat (length xs)) q → slot_at s' q = slot_at s q).
Proof.
  revert src dst. induction xs as [| x xs IH]; intros src dst ds s u s' Hblk Hxs Hds Hlen;
    simpl.
  - intros [_ ->]%ret_Ok. split; [apply same_shape_refl |].
    split; [apply array_at_nil | done].
  - destruct ds as [| d ds]; [done |]. simpl in Hlen.
    apply array_at_cons in Hxs as [Hx Hxs]. apply array_at_cons in Hds as [Hd Hds].
    intros (u1 & s1 & (x' & Hx' & [Hs1 Hq1])%assign_copy_Ok & H2)%bind_Ok.
    assert (x' = x) as -> by congruence.
    assert (∀ q, p_blk q ≠ p_blk dst → slot_at s1 q = slot_at s q) as Hsrc.
    { intros q Hq. rewrite Hq1, decide_False; [done | by intros ->]. }
    eapply (IH _ _ ds) in H2 as (Hs2 & Hd2 & Hq2); [| done | | | lia].
    + split; [by eapply same_shape_trans |]. split.
      * apply array_at_cons. split; [| done].
        rewrite Hq2, Hq1; [by rewrite decide_True |].
        unfold in_range. simpl. lia.
      * intros q Hq. rewrite Hq2, Hq1.
        -- rewrite decide_False; [done |]. intros ->. apply Hq.
           unfold in_range. simpl. split; [done | lia].
        -- intros [Hb Ho]. apply Hq. unfold in_range in *. simpl in *.
           split; [done | lia].
    + eapply array_at_frame; [| exact Hxs]. intros q [Hb _]. apply Hsrc.
      simpl in Hb. congruence.
    + eapply array_at_frame; [| exact Hds]. intros q [Hb Ho].
      rewrite Hq1, decide_False; [done |]. intros ->. simpl in Ho. lia.
Qed.

Lemma copy_assignment_in_place_Ok v rhs s xs ys u v' s' :
  represents s v xs →
  represents s rhs ys →
  (ys ≠ [] → p_blk (buffer_ (data_ rhs)) ≠ p_blk (buffer_ (data_ v))) →
  size_ rhs ≤ capacity_ (data_ v) →
  Vector.copy_assignment grants (Other rhs) (v, s) = Ok u (v', s') →
  v' = MkVector (data_ v) (size_ rhs) ∧
  same_shape s s' ∧
  array_at s' (buffer_ (data_ v)) ys ∧
  (∀ q, ¬ in_range (buffer_ (data_ v)) (Z.max (size_ v) (size_ rhs)) q →
        slot_at s' q = slot_at s q) ∧
  (∀ k, size_ rhs ≤ k < size_ v →
        slot_at s' (ptr_add (buffer_ (data_ v)) k) = Some None).
Proof.
  intros [Hsize [[Hsz0 Hsz] Hcap] Howns Hxs Hok] [Hrsize [[Hrsz0 Hrsz] Hrcap] _ Hys _]
    Hdisj Hfit E.
  unfold Vector.copy_assignment in E. inv_step E. simpl in E.
  unfold Vector.Capacity, RawMemory.Capacity, Vector.begin, RawMemory.GetAddress in E.
  rewrite (proj2 (Z.leb_le _ _)) in E by lia.
  set (buf := buffer_ (data_ v)) in *. set (rbuf := buffer_ (data_ rhs)) in *.
  apply bind_Ok in E as (u1 & st1 & (s1 & Hcopy & ->)%mem_Ok & E).
  simpl in E.
  set (m := Z.min (size_ rhs) (size_ v)) in *.
  assert (same_shape s s1 ∧ array_at s1 buf (take (Z.to_nat m) ys) ∧
          (∀ q, ¬ in_range buf m q → slot_at s1 q = slot_at s q))
    as (Hs1 & Hpre & Hq1).
  { destruct (decide (m = 0)) as [Hm0 | Hm0].
    - unfold copy_n in Hcopy. rewrite Hm0 in *. simpl in Hcopy.
      apply ret_Ok in Hcopy as [_ ->]. split; [apply same_shape_refl |].
      split; [apply array_at_nil | done].
    - assert (ys ≠ []) as Hne by (intros ->; simpl in *; lia).
      unfold copy_n in Hcopy.
      replace (Z.to_nat m) with (length (take (Z.to_nat m) ys)) in Hcopy
        by (rewrite length_take; lia).
      eapply (copy_loop_across_Ok _ _ _ (take (Z.to_nat m) xs)) in Hcopy
        as (Hs1 & Hpre & Hq1).
      + split; [done |]. split; [done |]. intros q Hq. apply Hq1.
        rewrite length_take. by replace (Z.of_nat (_ `min` _)) with m by lia.
      + by apply Hdisj.
      + intros i x Hi. apply Hys. by eapply lookup_take_Some.
      + intros i x Hi. apply Hxs. by eapply lookup_take_Some.
      + rewrite !length_take. lia. }
  subst buf rbuf.
  destruct (Z.ltb_spec (size_ rhs) (size_ v)) as [Hshrink | Hgrow]; inv_run.
  - (* the surplus of this container is destroyed *)
    rewrite wrap_small in * by lia.
    lazymatch goal with
    | H : destroy_n _ _ _ = Ok _ _ |- _ => apply destroy_n_Ok in H as [Hs2 Hq2]; [| lia]
    end.
    assert (m = size_ rhs) as Hm by lia. rewrite Hm in *.
    rewrite Hrsize, Nat2Z.id, take_ge in Hpre by lia.
    split; [done |]. split; [by eapply same_shape_trans |]. split; [| split].
    + eapply array_at_frame; [| exact Hpre]. intros q [Hb Ho].
      rewrite Hq2, decide_False; [done |]. intros [_ ?]. simpl in *. lia.
    + intros q Hq. rewrite Hq2, decide_False.
      * apply Hq1. intros [? ?]. apply Hq. split; [done | lia].
      * intros [? ?]. apply Hq. split; [done | simpl in *; lia].
    + intros k Hk. rewrite Hq2, decide_True; [done |].
      unfold in_range. simpl. split; [done | lia].
  - (* the surplus of [rhs] is copy-constructed *)
    rewrite wrap_small in * by lia.
    assert (m = size_ v) as Hm by lia. rewrite Hm in *.
    split; [done |].
    destruct (decide (size_ rhs - size_ v = 0)) as [H0 | Hpos].
    + lazymatch goal with
      | H : uninitialized_copy_n _ _ _ _ = Ok _ _ |- _ =>
          unfold uninitialized_copy_n in H; rewrite H0 in H; simpl in H;
          apply ret_Ok in H as [_ ->]
      end.
      rewrite take_ge in Hpre by lia.
      split; [done |]. split; [done |]. split; [| lia].
      intros q Hq. apply Hq1. intros [? ?]. apply Hq. split; [done | lia].
    + assert (ys ≠ []) as Hne by (intros ->; simpl in *; lia).
      lazymatch goal with
      | H : uninitialized_copy_n _ _ _ _ = Ok _ _ |- _ =>
          unfold uninitialized_copy_n in H;
          replace (Z.to_nat (size_ rhs - size_ v))
            with (length (drop (Z.to_nat (size_ v)) ys)) in H
            by (rewrite length_drop; lia);
          apply (relocate_loop_Ok false (ptr_add (buffer_ (data_ rhs)) (size_ v))) in H
            as (Hs2 & Hd2 & Hq2 & _)
      end.
      * rewrite !ptr_add_0 in *. rewrite length_drop in Hq2.
        split; [by eapply same_shape_trans |]. split; [| split; [| lia]].
        -- rewrite <- (take_drop (Z.to_nat (size_ v)) ys). apply array_at_app.
           rewrite length_take. split.
           ++ eapply array_at_frame; [| exact Hpre]. intros q [Hb Ho].
              rewrite length_take in Ho. apply Hq2; [| done].
              intros [_ ?]. simpl in *. lia.
           ++ by replace (Z.of_nat (_ `min` _)) with (size_ v) by lia.
        -- intros q Hq. rewrite Hq2; [| | done].
           ++ apply Hq1. intros [? ?]. apply Hq. split; [done | lia].
           ++ intros [? ?]. apply Hq. split; [done | simpl in *; lia].
      * simpl. by apply Hdisj.
      * rewrite ptr_add_0. intros i x Hi. rewrite ptr_add_add.
        rewrite lookup_drop in Hi.
        rewrite Hq1.
        -- replace (size_ v + Z.of_nat i) with (Z.of_nat (Z.to_nat (size_ v) + i))
             by lia. by apply Hys.
        -- unfold in_range. simpl. intros [Hb _]. by apply Hdisj.
Qed.

(** X13: copy assignment into sufficient capacity ([Capacity() >=
    rhs.size_]).  When it returns, the container holds copies of the
    elements of [rhs] in the buffer it had (same address, same capacity);
    the elements it had beyond the size of [rhs] are destroyed, their
    slots are raw memory; [rhs] is unchanged. *)
Theorem copy_assignment_in_place v rhs s xs ys u v' s' :
  represents s v xs →
  represents s rhs ys →
  (ys ≠ [] → p_blk (Vector.begin rhs) ≠ p_blk (Vector.begin v)) →
  Vector.Size rhs ≤ Vector.Capacity v →
  Vector.copy_assignment grants (Other rhs) (v, s) = Ok u (v', s') →
  represents s' v' ys ∧ represents s' rhs ys ∧ data_ v' = data_ v ∧
  (∀ k, Vector.Size rhs ≤ k < Vector.Size v →
        slot_at s' (ptr_add (Vector.begin v) k) = Some None).
Proof.
  intros Hv Hrhs Hdisj Hfit E.
  destruct (copy_assignment_in_place_Ok _ _ _ _ _ _ _ _ Hv Hrhs Hdisj Hfit E)
    as (-> & Hs & Hys' & Hframe & Hraw).
  destruct Hv as [Hsize [[Hsz0 Hsz] Hcap] Howns Hxs Hok].
  destruct Hrhs as [Hrsize Hrinv Hrowns Hys _].
  unfold Vector.Size, Vector.Capacity, RawMemory.Capacity, Vector.begin,
    RawMemory.GetAddress in *.
  split; [| split; [| split; [done | done]]].
  - split; simpl; [done | | by eapply owns_same_shape | done
                  | by eapply same_shape_store_ok].
    unfold size_invariant. simpl. destruct Hrinv as [[? ?] ?]. lia.
  - split; [done | done | by eapply owns_same_shape | | by eapply same_shape_store_ok].
    destruct ys as [| y ys]; [apply array_at_nil |].
    eapply array_at_frame; [| exact Hys]. intros q [Hb _]. apply Hframe.
    intros [Hb' _]. apply Hdisj; [done | congruence].
Qed.

(** X14: copy assignment from a longer container ([Capacity() <
    rhs.size_]).  When it returns, the container holds copies of the
    elements of [rhs] in a block that did not exist before the call, whose
    capacity is the size of [rhs]; the destructor of each of its former
    elements has run, once, the first element first, and of no other
    object; its former block is released; [rhs] is unchanged. *)
Theorem copy_assignment_reallocates v rhs s xs ys u v' s' :
  represents s v xs →
  represents s rhs ys →
  p_blk (Vector.begin rhs) ≠ p_blk (Vector.begin v) →
  Vector.Capacity v < Vector.Size rhs →
  Vector.copy_assignment grants (Other rhs) (v, s) = Ok u (v', s') →
  represents s' v' ys ∧ represents s' rhs ys ∧
  Vector.Capacity v' = Vector.Size rhs ∧
  (∃ b, Vector.begin v' = Ptr (Some b) 0 ∧ blocks s !! b = None) ∧
  destroyed s' = reverse xs ++ destroyed s ∧
  (∀ b, p_blk (Vector.begin v) = Some b → blocks s' !! b = None).
Proof.
  intros Hv Hrhs Hdisj Hlt E.
  pose proof (rep_store _ _ _ Hv) as Hok.
  unfold Vector.Size, Vector.Capacity, RawMemory.Capacity, Vector.begin,
    RawMemory.GetAddress in *.
  unfold Vector.copy_assignment in E. inv_step E. simpl in E.
  unfold Vector.Capacity, RawMemory.Capacity in E.
  rewrite (proj2 (Z.leb_gt _ _)) in E by lia.
  apply bind_Ok in E as (c & st1 & (s1 & Hcopy & ->)%mem_Ok & E). simpl in E.
  apply bind_Ok in E as (old & st2 & Hswap & E).
  unfold Vector.Swap in Hswap. injection Hswap as <- <-. simpl in E.
  apply mem_Ok in E as (s2 & Hdtor & [= -> ->]). simpl in Hdtor.
  destruct (copy_constructor_represents _ _ _ _ _ _ Hrhs Hcopy)
    as (Hframe & Hfresh & _ & _ & Hcsize & Hccap & Hclog & Hc).
  assert (preserved s s1) as Hpres.
  { split; [by destruct Hc |]. intros b Hb. apply Hframe. intros ->.
    rewrite fresh_block_unused in Hb by done. by destruct Hb. }
  pose proof (represents_preserved _ _ _ _ Hv Hpres) as Hv1.
  pose proof (represents_preserved _ _ _ _ Hrhs Hpres) as Hrhs1.
  assert (represents s1 (MkVector (MkRawMemory (buffer_ (data_ v)) (capacity_ (data_ v)))
                                  (size_ v)) xs) as Hold.
  { by destruct v as [[? ?] ?]. }
  destruct (Vector_destructor_total _ _ _ Hold)
    as (s2' & E' & Hgone & Hkeep & Hok2 & Hlog).
  rewrite E' in Hdtor. injection Hdtor as _ ->. simpl in *.
  assert (p_blk (buffer_ (data_ c)) = Some (next_block s)) as Hcb.
  { destruct Hc as [Hs Hi Ho _ _]. destruct Ho as [[_ H0] | (b & Hb & _)].
    - rewrite Hccap in H0. pose proof (rep_invariant _ _ _ Hv) as [[? ?] ?]. lia.
    - rewrite Hb. simpl. f_equal. apply Hfresh. by rewrite Hb. }
  assert (p_blk (buffer_ (data_ v)) ≠ Some (next_block s)) as Hvb.
  { apply owns_not_fresh; [done | by destruct Hv]. }
  assert (preserved_but : ∀ w zs,
            represents s1 w zs → p_blk (buffer_ (data_ w)) ≠ p_blk (buffer_ (data_ v)) →
            represents s2 w zs).
  { intros w zs [Hs Hi Ho Hz _] Hw. split; [done | done | | | done].
    - destruct Ho as [? | (b & Hb & ? & Hlen)]; [by left | right].
      exists b. split; [done |]. split; [done |].
      unfold block_len in *. rewrite Hkeep; [done |].
      rewrite Hb in Hw. simpl in Hw. congruence.
    - eapply array_at_frame; [| exact Hz]. intros q [Hb _].
      apply blocks_frame_slot. intros b Hqb. apply Hkeep. congruence. }
  split; [| split; [| split; [done | split; [| split; [| done]]]]].
  - assert (MkVector (MkRawMemory (buffer_ (data_ c)) (capacity_ (data_ c))) (size_ c) = c)
      as -> by by destruct c as [[? ?] ?].
    apply preserved_but; [done |]. rewrite Hcb. by intros Heq; apply Hvb.
  - by apply preserved_but.
  - exists (next_block s). split; [| by apply fresh_block_unused].
    destruct (rep_owns _ _ _ Hc) as [[_ H0] | (b & Hb & _)].
    + rewrite Hccap in H0. pose proof (rep_invariant _ _ _ Hv) as [[? ?] ?]. lia.
    + rewrite Hb in Hcb |- *. simpl in Hcb. congruence.
  - rewrite Hlog. by rewrite Hclog.
Qed.

End CopyAssignment.

Section InsertionExtras.

Context {T : Type} {ops : ElemOps T} {lawful : LawfulElem T}.
Variable grants : Store T → Z → bool.
Implicit Types (s : Store T) (p q : ptr) (xs : list T) (v : Vector).

Lemma lookup_insert_before xs (i k : nat) (x : T) :
  (k < i)%nat → (i ≤ length xs)%nat →
  (take i xs ++ x :: drop i xs) !! k = xs !! k.
Proof.
  intros Hk Hi. rewrite lookup_app_l by (rewrite length_take; lia).
  by rewrite lookup_take_lt.
Qed.

Lemma lookup_insert_after xs (i k : nat) (x : T) :
  (i ≤ k)%nat → (i ≤ length xs)%nat →
  (take i xs ++ x :: drop i xs) !! S k = xs !! k.
Proof.
  intros Hk Hi. rewrite lookup_app_r by (rewrite length_take; lia).
  rewrite length_take. replace (S k - i `min` length xs)%nat with (S (k - i)) by lia.
  simpl. rewrite lookup_drop. f_equal. lia.
Qed.

(** X15: [Emplace] with spare capacity works in place.  When it returns,
    the buffer and the capacity are those before the call, the iterator
    returned is the position it was given, the elements before the
    position are in the slots they were in, and each element from the
    position on is one slot further. *)
Theorem Emplace_with_spare_capacity_keeps_storage v s xs i args it v' s' :
  represents s v xs →
  0 ≤ i ≤ Z.of_nat (length xs) →
  keeps_elements s v args →
  Vector.Size v < Vector.Capacity v →
  Vector.Emplace grants (ptr_add (Vector.begin v) i) args (v, s) = Ok it (v', s') →
  data_ v' = data_ v ∧ it = ptr_add (Vector.begin v) i ∧
  (∀ k, 0 ≤ k < i →
        slot_at s' (ptr_add (Vector.begin v) k) = slot_at s (ptr_add (Vector.begin v) k)) ∧
  (∀ k, i ≤ k < Vector.Size v →
        slot_at s' (ptr_add (Vector.begin v) (k + 1))
          = slot_at s (ptr_add (Vector.begin v) k)).
Proof.
  intros Hrep Hi Hkeeps Hspare E.
  pose proof Hrep as [Hsize Hinv _ Hxs _].
  unfold Vector.Size, Vector.Capacity, RawMemory.Capacity in *.
  pose proof (Emplace_Ok_fields grants _ _ _ _ _ _ _ Hinv E)
    as [_ [(Hdata & _ & _) | (? & _)]]; [| lia].
  eapply Emplace_Ok in E as (x & Hrep' & -> & _); [| done..].
  destruct Hrep' as [_ _ _ Hxs' _].
  unfold Vector.begin, RawMemory.GetAddress in *. rewrite Hdata in *.
  split; [done |]. split; [done |]. split.
  - intros k Hk.
    destruct (lookup_lt_is_Some_2 xs (Z.to_nat k)) as [y Hy]; [lia |].
    rewrite (array_at_lookup _ _ _ k _ Hxs ltac:(lia) Hy).
    apply (array_at_lookup _ _ _ _ _ Hxs'); [lia |].
    rewrite lookup_insert_before by lia. done.
  - intros k Hk.
    destruct (lookup_lt_is_Some_2 xs (Z.to_nat k)) as [y Hy]; [lia |].
    rewrite (array_at_lookup _ _ _ k _ Hxs ltac:(lia) Hy).
    apply (array_at_lookup _ _ _ _ _ Hxs'); [lia |].
    replace (Z.to_nat (k + 1)) with (S (Z.to_nat k)) by lia.
    rewrite lookup_insert_after by lia. done.
Qed.

(** X16: [Emplace] followed by [Erase] of the iterator it returned gives
    back the content and the size the container had; the capacity has not
    decreased. *)
Theorem Emplace_then_Erase_restores v s xs i args it v1 s1 it' v2 s2 :
  represents s v xs →
  0 ≤ i ≤ Z.of_nat (length xs) →
  keeps_elements s v args →
  Vector.Emplace grants (ptr_add (Vector.begin v) i) args (v, s) = Ok it (v1, s1) →
  Vector.Erase it (v1, s1) = Ok it' (v2, s2) →
  contents s2 v2 = Some xs ∧ Vector.Size v2 = Vector.Size v ∧ it' = it ∧
  Vector.Capacity v ≤ Vector.Capacity v2.
Proof.
  intros Hrep Hi Hkeeps E1 E2.
  pose proof Hrep as [Hsize Hinv _ _ _].
  pose proof (Emplace_Ok_fields grants _ _ _ _ _ _ _ Hinv E1) as [_ Hfields].
  eapply Emplace_Ok in E1 as (x & Hrep1 & -> & _); [| done..].
  pose proof (rep_size _ _ _ Hrep1) as Hsize1.
  rewrite length_app, length_take in Hsize1. simpl in Hsize1.
  rewrite length_drop in Hsize1.
  eapply Erase_Ok in E2 as (Hrep2 & -> & Hit & _); [| exact Hrep1 |].
  2:{ rewrite length_app, length_take. simpl. rewrite length_drop. lia. }
  assert (take (Z.to_nat i) (take (Z.to_nat i) xs ++ x :: drop (Z.to_nat i) xs)
          ++ drop (Z.to_nat (i + 1)) (take (Z.to_nat i) xs ++ x :: drop (Z.to_nat i) xs)
          = xs) as Hlist.
  { rewrite take_app_le by (rewrite length_take; lia).
    rewrite take_take, Nat.min_id.
    rewrite drop_app_ge by (rewrite length_take; lia).
    rewrite length_take.
    replace (Z.to_nat (i + 1) - Z.to_nat i `min` length xs)%nat with 1%nat by lia.
    simpl. rewrite drop_0. apply take_drop. }
  rewrite Hlist in Hrep2.
  split; [by apply represents_contents |].
  unfold Vector.Size, Vector.Capacity, RawMemory.Capacity. simpl.
  split; [lia |]. split; [done |].
  destruct Hinv as [[? ?] ?].
  destruct Hfields as [(-> & _ & _) | (? & _ & -> & _)]; lia.
Qed.

(** X17: [Insert].  Both overloads put the value of the caller's object at
    the position, between the elements before it and the elements from it
    on; the iterator returned points to it; the copying overload leaves the
    caller's object as it was. *)
Theorem Insert_places_value v s xs i p x :
  represents s v xs →
  0 ≤ i ≤ Z.of_nat (length xs) →
  slot_at s p = Some (Some x) →
  p_blk p ≠ p_blk (Vector.begin v) →
  (∀ it v' s',
     Vector.Insert grants (ptr_add (Vector.begin v) i) p (v, s) = Ok it (v', s') →
     contents s' v' = Some (take (Z.to_nat i) xs ++ x :: drop (Z.to_nat i) xs) ∧
     slot_at s' it = Some (Some x) ∧ slot_at s' p = Some (Some x)) ∧
  (∀ it v' s',
     Vector.Insert_move grants (ptr_add (Vector.begin v) i) p (v, s) = Ok it (v', s') →
     contents s' v' = Some (take (Z.to_nat i) xs ++ x :: drop (Z.to_nat i) xs) ∧
     slot_at s' it = Some (Some x)).
Proof.
  intros Hrep Hi Hp Hblk.
  assert (∀ args it v' s',
    (args = ByCopy p ∨ args = ByMove p) →
    Vector.Emplace grants (ptr_add (Vector.begin v) i) args (v, s) = Ok it (v', s') →
    contents s' v' = Some (take (Z.to_nat i) xs ++ x :: drop (Z.to_nat i) xs) ∧
    slot_at s' it = Some (Some x) ∧
    (args = ByCopy p → slot_at s' p = Some (Some x))) as Hboth.
  { intros args it v' s' Hargs E.
    assert (∀ q, refers_to args q → q = p) as Honly
      by (by destruct Hargs as [-> | ->]).
    eapply Emplace_Ok in E as (x' & Hrep' & -> & Hval & Hframe & _); [| done | done |].
    2:{ intros q ->%moved_from_refers_to%Honly. split; [by rewrite Hp | done]. }
    assert (x' = x) as ->.
    { assert (arg_value s args x') as Hv.
      { apply Hval. intros q ->%Honly. split; [by rewrite Hp | done]. }
      destruct Hargs as [-> | ->]; simpl in Hv; congruence. }
    split; [by apply represents_contents |]. split.
    - apply (array_at_lookup _ _ _ i x (rep_elements _ _ _ Hrep')); [lia |].
      rewrite lookup_app_r by (rewrite length_take; lia).
      rewrite length_take. by replace (Z.to_nat i - _)%nat with 0%nat by lia.
    - intros ->. rewrite Hframe; [done | done | by rewrite Hp | by intros []]. }
  split.
  - intros it v' s' E. unfold Vector.Insert in E.
    destruct (Hboth _ _ _ _ (or_introl eq_refl) E) as (? & ? & Hsrc). auto.
  - intros it v' s' E. unfold Vector.Insert_move in E.
    destruct (Hboth _ _ _ _ (or_intror eq_refl) E) as (? & ? & _). auto.
Qed.

(** X18: [PushBack] followed by [PopBack] gives back the content and the
    size the container had: [PopBack] returns after every [PushBack] that
    has returned. *)
Theorem PushBack_then_PopBack_restores v s xs p x u v1 s1 :
  represents s v xs →
  slot_at s p = Some (Some x) →
  p_blk p ≠ p_blk (Vector.begin v) →
  Vector.PushBack grants p (v, s) = Ok u (v1, s1) →
  contents s1 v1 = Some (xs ++ [x]) ∧
  ∃ v2 s2, Vector.PopBack (v1, s1) = Ok tt (v2, s2) ∧
           contents s2 v2 = Some xs ∧ Vector.Size v2 = Vector.Size v.
Proof.
  intros Hrep Hp Hblk E. unfold Vector.PushBack in E. inv_run.
  lazymatch goal with
  | H : Vector.EmplaceBack _ _ _ = Ok _ _ |- _ =>
      eapply EmplaceBack_Ok in H as (x' & Hrep1 & Hval & _); [| done |]
  end.
  2:{ by intros q []. }
  assert (x' = x) as ->.
  { assert (arg_value s (ByCopy p) x') as Hv.
    { apply Hval. intros q ->. split; [by rewrite Hp | done]. }
    simpl in Hv. congruence. }
  split; [by apply represents_contents |].
  destruct (PopBack_total _ _ _ Hrep1) as (s2 & Hpop & Hrep2 & _).
  { by destruct xs. }
  eexists _, s2. split; [exact Hpop |].
  rewrite removelast_last in Hrep2.
  split; [by apply represents_contents |].
  unfold Vector.Size. simpl.
  rewrite (rep_size _ _ _ Hrep1), (rep_size _ _ _ Hrep), length_app. simpl. lia.
Qed.



Lemma writes_UninitCopyOrMove_copy (P : ptr → Prop) from count to :
  relocates_by_move (T := T) = false →
  (∀ k, 0 ≤ k < count → P (ptr_add to k)) →
  writes (T := T) P (Vector.UninitCopyOrMove from count to).
Proof.
  unfold relocates_by_move, Vector.UninitCopyOrMove. intros -> HP.
  unfold uninitialized_copy_n. apply writes_uninitialized_loop; [lia | |].
  - intros k Hk. apply HP. lia.
  - by intros k q _ [].
Qed.

(** A block allocated beside the block of a container, written to and
    released, with writes elsewhere that avoid the block of the container:
    that block is as it was. *)
Lemma block_kept_across_reallocation capacity s (m : RawMemory) s1 st u s' buf b :
  store_ok s →
  RawMemory.sized grants capacity s = Ok m s1 →
  modifies (λ q, p_blk q ≠ p_blk buf) s1 st →
  RawMemory.destructor m st = Ok u s' →
  p_blk buf = Some b → is_Some (blocks s !! b) →
  blocks s' !! b = blocks s !! b.
Proof.
  intros Hok Hsized Hmod Hdtor Hb Hlive.
  assert (blocks st !! b = blocks s1 !! b) as Hst.
  { eapply modifies_block; [exact Hmod |]. simpl. intros q Hq. congruence. }
  assert (b ≠ next_block s) as Hfresh.
  { intros ->. rewrite fresh_block_unused in Hlive by done. by destruct Hlive. }
  apply destructor_frame in Hdtor as (_ & Hblocks' & _).
  destruct (decide (capacity = 0)) as [-> | Hne].
  - apply sized_Ok in Hsized as [_ [(_ & Hbuf & ->) | (? & _)]]; [| done].
    rewrite Hblocks' by (by rewrite Hbuf). done.
  - apply sized_fresh in Hsized as (-> & _ & _ & Hblocks1 & _); [| done..].
    simpl in *. rewrite Hblocks' by congruence. rewrite Hst. by apply Hblocks1.
Qed.

Lemma Emplace_realloc_copy_Throw v s xs i args e v' s' :
  represents s v xs →
  0 ≤ i ≤ Z.of_nat (length xs) →
  keeps_elements s v args →
  relocates_by_move (T := T) = false →
  Vector.Capacity v = Vector.Size v →
  Vector.Emplace grants (ptr_add (Vector.begin v) i) args (v, s) = Throw e (v', s') →
  v' = v ∧
  ∀ b, p_blk (Vector.begin v) = Some b → blocks s' !! b = blocks s !! b.
Proof.
  intros [Hsize [[Hsz0 Hsz] Hcap] Howns Hxs Hok] Hi Hkeeps Hpolicy Hfull E.
  pose proof (Emplace_Throw_fields _ _ _ _ _ _ _ _ E) as ->. split; [done |].
  unfold Vector.Capacity, Vector.Size, RawMemory.Capacity, Vector.begin,
    RawMemory.GetAddress in *.
  intros b Hb.
  assert (is_Some (blocks s !! b)) as Hlive by by eapply owns_allocated.
  unfold Vector.Emplace in E. inv_step E. simpl in E. inv_step E.
  unfold RawMemory.Capacity, Vector.begin, RawMemory.GetAddress in *.
  rewrite (proj2 (Z.eqb_eq (capacity_ (data_ v)) (size_ v))) in E by lia.
  rewrite orb_true_r in E.
  set (P := λ q : ptr, p_blk q ≠ p_blk (buffer_ (data_ v))).
  inv_run; split_states; simpl in *; simplify_eq;
    [ by apply sized_Throw in E as [_ ->] | .. ];
    lazymatch goal with
    | Hs : RawMemory.sized _ _ _ = Ok ?m ?s1,
      Hd : RawMemory.destructor ?m ?st = Ok _ _ |- _ =>
        assert (p_blk (buffer_ m) ≠ p_blk (buffer_ (data_ v))) as Hnb;
        [ pose proof (sized_Ok _ _ _ _ _ Hs) as [_ [(_ & -> & _) | (_ & -> & _)]];
          simpl; [by rewrite Hb | intros Heq; by apply (owns_not_fresh s (data_ v))]
        | eapply (block_kept_across_reallocation _ _ _ _ _ _ _
                    (buffer_ (data_ v)) b Hok Hs); [| exact Hd | done | done] ]
    end;
    repeat match goal with
      | H : Vector.UninitCopyOrMove _ _ _ _ = Ok _ _ |- _ =>
          eapply (writes_Ok P) in H;
          [| apply writes_UninitCopyOrMove_copy; [done | by intros k _] ]
      | H : Vector.UninitCopyOrMove _ _ _ _ = Throw _ _ |- _ =>
          eapply (writes_Throw P) in H;
          [| apply writes_UninitCopyOrMove_copy; [done | by intros k _] ]
      | H : ConstructElement _ _ _ = Ok _ _ |- _ =>
          eapply (writes_Ok P) in H;
          [| apply writes_ConstructElement; [done | by intros q [_ ?]%Hkeeps] ]
      | H : ConstructElement _ _ _ = Throw _ _ |- _ =>
          eapply (writes_Throw P) in H;
          [| apply writes_ConstructElement; [done | by intros q [_ ?]%Hkeeps] ]
      end;
    eauto using modifies_trans.
Qed.

(** X20: failure of a reallocating [Emplace] when elements are relocated by
    copy.  When the container is full, the move constructor is not
    [noexcept] and the type is copyable, an exception from the allocation,
    from a copy or from the constructor of the new element leaves the
    container with the elements it had. *)
Theorem Emplace_reallocating_copy_failure v s xs i args e v' s' :
  represents s v xs →
  0 ≤ i ≤ Z.of_nat (length xs) →
  keeps_elements s v args →
  relocates_by_move (T := T) = false →
  Vector.Capacity v = Vector.Size v →
  Vector.Emplace grants (ptr_add (Vector.begin v) i) args (v, s) = Throw e (v', s') →
  v' = v ∧ contents s' v' = Some xs.
Proof.
  intros Hrep Hi Hkeeps Hpolicy Hfull E.
  destruct (Emplace_realloc_copy_Throw _ _ _ _ _ _ _ _ Hrep Hi Hkeeps Hpolicy Hfull E)
    as [-> Hblock].
  split; [done |]. destruct Hrep as [Hsize _ _ Hxs _].
  unfold contents. rewrite Hsize, Nat2Z.id. apply read_range_array.
  eapply array_at_frame; [| exact Hxs]. intros q [Hq _].
  apply blocks_frame_slot. intros b Hb. apply Hblock.
  unfold Vector.begin, RawMemory.GetAddress in *. congruence.
Qed.

(** X21: [EmplaceBack] returns a reference to the element it appended: the
    address returned is that of index [Size()] (the size before the call)
    in the buffer the container has afterwards, the object there is the
    new last element, and for arguments of the caller it holds the value
    they denote. *)
Theorem EmplaceBack_returns_new_last_element v s xs args r v' s' :
  represents s v xs →
  keeps_elements s v args →
  Vector.EmplaceBack grants args (v, s) = Ok r (v', s') →
  r = ptr_add (Vector.begin v') (Vector.Size v) ∧
  Vector.Size v' = Vector.Size v + 1 ∧
  ∃ x, slot_at s' r = Some (Some x) ∧
       contents s' v' = Some (xs ++ [x]) ∧
       (outside s v args → arg_value s args x).
Proof.
  intros Hrep Hkeeps E. unfold Vector.EmplaceBack in E. inv_run.
  pose proof (rep_size _ _ _ Hrep) as Hsize.
  unfold Vector.Size. rewrite Hsize in E |- *.
  eapply (Emplace_Ok grants v s xs (Z.of_nat (length xs))) in E
    as (x & Hrep' & -> & Hval & _); [| done | lia | done].
  rewrite Nat2Z.id, take_ge, drop_ge in Hrep' by lia.
  split; [done |]. split.
  - rewrite (rep_size _ _ _ Hrep'), length_app. simpl. lia.
  - exists x. split; [| split; [by apply represents_contents | done]].
    apply (array_at_lookup _ _ (xs ++ [x])); [apply Hrep' | lia |].
    rewrite Nat2Z.id. by apply list_lookup_middle.
Qed.

End InsertionExtras.

Section CapacityExtras.

Context {T : Type} {ops : ElemOps T}.
Variable grants : Store T → Z → bool.
Implicit Types (s : Store T) (v : Vector).

Lemma push_fields c v s v' s' :
  size_invariant v → is_push c →
  final_state (run_call grants c (v, s)) = Some (v', s') →
  v' = v ∨
  (data_ v' = data_ v ∧ size_ v' = size_ v + 1 ∧ size_ v < capacity_ (data_ v)) ∨
  (capacity_ (data_ v) = size_ v ∧ size_ v' = size_ v + 1 ∧
   capacity_ (data_ v') = Z.max 1 (2 * size_ v)).
Proof.
  intros Hinv Hc E.
  destruct c; try done; simpl in E;
    unfold Vector.PushBack, Vector.PushBack_move, bind in E;
    match type of E with
    | context [Vector.EmplaceBack ?g ?a ?st] =>
        destruct (Vector.EmplaceBack g a st) as [it [v1 s1]|e [v1 s1]|] eqn:E1;
        simpl in E; [| | done]; injection E as -> ->
    end;
    first [ apply EmplaceBack_Ok_fields in E1 as [? | (? & ? & ? & _)];
            [by right; left | by right; right | done]
          | apply EmplaceBack_Throw_fields in E1 as ->; by left ].
Qed.

(** X22: geometric growth.  After any sequence of [PushBack] calls on an
    initially empty container (run to its end or to the first exception),
    the capacity is a power of two, at least the size and less than twice
    the size; with no element it is zero. *)
Theorem PushBack_capacity_is_geometric cs s v' s' :
  Forall is_push cs →
  final_state (run_calls grants cs (Vector.default, s)) = Some (v', s') →
  geometric v'.
Proof.
  intros Hcs.
  assert (size_invariant Vector.default ∧ geometric Vector.default) as Hstart.
  { split; [| by left]. unfold size_invariant. simpl. rewrite SIZE_MODULUS_eq. lia. }
  revert Hstart. generalize (Vector.default). revert s.
  induction Hcs as [| c cs Hc Hcs IH]; intros s v [Hinv Hgeo] E; simpl in E.
  - by injection E as <- <-.
  - unfold bind in E.
    destruct (run_call grants c (v, s)) as [u [v1 s1]|e [v1 s1]|] eqn:E1;
      [| | done].
    + assert (size_invariant v1 ∧ geometric v1) as H1.
      { split.
        - eapply (run_call_invariant grants c v s v1 s1);
            [done | by destruct c | by rewrite E1].
        - destruct (push_fields c v s v1 s1 Hinv Hc ltac:(by rewrite E1))
            as [-> | [(Hd & Hs & Hlt) | (Hfull & Hs & Hcap)]]; [done | |].
          + destruct Hgeo as [[? ?] | (k & Hk & Hle & Hlt')];
              [destruct Hinv as [[? ?] ?]; lia |].
            right. exists k. rewrite Hd, Hs. lia.
          + destruct Hgeo as [[H0 ?] | (k & Hk & Hle & Hlt')]; right.
            * exists 0%nat. rewrite Hcap, Hs, H0. simpl. lia.
            * exists (S k). rewrite Hcap, Hs.
              assert (0 < size_ v) by lia.
              replace (Z.of_nat (S k)) with (Z.of_nat k + 1) by lia.
              rewrite Z.pow_add_r by lia. lia. }
      by eapply IH.
    + simpl in E. injection E as <- <-.
      destruct (push_fields c v s v1 s1 Hinv Hc ltac:(by rewrite E1))
        as [-> | [(Hd & Hs & Hlt) | (Hfull & Hs & Hcap)]]; [done | |].
      * destruct Hgeo as [[? ?] | (k & Hk & Hle & Hlt')];
          [destruct Hinv as [[? ?] ?]; lia |].
        right. exists k. rewrite Hd, Hs. lia.
      * destruct Hgeo as [[H0 ?] | (k & Hk & Hle & Hlt')]; right.
        -- exists 0%nat. rewrite Hcap, Hs, H0. simpl. lia.
        -- exists (S k). rewrite Hcap, Hs.
           assert (0 < size_ v) by lia.
           replace (Z.of_nat (S k)) with (Z.of_nat k + 1) by lia.
           rewrite Z.pow_add_r by lia. lia.
Qed.

(** X23: no reallocation within the capacity.  [PushBack] calls that fit in
    the capacity the container has (say after a [Reserve]) leave the buffer
    where it is, with the same capacity, whether they return or throw. *)
Theorem pushes_within_capacity_keep_buffer cs v s v' s' :
  size_invariant v →
  Forall is_push cs →
  Vector.Size v + Z.of_nat (length cs) ≤ Vector.Capacity v →
  final_state (run_calls grants cs (v, s)) = Some (v', s') →
  data_ v' = data_ v ∧ Vector.Size v ≤ Vector.Size v' ≤ Vector.Size v + Z.of_nat (length cs).
Proof.
  unfold Vector.Size, Vector.Capacity, RawMemory.Capacity.
  intros Hinv Hcs. revert v s Hinv.
  induction Hcs as [| c cs Hc Hcs IH]; intros v s Hinv Hfit E; simpl in E.
  - injection E as <- <-. split; [done | simpl length; lia].
  - unfold bind in E. rewrite length_cons, Nat2Z.inj_succ in Hfit |- *.
    destruct (run_call grants c (v, s)) as [u [v1 s1]|e [v1 s1]|] eqn:E1;
      [| | done].
    + assert (size_invariant v1) as Hinv1.
      { eapply (run_call_invariant grants c v s v1 s1);
          [done | by destruct c | by rewrite E1]. }
      destruct (push_fields c v s v1 s1 Hinv Hc ltac:(by rewrite E1))
        as [-> | [(Hd & Hs & Hlt) | (Hfull & _)]]; [| | lia].
      * destruct (IH v s1 Hinv ltac:(lia) E) as [? ?]. split; [done | lia].
      * destruct (IH v1 s1 Hinv1 ltac:(rewrite Hd, Hs; lia) E) as [Hd' ?].
        split; [congruence | lia].
    + simpl in E. injection E as <- <-.
      destruct (push_fields c v s v1 s1 Hinv Hc ltac:(by rewrite E1))
        as [-> | [(Hd & Hs & Hlt) | (Hfull & _)]]; [| | lia].
      * split; [done | lia].
      * split; [done | lia].
Qed.

(** X24: removing elements never releases memory.  [Erase], [PopBack] and a
    [Resize] to at most the capacity leave the buffer where it is and the
    capacity as it is, whether they return or throw. *)
Theorem removals_keep_buffer v s pos n v' s' :
  size_invariant v →
  final_state (Vector.Erase pos (v, s)) = Some (v', s') ∨
  final_state (Vector.PopBack (v, s)) = Some (v', s') ∨
  (n ≤ Vector.Capacity v ∧
   final_state (Vector.Resize grants n (v, s)) = Some (v', s')) →
  data_ v' = data_ v.
Proof.
  intros Hinv [E | [E | [Hn E]]].
  - destruct (Vector.Erase pos (v, s)) as [it [v1 s1]|e [v1 s1]|] eqn:E1;
      [| | done]; simpl in E; injection E as -> ->.
    + by apply Erase_Ok_fields in E1 as [_ ->].
    + by apply Erase_Throw_fields in E1 as ->.
  - destruct (Vector.PopBack (v, s)) as [it [v1 s1]|e [v1 s1]|] eqn:E1;
      [| | done]; simpl in E; injection E as -> ->.
    + by apply PopBack_Ok_fields in E1 as [_ ->].
    + by apply PopBack_Throw in E1.
  - unfold Vector.Capacity, RawMemory.Capacity in Hn.
    destruct (Vector.Resize grants n (v, s)) as [it [v1 s1]|e [v1 s1]|] eqn:E1;
      [| | done]; simpl in E; injection E as -> ->.
    + apply Resize_Ok_fields in E1 as [_ [[_ ?] | [? _]]]; [done | lia].
    + apply Resize_Throw_fields in E1 as [-> | [? _]]; [done | lia].
Qed.

End CapacityExtras.

(** ** The further properties on concrete containers *)

Lemma two_vectors_represents :
  represents two_vectors_store example_vector [1; 2; 3] ∧
  represents two_vectors_store other_vector [7; 8].
Proof.
  split; [apply (represents_intro _ _ _ 1%nat) | apply (represents_intro _ _ _ 2%nat)];
    by vm_compute.
Qed.

Lemma fragile_represents : represents fragile_store fragile_vector [1; 13].
Proof. apply (represents_intro _ _ _ 1%nat); by vm_compute. Qed.

Lemma PopBack_removes_last_witness :
  represents example_store example_vector [1; 2; 3] ∧
  ∃ s', Vector.PopBack (example_vector, example_store)
          = Ok tt (MkVector (data_ example_vector) 2, s') ∧
        represents s' (MkVector (data_ example_vector) 2) [1; 2] ∧
        slot_at s' (ptr_add (Vector.begin example_vector) 2) = Some None.
Proof.
  split; [exact example_represents |].
  destruct (PopBack_removes_last example_vector example_store [1; 2; 3]
              example_represents) as [_ Hpop].
  destruct (Hpop ltac:(discriminate)) as (s' & E & Hrep & Hraw & _).
  exists s'. split; [exact E |]. split; [exact Hrep | exact Hraw].
Defined.

Lemma Resize_shrinks_witness :
  represents example_store example_vector [1; 2; 3] ∧
  0 ≤ 1 ≤ size_ example_vector ∧
  ∃ s', Vector.Resize (ops := int_ops) always_grants 1
          (example_vector, example_store)
          = Ok tt (MkVector (data_ example_vector) 1, s') ∧
        represents s' (MkVector (data_ example_vector) 1) [1].
Proof.
  assert (0 ≤ 1 ≤ size_ example_vector) as Hn by (simpl; lia).
  destruct (Resize_shrinks (ops := int_ops) always_grants example_vector
              example_store [1; 2; 3] 1 example_represents Hn)
    as (s' & E & Hrep & _).
  split; [exact example_represents |]. split; [exact Hn |].
  exists s'. split; [exact E | exact Hrep].
Defined.

Lemma subscript_checks_index_witness :
  represents example_store example_vector [1; 2; 3] ∧
  Vector.subscript 1 (example_vector, example_store)
    = Ok (ptr_add (Vector.begin example_vector) 1) (example_vector, example_store) ∧
  slot_at example_store (ptr_add (Vector.begin example_vector) 1) = Some (Some 2) ∧
  Vector.subscript 3 (example_vector, example_store) = Fault.
Proof.
  split; [exact example_represents |].
  destruct (subscript_checks_index example_vector example_store [1; 2; 3] 1
              example_represents ltac:(lia)) as [Hin _].
  destruct (subscript_checks_index example_vector example_store [1; 2; 3] 3
              example_represents ltac:(lia)) as [_ Hout].
  destruct (Hin 2 eq_refl) as [E Hslot].
  split; [exact E |]. split; [exact Hslot |].
  apply Hout. simpl. lia.
Defined.

Lemma Swap_exchanges_contents_witness :
  represents two_vectors_store example_vector [1; 2; 3] ∧
  represents two_vectors_store other_vector [7; 8] ∧
  ∃ v' o',
    Vector.Swap (Other other_vector) (example_vector, two_vectors_store)
      = Ok (Other o') (v', two_vectors_store) ∧
    represents two_vectors_store v' [7; 8] ∧
    represents two_vectors_store o' [1; 2; 3].
Proof.
  destruct two_vectors_represents as [Hv Ho].
  destruct (Swap_exchanges_contents example_vector other_vector
              two_vectors_store [1; 2; 3] [7; 8] Hv Ho)
    as (v' & o' & E & _ & Hv' & Ho' & _).
  split; [exact Hv |]. split; [exact Ho |].
  exists v', o'. split; [exact E |]. split; [exact Hv' | exact Ho'].
Defined.

Lemma allocation_failure_changes_nothing_witness :
  size_invariant example_vector ∧
  Vector.Reserve (ops := int_ops) never_grants 5 (example_vector, example_store)
    = Throw bad_alloc (example_vector, example_store) ∧
  Vector.Resize (ops := int_ops) never_grants 5 (example_vector, example_store)
    = Throw bad_alloc (example_vector, example_store) ∧
  Vector.copy_constructor (ops := int_ops) never_grants example_vector example_store
    = Throw bad_alloc example_store.
Proof.
  pose proof (rep_invariant _ _ _ example_represents) as Hinv.
  destruct (allocation_failure_changes_nothing (ops := int_ops) never_grants
              example_vector example_store Hinv) as (Hgrow & _ & _ & Hcopy).
  destruct (Hgrow 5 ltac:(simpl; lia) eq_refl) as [HReserve HResize].
  destruct (Hcopy example_vector ltac:(simpl; lia) eq_refl) as [Hctor _].
  split; [exact Hinv |]. split; [exact HReserve |].
  split; [exact HResize | exact Hctor].
Defined.

Lemma DestroyN_destroys_range_witness :
  0 ≤ 3 ∧
  (∀ k, 0 ≤ k < 3 → live example_store (ptr_add (Vector.begin example_vector) k)) ∧
  ∃ s', Vector.DestroyN (Vector.begin example_vector) 3 example_store = Ok tt s' ∧
        slot_at s' (ptr_add (Vector.begin example_vector) 1) = Some None ∧
        slot_at s' (Ptr (Some 0%nat) 0) = Some (Some 99).
Proof.
  assert (∀ k, 0 ≤ k < 3 →
               live example_store (ptr_add (Vector.begin example_vector) k))
    as Hlive.
  { intros k Hk.
    assert (k = 0 ∨ k = 1 ∨ k = 2) as [-> | [-> | ->]] by lia;
      [exists 1 | exists 2 | exists 3]; by vm_compute. }
  destruct (DestroyN_destroys_range (Vector.begin example_vector) 3
              example_store ltac:(lia) Hlive) as [(s' & E & Hslots) _].
  split; [lia |]. split; [exact Hlive |].
  exists s'. split; [exact E |]. split.
  - rewrite Hslots. apply decide_True. split; [done | simpl; lia].
  - rewrite Hslots. apply decide_False. intros [[=] _].
Defined.

Lemma Reserve_grows_witness :
  represents example_store example_vector [1; 2; 3] ∧
  capacity_ (data_ example_vector) < 8 ∧
  8 * size_of (ElemOps := int_ops) < SIZE_MODULUS ∧
  Vector.Reserve (ops := int_ops) always_grants 8 (example_vector, example_store)
    ≠ Fault ∧
  ∃ v' s', Vector.Reserve (ops := int_ops) always_grants 8
             (example_vector, example_store) = Ok tt (v', s') ∧
           represents s' v' [1; 2; 3] ∧ Vector.Capacity v' = 8 ∧
           blocks s' !! 1%nat = None.
Proof.
  assert (capacity_ (data_ example_vector) < 8) as Hn by (simpl; lia).
  assert (8 * size_of (ElemOps := int_ops) < SIZE_MODULUS) as Hfit
    by (rewrite SIZE_MODULUS_eq; simpl; lia).
  destruct (Reserve_grows (ops := int_ops) always_grants example_vector
              example_store [1; 2; 3] 8 example_represents Hn Hfit)
    as [Hsafe Hpost].
  assert (∃ v' s', Vector.Reserve (ops := int_ops) always_grants 8
                     (example_vector, example_store) = Ok tt (v', s'))
    as (v' & s' & E) by (eexists _, _; by vm_compute).
  destruct (Hpost tt v' s' E) as (Hrep & Hcap & _ & _ & Hold & _).
  split; [exact example_represents |]. split; [exact Hn |]. split; [exact Hfit |].
  split; [exact Hsafe |].
  exists v', s'. split; [exact E |]. split; [exact Hrep |].
  split; [exact Hcap | exact (Hold 1%nat eq_refl)].
Defined.

Lemma Resize_grows_beyond_capacity_witness :
  represents example_store example_vector [1; 2; 3] ∧
  capacity_ (data_ example_vector) < 6 < SIZE_MODULUS ∧
  ∃ v' s', Vector.Resize (ops := int_ops) always_grants 6
             (example_vector, example_store) = Ok tt (v', s') ∧
           represents s' v' [1; 2; 3; 0; 0; 0] ∧
           Vector.Size v' = 6 ∧ Vector.Capacity v' = 6.
Proof.
  assert (capacity_ (data_ example_vector) < 6 < SIZE_MODULUS) as Hn
    by (rewrite SIZE_MODULUS_eq; simpl; lia).
  assert (∃ v' s', Vector.Resize (ops := int_ops) always_grants 6
                     (example_vector, example_store) = Ok tt (v', s'))
    as (v' & s' & E) by (eexists _, _; by vm_compute).
  destruct (Resize_grows_beyond_capacity (ops := int_ops) always_grants
              example_vector example_store [1; 2; 3] 6 tt v' s'
              example_represents Hn E) as (d & Hd & Hrep & Hsize & Hcap).
  assert (d = 0) as -> by (simpl in Hd; congruence).
  split; [exact example_represents |]. split; [exact Hn |].
  exists v', s'. split; [exact E |]. split; [exact Hrep |].
  split; [exact Hsize | exact Hcap].
Defined.


Lemma copy_constructor_copies_witness :
  represents example_store example_vector [1; 2; 3] ∧
  represents fragile_store fragile_vector [1; 13] ∧
  (∃ v s', Vector.copy_constructor (ops := int_ops) always_grants example_vector
             example_store = Ok v s' ∧
           represents s' v [1; 2; 3] ∧
           represents s' example_vector [1; 2; 3] ∧
           Vector.Capacity v = 3 ∧
           Vector.begin v = Ptr (Some 2%nat) 0 ∧
           blocks example_store !! 2%nat = None ∧
           destroyed s' = destroyed example_store) ∧
  (∃ e s', Vector.copy_constructor (ops := fragile_ops) always_grants
             fragile_vector fragile_store = Throw e s' ∧
           blocks s' = blocks fragile_store ∧
           destroyed s' = [1]).
Proof.
  destruct (copy_constructor_copies (ops := int_ops) always_grants
              example_vector example_store [1; 2; 3] example_represents)
    as [Hpost _].
  destruct (copy_constructor_copies (ops := fragile_ops) always_grants
              fragile_vector fragile_store [1; 13] fragile_represents)
    as [_ Hfail].
  assert (∃ v s', Vector.copy_constructor (ops := int_ops) always_grants
                    example_vector example_store = Ok v s' ∧
                  Vector.begin v = Ptr (Some 2%nat) 0)
    as (v & s' & E & Hbegin).
  { eexists _, _. split; [by vm_compute | by vm_compute]. }
  assert (∃ e s', Vector.copy_constructor (ops := fragile_ops) always_grants
                    fragile_vector fragile_store = Throw e s' ∧
                  destroyed s' = [1])
    as (e & t' & F & Hlog').
  { eexists _, _. split; [by vm_compute | by vm_compute]. }
  destruct (Hpost v s' E) as (Hrep & Hsrc & _ & Hcap & Hfresh & _ & _ & Hlog).
  destruct (Hfail e t' F) as [Hblocks _].
  split; [exact example_represents |]. split; [exact fragile_represents |]. split.
  - exists v, s'. split; [exact E |]. split; [exact Hrep |].
    split; [exact Hsrc |]. split; [exact Hcap |]. split; [exact Hbegin |].
    split; [apply Hfresh; by rewrite Hbegin | exact Hlog].
  - exists e, t'. split; [exact F |]. split; [exact Hblocks | exact Hlog'].
Defined.

Lemma destructor_releases_storage_witness :
  represents example_store example_vector [1; 2; 3] ∧
  ∃ s', Vector.destructor example_vector example_store = Ok tt s' ∧
        destroyed s' = [3; 2; 1] ∧
        blocks s' !! 1%nat = None ∧
        blocks s' !! 0%nat = blocks example_store !! 0%nat.
Proof.
  destruct (destructor_releases_storage example_vector example_store [1; 2; 3]
              example_represents) as (s' & E & Hlog & Hown & Hother).
  split; [exact example_represents |].
  exists s'. split; [exact E |]. split; [exact Hlog |].
  split; [exact (Hown 1%nat eq_refl) |].
  apply Hother. discriminate.
Defined.

Lemma construct_destroy_round_trip_witness :
  represents example_store example_vector [1; 2; 3] ∧ 0 ≤ 2 < SIZE_MODULUS ∧
  (∃ v s1 s2, Vector.sized (ops := int_ops) always_grants 2 example_store
                = Ok v s1 ∧
              Vector.destructor v s1 = Ok tt s2 ∧
              blocks s2 = blocks example_store) ∧
  (∃ v s1 s2, Vector.copy_constructor (ops := int_ops) always_grants
                example_vector example_store = Ok v s1 ∧
              Vector.destructor v s1 = Ok tt s2 ∧
              blocks s2 = blocks example_store).
Proof.
  assert (0 ≤ 2 < SIZE_MODULUS) as Hn by (rewrite SIZE_MODULUS_eq; lia).
  destruct (construct_destroy_round_trip (ops := int_ops) always_grants
              example_store 2 example_vector [1; 2; 3] example_represents Hn)
    as [Hsized Hcopy].
  assert (∃ v s', Vector.sized (ops := int_ops) always_grants 2 example_store
                    = Ok v s') as (v & s1 & E) by (eexists _, _; by vm_compute).
  assert (∃ v s', Vector.copy_constructor (ops := int_ops) always_grants
                    example_vector example_store = Ok v s')
    as (w & t1 & F) by (eexists _, _; by vm_compute).
  destruct (Hsized v s1 E) as (s2 & E2 & Hs2).
  destruct (Hcopy w t1 F) as (t2 & F2 & Ht2).
  split; [exact example_represents |]. split; [exact Hn |]. split.
  - exists v, s1, s2. split; [exact E |]. split; [exact E2 | exact Hs2].
  - exists w, t1, t2. split; [exact F |]. split; [exact F2 | exact Ht2].
Defined.

Lemma copy_assignment_in_place_witness :
  represents two_vectors_store example_vector [1; 2; 3] ∧
  represents two_vectors_store other_vector [7; 8] ∧
  p_blk (Vector.begin other_vector) ≠ p_blk (Vector.begin example_vector) ∧
  Vector.Size other_vector ≤ Vector.Capacity example_vector ∧
  ∃ v' s', Vector.copy_assignment (ops := int_ops) always_grants
             (Other other_vector) (example_vector, two_vectors_store)
             = Ok tt (v', s') ∧
           represents s' v' [7; 8] ∧ represents s' other_vector [7; 8] ∧
           data_ v' = data_ example_vector ∧
           slot_at s' (ptr_add (Vector.begin example_vector) 2) = Some None.
Proof.
  destruct two_vectors_represents as [Hv Ho].
  assert (p_blk (Vector.begin other_vector) ≠ p_blk (Vector.begin example_vector))
    as Hblk by discriminate.
  assert (Vector.Size other_vector ≤ Vector.Capacity example_vector) as Hfit
    by (by vm_compute).
  assert (∃ v' s', Vector.copy_assignment (ops := int_ops) always_grants
                     (Other other_vector) (example_vector, two_vectors_store)
                     = Ok tt (v', s'))
    as (v' & s' & E) by (eexists _, _; by vm_compute).
  destruct (copy_assignment_in_place (ops := int_ops) always_grants
              example_vector other_vector two_vectors_store [1; 2; 3] [7; 8]
              tt v' s' Hv Ho (λ _, Hblk) Hfit E) as (Hv' & Ho' & Hdata & Hraw).
  split; [exact Hv |]. split; [exact Ho |]. split; [exact Hblk |].
  split; [exact Hfit |].
  exists v', s'. split; [exact E |]. split; [exact Hv' |].
  split; [exact Ho' |]. split; [exact Hdata |].
  apply Hraw. simpl. lia.
Defined.

Lemma copy_assignment_reallocates_witness :
  represents two_vectors_store other_vector [7; 8] ∧
  represents two_vectors_store example_vector [1; 2; 3] ∧
  p_blk (Vector.begin example_vector) ≠ p_blk (Vector.begin other_vector) ∧
  Vector.Capacity other_vector < Vector.Size example_vector ∧
  ∃ v' s', Vector.copy_assignment (ops := int_ops) always_grants
             (Other example_vector) (other_vector, two_vectors_store)
             = Ok tt (v', s') ∧
           represents s' v' [1; 2; 3] ∧
           represents s' example_vector [1; 2; 3] ∧
           Vector.Capacity v' = 3 ∧
           (∃ b, Vector.begin v' = Ptr (Some b) 0 ∧
                 blocks two_vectors_store !! b = None) ∧
           destroyed s' = [8; 7] ∧
           blocks s' !! 2%nat = None.
Proof.
  destruct two_vectors_represents as [Hv Ho].
  assert (p_blk (Vector.begin example_vector) ≠ p_blk (Vector.begin other_vector))
    as Hblk by discriminate.
  assert (Vector.Capacity other_vector < Vector.Size example_vector) as Hlong
    by (by vm_compute).
  assert (∃ v' s', Vector.copy_assignment (ops := int_ops) always_grants
                     (Other example_vector) (other_vector, two_vectors_store)
                     = Ok tt (v', s'))
    as (v' & s' & E) by (eexists _, _; by vm_compute).
  destruct (copy_assignment_reallocates (ops := int_ops) always_grants
              other_vector example_vector two_vectors_store [7; 8] [1; 2; 3]
              tt v' s' Ho Hv Hblk Hlong E)
    as (Hv' & Hrhs & Hcap & Hfresh & Hlog & Hold).
  split; [exact Ho |]. split; [exact Hv |]. split; [exact Hblk |].
  split; [exact Hlong |].
  exists v', s'. split; [exact E |]. split; [exact Hv' |].
  split; [exact Hrhs |]. split; [exact Hcap |]. split; [exact Hfresh |].
  split; [exact Hlog | exact (Hold 2%nat eq_refl)].
Defined.

Lemma Emplace_with_spare_capacity_keeps_storage_witness :
  let args := ByCopy (Ptr (Some 0%nat) 0) in
  represents example_store example_vector [1; 2; 3] ∧
  keeps_elements example_store example_vector args ∧
  Vector.Size example_vector < Vector.Capacity example_vector ∧
  ∃ it v' s', Vector.Emplace (ops := int_ops) always_grants
                (ptr_add (Vector.begin example_vector) 1) args
                (example_vector, example_store) = Ok it (v', s') ∧
              data_ v' = data_ example_vector ∧
              it = ptr_add (Vector.begin example_vector) 1 ∧
              slot_at s' (ptr_add (Vector.begin example_vector) 3)
                = slot_at example_store (ptr_add (Vector.begin example_vector) 2).
Proof.
  intros args.
  assert (keeps_elements example_store example_vector args) as Hkeeps
    by (intros q []).
  assert (Vector.Size example_vector < Vector.Capacity example_vector) as Hspare
    by (by vm_compute).
  assert (∃ it v' s', Vector.Emplace (ops := int_ops) always_grants
                        (ptr_add (Vector.begin example_vector) 1) args
                        (example_vector, example_store) = Ok it (v', s'))
    as (it & v' & s' & E) by (eexists _, _, _; by vm_compute).
  destruct (Emplace_with_spare_capacity_keeps_storage (ops := int_ops)
              always_grants example_vector example_store [1; 2; 3] 1 args
              it v' s' example_represents ltac:(simpl; lia) Hkeeps Hspare E)
    as (Hdata & Hit & _ & Hshift).
  split; [exact example_represents |]. split; [exact Hkeeps |].
  split; [exact Hspare |].
  exists it, v', s'. split; [exact E |]. split; [exact Hdata |].
  split; [exact Hit |]. apply (Hshift 2). simpl. lia.
Defined.

Lemma Emplace_then_Erase_restores_witness :
  let args := ByCopy (Ptr (Some 0%nat) 0) in
  represents example_store example_vector [1; 2; 3] ∧
  keeps_elements example_store example_vector args ∧
  ∃ it v1 s1 it' v2 s2,
    Vector.Emplace (ops := int_ops) always_grants
      (ptr_add (Vector.begin example_vector) 1) args
      (example_vector, example_store) = Ok it (v1, s1) ∧
    Vector.Erase (ops := int_ops) it (v1, s1) = Ok it' (v2, s2) ∧
    contents s2 v2 = Some [1; 2; 3] ∧ Vector.Size v2 = 3 ∧ it' = it.
Proof.
  intros args.
  assert (keeps_elements example_store example_vector args) as Hkeeps
    by (intros q []).
  assert (∃ it v' s', Vector.Emplace (ops := int_ops) always_grants
                        (ptr_add (Vector.begin example_vector) 1) args
                        (example_vector, example_store) = Ok it (v', s') ∧
          ∃ it' v2 s2, Vector.Erase (ops := int_ops) it (v', s')
                         = Ok it' (v2, s2))
    as (it & v1 & s1 & E & it' & v2 & s2 & E2).
  { eexists _, _, _. split; [by vm_compute |].
    eexists _, _, _. by vm_compute. }
  destruct (Emplace_then_Erase_restores (ops := int_ops) always_grants
              example_vector example_store [1; 2; 3] 1 args it v1 s1 it' v2 s2
              example_represents ltac:(simpl; lia) Hkeeps E E2)
    as (Hcontents & Hsize & Hit & _).
  split; [exact example_represents |]. split; [exact Hkeeps |].
  exists it, v1, s1, it', v2, s2. split; [exact E |]. split; [exact E2 |].
  split; [exact Hcontents |]. split; [exact Hsize | exact Hit].
Defined.

Lemma Insert_places_value_witness :
  let p := Ptr (Some 0%nat) 0 in
  represents example_store example_vector [1; 2; 3] ∧
  slot_at example_store p = Some (Some 99) ∧
  p_blk p ≠ p_blk (Vector.begin example_vector) ∧
  ∃ it v' s', Vector.Insert (ops := int_ops) always_grants
                (ptr_add (Vector.begin example_vector) 1) p
                (example_vector, example_store) = Ok it (v', s') ∧
              contents s' v' = Some [1; 99; 2; 3] ∧
              slot_at s' it = Some (Some 99) ∧ slot_at s' p = Some (Some 99).
Proof.
  intros p.
  assert (slot_at example_store p = Some (Some 99)) as Hp by (by vm_compute).
  assert (p_blk p ≠ p_blk (Vector.begin example_vector)) as Hblk by discriminate.
  destruct (Insert_places_value (ops := int_ops) always_grants example_vector
              example_store [1; 2; 3] 1 p 99 example_represents
              ltac:(simpl; lia) Hp Hblk) as [Hcopy _].
  assert (∃ it v' s', Vector.Insert (ops := int_ops) always_grants
                        (ptr_add (Vector.begin example_vector) 1) p
                        (example_vector, example_store) = Ok it (v', s'))
    as (it & v' & s' & E) by (eexists _, _, _; by vm_compute).
  destruct (Hcopy it v' s' E) as (Hcontents & Hit & Hsrc).
  split; [exact example_represents |]. split; [exact Hp |].
  split; [exact Hblk |].
  exists it, v', s'. split; [exact E |]. split; [exact Hcontents |].
  split; [exact Hit | exact Hsrc].
Defined.

Lemma PushBack_then_PopBack_restores_witness :
  let p := Ptr (Some 0%nat) 0 in
  represents example_store example_vector [1; 2; 3] ∧
  slot_at example_store p = Some (Some 99) ∧
  p_blk p ≠ p_blk (Vector.begin example_vector) ∧
  ∃ v1 s1 v2 s2,
    Vector.PushBack (ops := int_ops) always_grants p
      (example_vector, example_store) = Ok tt (v1, s1) ∧
    contents s1 v1 = Some [1; 2; 3; 99] ∧
    Vector.PopBack (v1, s1) = Ok tt (v2, s2) ∧
    contents s2 v2 = Some [1; 2; 3] ∧ Vector.Size v2 = 3.
Proof.
  intros p.
  assert (slot_at example_store p = Some (Some 99)) as Hp by (by vm_compute).
  assert (p_blk p ≠ p_blk (Vector.begin example_vector)) as Hblk by discriminate.
  assert (∃ v1 s1, Vector.PushBack (ops := int_ops) always_grants p
                     (example_vector, example_store) = Ok tt (v1, s1))
    as (v1 & s1 & E) by (eexists _, _; by vm_compute).
  destruct (PushBack_then_PopBack_restores (ops := int_ops) always_grants
              example_vector example_store [1; 2; 3] p 99 tt v1 s1
              example_represents Hp Hblk E)
    as (Hpushed & v2 & s2 & E2 & Hcontents & Hsize).
  split; [exact example_represents |]. split; [exact Hp |].
  split; [exact Hblk |].
  exists v1, s1, v2, s2. split; [exact E |]. split; [exact Hpushed |].
  split; [exact E2 |]. split; [exact Hcontents | exact Hsize].
Defined.


Lemma Emplace_reallocating_copy_failure_witness :
  let args := ByCopy (caller_object 0) in
  represents fragile_store fragile_vector [1; 13] ∧
  keeps_elements fragile_store fragile_vector args ∧
  relocates_by_move (ops := fragile_ops) = false ∧
  Vector.Capacity fragile_vector = Vector.Size fragile_vector ∧
  ∃ e v' s', Vector.Emplace (ops := fragile_ops) always_grants
               (ptr_add (Vector.begin fragile_vector) 0) args
               (fragile_vector, fragile_store) = Throw e (v', s') ∧
             v' = fragile_vector ∧ contents s' v' = Some [1; 13].
Proof.
  intros args.
  assert (keeps_elements fragile_store fragile_vector args) as Hkeeps
    by (intros q []).
  assert (∃ e v' s', Vector.Emplace (ops := fragile_ops) always_grants
                       (ptr_add (Vector.begin fragile_vector) 0) args
                       (fragile_vector, fragile_store) = Throw e (v', s'))
    as (e & v' & s' & E) by (eexists _, _, _; by vm_compute).
  destruct (Emplace_reallocating_copy_failure (ops := fragile_ops) always_grants
              fragile_vector fragile_store [1; 13] 0 args e v' s'
              fragile_represents ltac:(simpl; lia) Hkeeps eq_refl eq_refl E)
    as [Hv Hcontents].
  split; [exact fragile_represents |]. split; [exact Hkeeps |].
  split; [reflexivity |]. split; [reflexivity |].
  exists e, v', s'. split; [exact E |]. split; [exact Hv | exact Hcontents].
Defined.

Lemma PushBack_capacity_is_geometric_witness :
  let cs := [CallPushBack (caller_object 0); CallPushBackMove (caller_object 1);
             CallPushBack (caller_object 2)] in
  Forall is_push cs ∧
  ∃ v' s', final_state (run_calls (ops := int_ops) always_grants cs
                          (Vector.default, caller_store [1; 2; 3]))
             = Some (v', s') ∧
           geometric v'.
Proof.
  intros cs.
  assert (Forall (is_push (T := Z)) cs) as Hcs.
  { repeat first [ apply Forall_nil_2 | apply Forall_cons_2 ]; exact I. }
  assert (∃ v' s', final_state (run_calls (ops := int_ops) always_grants cs
                                  (Vector.default, caller_store [1; 2; 3]))
                     = Some (v', s'))
    as (v' & s' & E) by (eexists _, _; by vm_compute).
  split; [exact Hcs |]. exists v', s'. split; [exact E |].
  exact (PushBack_capacity_is_geometric (ops := int_ops) always_grants cs
           (caller_store [1; 2; 3]) v' s' Hcs E).
Defined.

Lemma pushes_within_capacity_keep_buffer_witness :
  let cs := [CallPushBack (caller_object 0)] in
  size_invariant example_vector ∧ Forall is_push cs ∧
  Vector.Size example_vector + Z.of_nat (length cs)
    ≤ Vector.Capacity example_vector ∧
  ∃ v' s', final_state (run_calls (ops := int_ops) always_grants cs
                          (example_vector, example_store)) = Some (v', s') ∧
           data_ v' = data_ example_vector.
Proof.
  intros cs.
  pose proof (rep_invariant _ _ _ example_represents) as Hinv.
  assert (Forall (is_push (T := Z)) cs) as Hcs.
  { repeat first [ apply Forall_nil_2 | apply Forall_cons_2 ]; exact I. }
  assert (Vector.Size example_vector + Z.of_nat (length cs)
            ≤ Vector.Capacity example_vector) as Hfit by (by vm_compute).
  assert (∃ v' s', final_state (run_calls (ops := int_ops) always_grants cs
                                  (example_vector, example_store))
                     = Some (v', s'))
    as (v' & s' & E) by (eexists _, _; by vm_compute).
  destruct (pushes_within_capacity_keep_buffer (ops := int_ops) always_grants
              cs example_vector example_store v' s' Hinv Hcs Hfit E)
    as [Hdata _].
  split; [exact Hinv |]. split; [exact Hcs |]. split; [exact Hfit |].
  exists v', s'. split; [exact E | exact Hdata].
Defined.

Lemma removals_keep_buffer_witness :
  size_invariant example_vector ∧
  ∃ v' s', final_state (Vector.Erase (ops := int_ops)
                          (ptr_add (Vector.begin example_vector) 1)
                          (example_vector, example_store)) = Some (v', s') ∧
           data_ v' = data_ example_vector.
Proof.
  pose proof (rep_invariant _ _ _ example_represents) as Hinv.
  assert (∃ v' s', final_state (Vector.Erase (ops := int_ops)
                                  (ptr_add (Vector.begin example_vector) 1)
                                  (example_vector, example_store))
                     = Some (v', s'))
    as (v' & s' & E) by (eexists _, _; by vm_compute).
  split; [exact Hinv |]. exists v', s'. split; [exact E |].
  exact (removals_keep_buffer (ops := int_ops) always_grants example_vector
           example_store (ptr_add (Vector.begin example_vector) 1) 0 v' s'
           Hinv (or_introl E)).
Defined.

Lemma EmplaceBack_returns_new_last_element_witness :
  let args := ByCopy (Ptr (Some 0%nat) 0) in
  represents example_store example_vector [1; 2; 3] ∧
  keeps_elements example_store example_vector args ∧
  ∃ r v' s', Vector.EmplaceBack (ops := int_ops) always_grants args
               (example_vector, example_store) = Ok r (v', s') ∧
             r = ptr_add (Vector.begin v') 3 ∧
             ∃ x, slot_at s' r = Some (Some x) ∧
                  contents s' v' = Some [1; 2; 3; x].
Proof.
  intros args.
  assert (keeps_elements example_store example_vector args) as Hkeeps
    by (intros q []).
  assert (∃ r v' s', Vector.EmplaceBack (ops := int_ops) always_grants args
                       (example_vector, example_store) = Ok r (v', s'))
    as (r & v' & s' & E) by (eexists _, _, _; by vm_compute).
  destruct (EmplaceBack_returns_new_last_element (ops := int_ops) always_grants
              example_vector example_store [1; 2; 3] args r v' s'
              example_represents Hkeeps E) as (Hr & _ & x & Hx & Hcontents & _).
  split; [exact example_represents |]. split; [exact Hkeeps |].
  exists r, v', s'. split; [exact E |]. split; [exact Hr |].
  exists x. split; [exact Hx | exact Hcontents].
Defined.
